(** * ASCII terminal video player: conversion engine and playback core

    A shallow embedding of [ascii_video/converter.py],
    [ascii_video/core.py] and parts of [terminal_core/utils.py].

    Conventions of the embedding.
    - Python [int] is [Z]. A floating-point value is the rational [Q] it
      denotes. The arithmetic of the conversion path (the character
      mapper, the geometry resizer, the brightness strategies, the
      normalisation of the pipeline and the progress bar) is rounded to
      the nearest value of its binary format, ties to even
      ([Float.round]): 53 bits for Python's [float] and [np.float64],
      24 bits for [np.float32]. The range of the exponent is not
      modelled: no value overflows to infinity or underflows, and there
      is no NaN. Everything else (the dimension planner, the 1440p
      geometry, the playback speed, the timing of the display loop and
      the performance monitor) is kept in exact rationals.
    - A Python exception is [None] in an [option] result.
    - A Python [str] is the list of its characters.
    - OpenCV is a parameter: the model fixes the shape of what its calls
      return and leaves the samples to the [OpenCV] record. *)

From Stdlib Require Import String Ascii ZArith QArith Qpower Qround Qabs Bool.
From Stdlib Require Import List Lia Lqa.
Import ListNotations.

Local Open Scope Z_scope.

(** ** Binary floating-point rounding *)

Module Float.

(** The integer nearest to [x], the even one of the two when [x] lies
    halfway. *)
Definition rne (x : Q) : Z :=
  let f := Qfloor x in
  match (x - inject_Z f ?= 1 # 2)%Q with
  | Lt => f
  | Gt => f + 1
  | Eq => if Z.even f then f else f + 1
  end.

(** The position of the leading bit of a positive [x]: the [k] with
    [2^k <= x < 2^(k+1)]. *)
Definition ilog2 (x : Q) : Z :=
  let k := Z.log2 (Qnum x) - Z.log2 (Zpos (Qden x)) in
  if Qle_bool (2 ^ k) x then k else k - 1.

(** A positive [x] rounded to [prec] significant bits: with [e] the
    exponent that puts [x / 2^e] in [[2^(prec-1), 2^prec)], the nearest
    multiple of [2^e]. *)
Definition round_pos (prec : Z) (x : Q) : Q :=
  let e := ilog2 x - (prec - 1) in
  (inject_Z (rne (x / 2 ^ e)) * 2 ^ e)%Q.

(** Round to nearest, ties to even, at [prec] significant bits; the
    result is in lowest terms. *)
Definition round (prec : Z) (x : Q) : Q :=
  Qred (match (x ?= 0)%Q with
        | Eq => 0
        | Gt => round_pos prec x
        | Lt => - round_pos prec (- x)
        end)%Q.

End Float.

(** ** Python and NumPy primitives *)

Module Py.

(** [int(x)] on a float: truncation toward zero. *)
Definition int (x : Q) : Z := Z.quot (Qnum x) (Zpos (Qden x)).

(** A Python [float] is a binary64 value: [float x] is the value of the
    literal or of the integer [x], and the result of an operation whose
    exact result is [x]. *)
Definition float (x : Q) : Q := Float.round 53 x.

(** [a * b] on floats. *)
Definition fmul (a b : Q) : Q := float (a * b).

(** True division [a / b] on floats, and on two integers, which Python
    divides with a single rounding; [ZeroDivisionError] when [b] is
    zero. *)
Definition truediv (a b : Q) : option Q :=
  if Qeq_bool b 0 then None else Some (float (a / b)%Q).

(** The builtin [max(a, b)] returns [a] unless [b > a]; [min(a, b)]
    returns [a] unless [b < a]. *)
Definition max (a b : Z) : Z := if a <? b then b else a.
Definition min (a b : Z) : Z := if b <? a then b else a.

Definition maxf (a b : Q) : Q := if Qlt_le_dec a b then b else a.
Definition minf (a b : Q) : Q := if Qlt_le_dec b a then b else a.

(** True division [a / b] in exact arithmetic; [ZeroDivisionError] when
    [b] is zero. *)
Definition div (a b : Q) : option Q :=
  if Qeq_bool b 0 then None else Some (a / b)%Q.

(** Floor division [a // b] on integers. *)
Definition floordiv (a b : Z) : option Z :=
  if b =? 0 then None else Some (a / b).

(** [np.clip(x, lo, hi)] is [minimum(maximum(x, lo), hi)]. *)
Definition clip (x lo hi : Z) : Z := Z.min (Z.max x lo) hi.
Definition clipf (x lo hi : Q) : Q :=
  let y := if Qlt_le_dec x lo then lo else x in
  if Qlt_le_dec hi y then hi else y.

(** [len(range(0, stop, step))] for a positive [step]. *)
Definition range_len (stop step : Z) : nat :=
  Z.to_nat ((stop + step - 1) / step).

(** [range(0, stop, step)] for a positive [step]. *)
Definition range_step (stop step : Z) : list Z :=
  map (fun k => Z.of_nat k * step) (seq 0 (range_len stop step)).

(** The slice [l[i:j]] for non-negative [i] and [j]. *)
Definition slice {A} (l : list A) (i j : Z) : list A :=
  firstn (Z.to_nat (j - i)) (skipn (Z.to_nat i) l).

(** Indexing a NumPy array with an integer: negative indices count from
    the end, anything else out of range is an [IndexError]. *)
Definition take {A} (a : list A) (i : Z) : option A :=
  let n := Z.of_nat (List.length a) in
  if (0 <=? i) && (i <? n) then nth_error a (Z.to_nat i)
  else if (- n <=? i) && (i <? 0) then nth_error a (Z.to_nat (i + n))
  else None.

End Py.

(** Sequencing of computations that may raise. *)
Definition bind {A B} (m : option A) (k : A -> option B) : option B :=
  match m with
  | Some a => k a
  | None => None
  end.

Notation "x <- m ;; k" := (bind m (fun x => k))
  (at level 61, m at next level, right associativity).

Fixpoint mapM {A B} (f : A -> option B) (l : list A) : option (list B) :=
  match l with
  | [] => Some []
  | a :: l' => b <- f a ;; bs <- mapM f l' ;; Some (b :: bs)
  end.

(** ** NumPy element types *)

Inductive FloatType := float32 | float64.

Definition precision (t : FloatType) : Z :=
  match t with
  | float32 => 24
  | float64 => 53
  end.

(** The element type of an array: [np.uint8], whose samples are the
    integers of [[0, 255]], or a floating-point type. *)
Inductive DType :=
| uint8
| floating (t : FloatType).

(** The result of an operation of exact result [x] in an array of
    floating-point type [t]. *)
Definition fl (t : FloatType) (x : Q) : Q := Float.round (precision t) x.

(** [astype(np.int32)] on a floating-point value: truncation toward
    zero. Outside the range of [int32] the conversion is the C cast,
    which the language leaves undefined; NumPy on x86-64 returns
    [INT32_MIN] there, which is what is taken here. *)
Definition astype_int32 (x : Q) : Z :=
  let t := Py.int x in
  if (- 2 ^ 31 <=? t) && (t <? 2 ^ 31) then t else - 2 ^ 31.

(** ** converter.py: styles and algorithms *)

(** The palettes of [ASCIIStyle] whose characters are all ASCII. *)
Definition MINIMAL : list ascii := list_ascii_of_string " .:-=+*#%@".
Definition DETAILED : list ascii :=
  list_ascii_of_string
    " .'`^"%string ++ ["034"%char] ++
  list_ascii_of_string
    ",:;Il!i><~+_-?][}{1)(|\/tfjrxnuvczXYUJCLQ0OZmwqpdbkhao*#MW&8%B@$".

Inductive ConversionAlgorithm :=
| LUMINANCE
| AVERAGE
| LIGHTNESS
| CUSTOM_WEIGHTED
| EDGE_ENHANCED
| SUPER_RESOLUTION
| ADAPTIVE_4K
| NEURAL_UPSCALE.

Definition is_luminance (a : ConversionAlgorithm) : bool :=
  match a with LUMINANCE => true | _ => false end.

(** The fields of an [ASCIIConverter] that the conversion reads.
    [ascii_chars] is [style.value]; [char_count] and [_char_map] are
    derived from it in [__init__]. *)
Record ASCIIConverter (glyph : Type) := mkConverter {
  ascii_chars : list glyph;
  algorithm : ConversionAlgorithm;
  use_threading : bool;
  max_workers : Z
}.
Arguments mkConverter {glyph}.
Arguments ascii_chars {glyph}.
Arguments algorithm {glyph}.
Arguments use_threading {glyph}.
Arguments max_workers {glyph}.

Definition char_count {glyph} (c : ASCIIConverter glyph) : Z :=
  Z.of_nat (List.length (ascii_chars c)).

(** [ASCIIConverter.__init__], lines 41-69. With [use_threading] a
    [ThreadPoolExecutor(max_workers)] is created, which raises
    [ValueError] unless [max_workers] is positive. *)
Definition new_converter {glyph} (style : list glyph)
    (algorithm : ConversionAlgorithm) (use_threading : bool)
    (max_workers : Z) : option (ASCIIConverter glyph) :=
  if use_threading && (max_workers <=? 0) then None
  else Some (mkConverter style algorithm use_threading max_workers).

(** ** converter.py: the character mapper *)

(** The brightness array has a floating-point element type [dt]: the
    pipeline passes [float32], a caller of [convert_frame_chunk] may pass
    [float64]. *)
Section CharacterMapper.
Context {glyph : Type}.
Variable dt : FloatType.
Variable self : ASCIIConverter glyph.

(** Lines 353-354: the palette index of one brightness value. The
    product is computed in the element type of the array, with
    [char_count - 1] converted to it, and cast to [int32] before it is
    clipped. *)
Definition char_index (v : Q) : Z :=
  let scaled := fl dt (v * fl dt (inject_Z (char_count self - 1))) in
  Py.clip (astype_int32 scaled) 0 (char_count self - 1).

(** Lines 353-355: one row of the grid. *)
Definition convert_row (row : list Q) : option (list glyph) :=
  mapM (fun v => Py.take (ascii_chars self) (char_index v)) row.

(** [convert_frame_chunk], lines 339-357. *)
Definition convert_frame_chunk (brightness_chunk : list (list Q))
    (start_row : Z) : option (list (list glyph)) :=
  mapM convert_row brightness_chunk.

(** Lines 413-425: the rows are cut into chunks of [chunk_size] rows,
    every chunk is submitted to the executor, and the results are
    collected in submission order; [future.result()] re-raises what the
    worker raised. *)
Definition convert_chunks_threaded (brightness : list (list Q))
    (height : Z) : option (list (list glyph)) :=
  q <- Py.floordiv height (max_workers self) ;;
  let chunk_size := Py.max 1 q in
  results <- mapM (fun i =>
               convert_frame_chunk (Py.slice brightness i (i + chunk_size)) i)
             (Py.range_step height chunk_size) ;;
  Some (concat results).

(** Lines 411-428. *)
Definition convert_lines (brightness : list (list Q)) (height : Z)
  : option (list (list glyph)) :=
  if use_threading self && (50 <? height)
  then convert_chunks_threaded brightness height
  else convert_frame_chunk brightness 0.

End CharacterMapper.

(** ** converter.py: the dimension planner *)

(** Lines 453-474 of [get_optimal_dimensions]. *)
Definition quality_multiplier (quality_mode : string)
    (frame_width frame_height : Z) : Q :=
  if String.eqb quality_mode "auto"%string then
    let input_pixels := frame_width * frame_height in
    if 8294400 <=? input_pixels then 3
    else if 2073600 <=? input_pixels then 5 # 2
    else if 921600 <=? input_pixels then 2
    else 3 # 2
  else if String.eqb quality_mode "8k"%string then 4
  else if String.eqb quality_mode "6k"%string then 7 # 2
  else if String.eqb quality_mode "4k"%string then 3
  else 1.

(** [get_optimal_dimensions], lines 432-497. [frame_shape] is
    [(height, width)]. *)
Definition get_optimal_dimensions (terminal_width terminal_height : Z)
    (frame_shape : Z * Z) (quality_mode : string) : option (Z * Z) :=
  let '(frame_height, frame_width) := frame_shape in
  frame_aspect <- Py.div (inject_Z frame_width) (inject_Z frame_height) ;;
  let char_aspect : Q := 1 # 2 in
  let quality_multiplier :=
    quality_multiplier quality_mode frame_width frame_height in
  terminal_ratio <-
    Py.div (inject_Z terminal_width) (inject_Z terminal_height) ;;
  base <-
    (if Qlt_le_dec (frame_aspect * char_aspect) terminal_ratio then
       let base_height := terminal_height - 2 in
       Some (Py.int (inject_Z base_height * frame_aspect / char_aspect),
             base_height)
     else
       let base_width := terminal_width - 2 in
       q <- Py.div (inject_Z base_width) frame_aspect ;;
       Some (base_width, Py.int (q * char_aspect))) ;;
  let '(base_width, base_height) := base in
  let enhanced_width := Py.int (inject_Z base_width * quality_multiplier) in
  let enhanced_height := Py.int (inject_Z base_height * quality_multiplier) in
  let max_width := Py.min (terminal_width * 4) 1000 in
  let max_height := Py.min (terminal_height * 4) 800 in
  let final_width := Py.min enhanced_width max_width in
  let final_height := Py.min enhanced_height max_height in
  Some (Py.max 1 final_width, Py.max 1 final_height).

(** ** Pixel frames and OpenCV *)

(** A pixel frame as the player receives it from [cv2.imread] and
    [VideoCapture.read]: an array of shape [(height, width, 3)] when
    [frame_color] holds and [(height, width)] otherwise, with its samples
    in row-major order. *)
Record Frame := mkFrame {
  frame_height : Z;
  frame_width : Z;
  frame_color : bool;
  frame_data : list Z
}.

(** [frame.size]. *)
Definition frame_size (f : Frame) : Z :=
  frame_height f * frame_width f * (if frame_color f then 3 else 1).

Inductive Interpolation := INTER_AREA | INTER_CUBIC | INTER_LANCZOS4.

(** An image of shape [(h, w, 3)] as NumPy computes on it: rows of
    (blue, green, red), each sample the number it denotes. *)
Definition BGR : Type := Q * Q * Q.

(** What OpenCV and NumPy compute on samples. A field returns the samples
    of the result, or [None] where the library raises [cv2.error]; the
    shape of the result is written out where the call is made.
    - [resize_samples]: [cv2.resize(src, (w, h), interpolation)];
    - [edsr_samples]: the chain of [_edsr_upscale] (bilateral filter,
      bicubic resize to [(w, h)], Gaussian blur, unsharp mask, CLAHE),
      which keeps the shape the resize produced;
    - [edge_preserving_samples]: the chain of [_edge_preserving_resize]
      (edge-preserving filter, Lanczos resize to [(w, h)], guided filter,
      clip and cast), likewise;
    - [gray_samples]: [cv2.cvtColor(src, cv2.COLOR_BGR2GRAY)];
    - [enhanced_brightness]: the four enhancement strategies
      [_edge_enhanced_brightness], [_super_resolution_brightness],
      [_adaptive_4k_brightness] and [_neural_upscale_brightness];
    - [np_power]: [np.power(x, y)] on one element. *)
Record OpenCV := mkOpenCV {
  resize_samples : Interpolation -> Frame -> Z -> Z -> option (list Z);
  edsr_samples : Frame -> Z -> Z -> option (list Z);
  edge_preserving_samples : Frame -> Z -> Z -> option (list Z);
  gray_samples : Frame -> option (list Z);
  enhanced_brightness :
    ConversionAlgorithm -> list (list BGR) -> option (list (list Q));
  np_power : Q -> Q -> Q
}.

(** ** converter.py: the geometry resizer *)

Section Resizer.
Variable cv : OpenCV.

(** [cv2.resize(frame, (width, height), interpolation)]. *)
Definition cv2_resize (interp : Interpolation) (frame : Frame)
    (dsize : Z * Z) : option Frame :=
  let '(width, height) := dsize in
  data <- resize_samples cv interp frame width height ;;
  Some (mkFrame height width (frame_color frame) data).

(** [_edsr_upscale], lines 270-293. *)
Definition _edsr_upscale (frame : Frame) (target_width target_height : Z)
  : option Frame :=
  data <- edsr_samples cv frame target_width target_height ;;
  Some (mkFrame target_height target_width (frame_color frame) data).

(** [_edge_preserving_resize], lines 295-319. *)
Definition _edge_preserving_resize (frame : Frame)
    (target_width target_height : Z) : option Frame :=
  data <- edge_preserving_samples cv frame target_width target_height ;;
  Some (mkFrame target_height target_width (frame_color frame) data).

(** The [while] loop of lines 252-256, run for at most [fuel]
    iterations; [None] when the loop has not stopped by then. *)
Fixpoint upscale_steps (fuel : nat)
    (current_width current_height target_width target_height : Z)
  : option (list (Z * Z)) :=
  if (current_width <? target_width) || (current_height <? target_height)
  then
    match fuel with
    | O => None
    | S fuel' =>
        let next_width := Py.min (current_width * 2) target_width in
        let next_height := Py.min (current_height * 2) target_height in
        steps <- upscale_steps fuel' next_width next_height
                   target_width target_height ;;
        Some ((next_width, next_height) :: steps)
    end
  else Some [].

(** The [for] loop of lines 259-261. *)
Fixpoint apply_steps (current_frame : Frame) (steps : list (Z * Z))
  : option Frame :=
  match steps with
  | [] => Some current_frame
  | (step_width, step_height) :: steps' =>
      f <- _edsr_upscale current_frame step_width step_height ;;
      apply_steps f steps'
  end.

(** [_super_resolution_resize], lines 244-268. The loop is given
    [target_width + target_height] iterations, which are enough whenever
    the frame and the target are at least one pixel each way (see
    [upscale_steps_total]). *)
Definition _super_resolution_resize (frame : Frame)
    (target_width target_height : Z) : option Frame :=
  let current_width := frame_width frame in
  let current_height := frame_height frame in
  steps <- upscale_steps (Z.to_nat (target_width + target_height))
             current_width current_height target_width target_height ;;
  current_frame <- apply_steps frame steps ;;
  if negb (frame_width current_frame =? target_width)
     || negb (frame_height current_frame =? target_height)
  then cv2_resize INTER_LANCZOS4 current_frame (target_width, target_height)
  else Some current_frame.

(** Lines 217-227 of [resize_frame_smart]: the size the frame is
    resized to, as [(target_width, adjusted_height)]. Every operation is
    one on Python floats, an integer operand being converted first. *)
Definition fitted_size (frame_width frame_height : Z)
    (target_width target_height : Z) : option (Z * Z) :=
  aspect_ratio <- Py.truediv (inject_Z frame_width) (inject_Z frame_height) ;;
  let char_aspect_ratio : Q := 1 # 2 in
  q <- Py.truediv (Py.float (inject_Z target_width)) aspect_ratio ;;
  let adjusted_height := Py.int (Py.fmul q char_aspect_ratio) in
  if target_height <? adjusted_height then
    let adjusted_height := target_height in
    w <- Py.truediv
           (Py.fmul (Py.float (inject_Z adjusted_height)) aspect_ratio)
           char_aspect_ratio ;;
    Some (Py.int w, adjusted_height)
  else Some (target_width, adjusted_height).

(** [resize_frame_smart], lines 205-242. *)
Definition resize_frame_smart (frame : Frame)
    (target_width target_height : Z) : option Frame :=
  let frame_height := frame_height frame in
  let frame_width := frame_width frame in
  fitted <- fitted_size frame_width frame_height target_width target_height ;;
  let '(target_width, adjusted_height) := fitted in
  scale_factor_x <-
    Py.truediv (inject_Z target_width) (inject_Z frame_width) ;;
  scale_factor_y <-
    Py.truediv (inject_Z adjusted_height) (inject_Z frame_height) ;;
  let max_scale_factor := Py.maxf scale_factor_x scale_factor_y in
  if Qlt_le_dec 2 max_scale_factor then
    _super_resolution_resize frame target_width adjusted_height
  else if Qlt_le_dec (3 # 2) max_scale_factor then
    _edge_preserving_resize frame target_width adjusted_height
  else
    cv2_resize INTER_LANCZOS4 frame (target_width, adjusted_height).

End Resizer.

(** ** converter.py: the brightness transform *)

(** [pixel_values] has element type [dt]: the pipeline passes the
    resized frame cast to [float32], a caller of [calculate_brightness]
    may pass the [uint8] frame itself. *)
Section Brightness.
Variable cv : OpenCV.
Variable dt : DType.

Definition max3 (a b c : Q) : Q := Py.maxf (Py.maxf a b) c.
Definition min3 (a b c : Q) : Q := Py.minf (Py.minf a b) c.

(** The element type of [c * x], [x / n] and [np.mean(x)] for a Python
    number and an array [x] of type [dt]: a [uint8] array gives
    [float64], a floating-point array keeps its type. *)
Definition result_type : FloatType :=
  match dt with
  | uint8 => float64
  | floating t => t
  end.

(** [wr * red + wg * green + wb * blue] with Python floats as weights:
    each weight is cast to the result type, and each product and each
    sum is rounded in it. *)
Definition weighted (wr wg wb : Q) (p : BGR) : Q :=
  let t := result_type in
  let '(b, g, r) := p in
  fl t (fl t (fl t (fl t (Py.float wr) * r) + fl t (fl t (Py.float wg) * g))
        + fl t (fl t (Py.float wb) * b)).

(** The element-wise strategies of [calculate_brightness]; channel 0 is
    blue, channel 1 green and channel 2 red. *)
Definition luminance (p : BGR) : Q :=
  weighted (2126 # 10000) (7152 # 10000) (722 # 10000) p.

(** [np.mean(x, axis=2)]: the three channels are added in the result
    type and the sum is divided by 3. *)
Definition average (p : BGR) : Q :=
  let t := result_type in
  let '(b, g, r) := p in fl t (fl t (fl t (b + g) + r) / 3).

(** [(np.max(x, axis=2) + np.min(x, axis=2)) / 2]: the sum has the
    element type of the array, so on [uint8], where the samples are
    integers, it wraps modulo 256; the division is in the result
    type. *)
Definition lightness (p : BGR) : Q :=
  let '(b, g, r) := p in
  match dt with
  | uint8 =>
      fl float64
         (inject_Z ((Qfloor (max3 b g r) + Qfloor (min3 b g r)) mod 256) / 2)
  | floating t => fl t (fl t (max3 b g r + min3 b g r) / 2)
  end.

Definition custom_weighted (p : BGR) : Q :=
  weighted (3 # 10) (59 # 100) (11 # 100) p.

(** [calculate_brightness], lines 71-112. *)
Definition calculate_brightness (alg : ConversionAlgorithm)
    (pixel_values : list (list BGR)) : option (list (list Q)) :=
  match alg with
  | LUMINANCE => Some (map (map luminance) pixel_values)
  | AVERAGE => Some (map (map average) pixel_values)
  | LIGHTNESS => Some (map (map lightness) pixel_values)
  | CUSTOM_WEIGHTED => Some (map (map custom_weighted) pixel_values)
  | EDGE_ENHANCED | SUPER_RESOLUTION | ADAPTIVE_4K | NEURAL_UPSCALE =>
      enhanced_brightness cv alg pixel_values
  end.

End Brightness.

(** The shape of a grid as [(rows, columns of each row)]. *)
Definition grid_shape {A} (g : list (list A)) : nat * list nat :=
  (List.length g, map (@List.length A) g).

(** ** converter.py: the frame conversion pipeline *)

(** Sample [c] of the pixel in row [i] and column [j] of a frame. *)
Definition sample (f : Frame) (i j c : nat) : Z :=
  let w := Z.to_nat (frame_width f) in
  let n := if frame_color f then 3%nat else 1%nat in
  nth ((i * w + j) * n + c) (frame_data f) 0.

(** [frame.astype(np.float32)] on a colour frame, as rows of pixels. *)
Definition astype_float32 (f : Frame) : list (list BGR) :=
  map (fun i =>
         map (fun j => (fl float32 (inject_Z (sample f i j 0)),
                        fl float32 (inject_Z (sample f i j 1)),
                        fl float32 (inject_Z (sample f i j 2))))
             (seq 0 (Z.to_nat (frame_width f))))
      (seq 0 (Z.to_nat (frame_height f))).

(** [frame.astype(np.float32)] on a 2-D frame, as rows of samples. *)
Definition astype_float32_gray (f : Frame) : list (list Q) :=
  map (fun i =>
         map (fun j => fl float32 (inject_Z (sample f i j 0)))
             (seq 0 (Z.to_nat (frame_width f))))
      (seq 0 (Z.to_nat (frame_height f))).

(** [sep.join(lines)]. *)
Fixpoint join {A} (sep : A) (lines : list (list A)) : list A :=
  match lines with
  | [] => []
  | [l] => l
  | l :: rest => l ++ sep :: join sep rest
  end.

Section Pipeline.
Context {glyph : Type}.
Variable newline : glyph.
Variable cv : OpenCV.
Variable self : ASCIIConverter glyph.

(** Lines 391-400: the grey levels of the resized frame. *)
Definition gray_levels (resized_frame : Frame) : option (list (list Q)) :=
  if frame_color resized_frame then
    if is_luminance (algorithm self) then
      calculate_brightness cv (floating float32) (algorithm self)
        (astype_float32 resized_frame)
    else
      data <- gray_samples cv resized_frame ;;
      Some (astype_float32_gray
              (mkFrame (frame_height resized_frame)
                       (frame_width resized_frame) false data))
  else Some (astype_float32_gray resized_frame).

(** Lines 402-409: normalisation and gamma correction, on a [float32]
    array. *)
Definition normalise (enhance_contrast : bool) (brightness : list (list Q))
  : list (list Q) :=
  let brightness := map (map (fun x => fl float32 (x / 255))) brightness in
  if enhance_contrast then
    map (map (fun x => Py.clipf (np_power cv x (8 # 10)) 0 1)) brightness
  else brightness.

(** [convert_frame_to_ascii], lines 359-430. A [frame] that is [None]
    in Python is [None] here; the result is the text as a list of
    characters. *)
Definition convert_frame_to_ascii (frame : option Frame) (width : Z)
    (height : option Z) (enhance_contrast : bool) : option (list glyph) :=
  match frame with
  | None => Some []
  | Some frame =>
      if frame_size frame =? 0 then Some []
      else
        height <-
          match height with
          | Some h => Some h
          | None =>
              q <- Py.truediv (inject_Z (frame_height frame * width))
                     (inject_Z (frame_width frame)) ;;
              Some (Py.int (Py.fmul q (1 # 2)))
          end ;;
        let width := Py.max 1 width in
        let height := Py.max 1 height in
        resized_frame <- resize_frame_smart cv frame width height ;;
        gray <- gray_levels resized_frame ;;
        let brightness := normalise enhance_contrast gray in
        ascii_lines <- convert_lines float32 self brightness height ;;
        Some (join newline ascii_lines)
  end.

End Pipeline.

(** ** core.py: the player *)

(** [queue.Queue(maxsize)]: a FIFO queue; it is bounded by [maxsize] when
    [maxsize] is positive and unbounded otherwise. *)
Record Queue (A : Type) := mkQueue {
  maxsize : Z;
  items : list A
}.
Arguments mkQueue {A}.
Arguments maxsize {A}.
Arguments items {A}.

Section QueueOps.
Context {A : Type}.

Definition qsize (q : Queue A) : Z := Z.of_nat (List.length (items q)).

Definition full (q : Queue A) : bool :=
  (0 <? maxsize q) && (maxsize q <=? qsize q).

Definition empty (q : Queue A) : bool := qsize q =? 0.

(** [put(item, timeout=t)] once the wait is over: [None] is
    [queue.Full]. *)
Definition put (q : Queue A) (item : A) : option (Queue A) :=
  if full q then None else Some (mkQueue (maxsize q) (items q ++ [item])).

(** [get(timeout=t)] and [get_nowait()]: [None] is [queue.Empty]. *)
Definition get (q : Queue A) : option (A * Queue A) :=
  match items q with
  | [] => None
  | x :: rest => Some (x, mkQueue (maxsize q) rest)
  end.

(** The draining loops of [stop], [restart] and [seek]. *)
Definition drain (q : Queue A) : Queue A := mkQueue (maxsize q) [].

End QueueOps.

(** A [cv2.VideoCapture]: whether it is opened, its properties as
    [get(cv2.CAP_PROP_...)] returns them, the frames of the file and the
    position of the next [read()]. *)
Record VideoCapture := mkCapture {
  isOpened : bool;
  CAP_PROP_FRAME_COUNT : Q;
  CAP_PROP_FPS : Q;
  CAP_PROP_FRAME_WIDTH : Q;
  CAP_PROP_FRAME_HEIGHT : Q;
  cap_frames : list Frame;
  CAP_PROP_POS_FRAMES : nat
}.

Definition release (c : VideoCapture) : VideoCapture :=
  mkCapture false (CAP_PROP_FRAME_COUNT c) (CAP_PROP_FPS c)
    (CAP_PROP_FRAME_WIDTH c) (CAP_PROP_FRAME_HEIGHT c) (cap_frames c)
    (CAP_PROP_POS_FRAMES c).

Definition set_pos (c : VideoCapture) (n : nat) : VideoCapture :=
  mkCapture (isOpened c) (CAP_PROP_FRAME_COUNT c) (CAP_PROP_FPS c)
    (CAP_PROP_FRAME_WIDTH c) (CAP_PROP_FRAME_HEIGHT c) (cap_frames c) n.

(** [cap.read()]: the frame at the current position, if any. *)
Definition read (c : VideoCapture) : VideoCapture * option Frame :=
  match nth_error (cap_frames c) (CAP_PROP_POS_FRAMES c) with
  | Some f => (set_pos c (S (CAP_PROP_POS_FRAMES c)), Some f)
  | None => (c, None)
  end.

(** The attributes of [ASCIIVideoPlayer] that loading, buffering and the
    runtime controls read or write. *)
Record ASCIIVideoPlayer := mkPlayer {
  is_playing : bool;
  is_paused : bool;
  current_frame : Z;
  total_frames : Z;
  video_fps : Q;
  playback_speed : Q;
  buffer_size : Z;
  frame_buffer : Queue (Z * Frame);
  stop_event : bool;
  cap : option VideoCapture;
  media_path : option string;
  static_image : option Frame;
  is_image : bool;
  ascii_width : Z;
  ascii_height : Z;
  show_ui : bool;
  show_performance : bool;
  quality_mode : string;
  hq_video : bool;
  lock_dimensions : bool;
  char_px_w : Z;
  char_px_h : Z
}.

(** Assignments to one attribute of the player. *)
Definition set_is_playing (self : ASCIIVideoPlayer) (v : bool)
  : ASCIIVideoPlayer :=
  mkPlayer v (is_paused self) (current_frame self) (total_frames self)
    (video_fps self) (playback_speed self) (buffer_size self)
    (frame_buffer self) (stop_event self) (cap self) (media_path self)
    (static_image self) (is_image self) (ascii_width self)
    (ascii_height self) (show_ui self) (show_performance self)
    (quality_mode self) (hq_video self) (lock_dimensions self)
    (char_px_w self) (char_px_h self).
Definition set_is_paused (self : ASCIIVideoPlayer) (v : bool)
  : ASCIIVideoPlayer :=
  mkPlayer (is_playing self) v (current_frame self) (total_frames self)
    (video_fps self) (playback_speed self) (buffer_size self)
    (frame_buffer self) (stop_event self) (cap self) (media_path self)
    (static_image self) (is_image self) (ascii_width self)
    (ascii_height self) (show_ui self) (show_performance self)
    (quality_mode self) (hq_video self) (lock_dimensions self)
    (char_px_w self) (char_px_h self).
Definition set_current_frame (self : ASCIIVideoPlayer) (v : Z)
  : ASCIIVideoPlayer :=
  mkPlayer (is_playing self) (is_paused self) v (total_frames self)
    (video_fps self) (playback_speed self) (buffer_size self)
    (frame_buffer self) (stop_event self) (cap self) (media_path self)
    (static_image self) (is_image self) (ascii_width self)
    (ascii_height self) (show_ui self) (show_performance self)
    (quality_mode self) (hq_video self) (lock_dimensions self)
    (char_px_w self) (char_px_h self).
Definition set_total_frames (self : ASCIIVideoPlayer) (v : Z)
  : ASCIIVideoPlayer :=
  mkPlayer (is_playing self) (is_paused self) (current_frame self) v
    (video_fps self) (playback_speed self) (buffer_size self)
    (frame_buffer self) (stop_event self) (cap self) (media_path self)
    (static_image self) (is_image self) (ascii_width self)
    (ascii_height self) (show_ui self) (show_performance self)
    (quality_mode self) (hq_video self) (lock_dimensions self)
    (char_px_w self) (char_px_h self).
Definition set_video_fps (self : ASCIIVideoPlayer) (v : Q)
  : ASCIIVideoPlayer :=
  mkPlayer (is_playing self) (is_paused self) (current_frame self)
    (total_frames self) v (playback_speed self) (buffer_size self)
    (frame_buffer self) (stop_event self) (cap self) (media_path self)
    (static_image self) (is_image self) (ascii_width self)
    (ascii_height self) (show_ui self) (show_performance self)
    (quality_mode self) (hq_video self) (lock_dimensions self)
    (char_px_w self) (char_px_h self).
Definition set_playback_speed (self : ASCIIVideoPlayer) (v : Q)
  : ASCIIVideoPlayer :=
  mkPlayer (is_playing self) (is_paused self) (current_frame self)
    (total_frames self) (video_fps self) v (buffer_size self)
    (frame_buffer self) (stop_event self) (cap self) (media_path self)
    (static_image self) (is_image self) (ascii_width self)
    (ascii_height self) (show_ui self) (show_performance self)
    (quality_mode self) (hq_video self) (lock_dimensions self)
    (char_px_w self) (char_px_h self).
Definition set_frame_buffer (self : ASCIIVideoPlayer) (v : Queue (Z * Frame))
  : ASCIIVideoPlayer :=
  mkPlayer (is_playing self) (is_paused self) (current_frame self)
    (total_frames self) (video_fps self) (playback_speed self)
    (buffer_size self) v (stop_event self) (cap self) (media_path self)
    (static_image self) (is_image self) (ascii_width self)
    (ascii_height self) (show_ui self) (show_performance self)
    (quality_mode self) (hq_video self) (lock_dimensions self)
    (char_px_w self) (char_px_h self).
Definition set_stop_event (self : ASCIIVideoPlayer) (v : bool)
  : ASCIIVideoPlayer :=
  mkPlayer (is_playing self) (is_paused self) (current_frame self)
    (total_frames self) (video_fps self) (playback_speed self)
    (buffer_size self) (frame_buffer self) v (cap self) (media_path self)
    (static_image self) (is_image self) (ascii_width self)
    (ascii_height self) (show_ui self) (show_performance self)
    (quality_mode self) (hq_video self) (lock_dimensions self)
    (char_px_w self) (char_px_h self).
Definition set_cap (self : ASCIIVideoPlayer) (v : option VideoCapture)
  : ASCIIVideoPlayer :=
  mkPlayer (is_playing self) (is_paused self) (current_frame self)
    (total_frames self) (video_fps self) (playback_speed self)
    (buffer_size self) (frame_buffer self) (stop_event self) v
    (media_path self) (static_image self) (is_image self) (ascii_width self)
    (ascii_height self) (show_ui self) (show_performance self)
    (quality_mode self) (hq_video self) (lock_dimensions self)
    (char_px_w self) (char_px_h self).
Definition set_media_path (self : ASCIIVideoPlayer) (v : option string)
  : ASCIIVideoPlayer :=
  mkPlayer (is_playing self) (is_paused self) (current_frame self)
    (total_frames self) (video_fps self) (playback_speed self)
    (buffer_size self) (frame_buffer self) (stop_event self) (cap self) v
    (static_image self) (is_image self) (ascii_width self)
    (ascii_height self) (show_ui self) (show_performance self)
    (quality_mode self) (hq_video self) (lock_dimensions self)
    (char_px_w self) (char_px_h self).
Definition set_static_image (self : ASCIIVideoPlayer) (v : option Frame)
  : ASCIIVideoPlayer :=
  mkPlayer (is_playing self) (is_paused self) (current_frame self)
    (total_frames self) (video_fps self) (playback_speed self)
    (buffer_size self) (frame_buffer self) (stop_event self) (cap self)
    (media_path self) v (is_image self) (ascii_width self)
    (ascii_height self) (show_ui self) (show_performance self)
    (quality_mode self) (hq_video self) (lock_dimensions self)
    (char_px_w self) (char_px_h self).
Definition set_is_image (self : ASCIIVideoPlayer) (v : bool)
  : ASCIIVideoPlayer :=
  mkPlayer (is_playing self) (is_paused self) (current_frame self)
    (total_frames self) (video_fps self) (playback_speed self)
    (buffer_size self) (frame_buffer self) (stop_event self) (cap self)
    (media_path self) (static_image self) v (ascii_width self)
    (ascii_height self) (show_ui self) (show_performance self)
    (quality_mode self) (hq_video self) (lock_dimensions self)
    (char_px_w self) (char_px_h self).
Definition set_ascii_width (self : ASCIIVideoPlayer) (v : Z)
  : ASCIIVideoPlayer :=
  mkPlayer (is_playing self) (is_paused self) (current_frame self)
    (total_frames self) (video_fps self) (playback_speed self)
    (buffer_size self) (frame_buffer self) (stop_event self) (cap self)
    (media_path self) (static_image self) (is_image self) v
    (ascii_height self) (show_ui self) (show_performance self)
    (quality_mode self) (hq_video self) (lock_dimensions self)
    (char_px_w self) (char_px_h self).
Definition set_ascii_height (self : ASCIIVideoPlayer) (v : Z)
  : ASCIIVideoPlayer :=
  mkPlayer (is_playing self) (is_paused self) (current_frame self)
    (total_frames self) (video_fps self) (playback_speed self)
    (buffer_size self) (frame_buffer self) (stop_event self) (cap self)
    (media_path self) (static_image self) (is_image self) (ascii_width self)
    v (show_ui self) (show_performance self) (quality_mode self)
    (hq_video self) (lock_dimensions self) (char_px_w self) (char_px_h self).
Definition set_show_ui (self : ASCIIVideoPlayer) (v : bool)
  : ASCIIVideoPlayer :=
  mkPlayer (is_playing self) (is_paused self) (current_frame self)
    (total_frames self) (video_fps self) (playback_speed self)
    (buffer_size self) (frame_buffer self) (stop_event self) (cap self)
    (media_path self) (static_image self) (is_image self) (ascii_width self)
    (ascii_height self) v (show_performance self) (quality_mode self)
    (hq_video self) (lock_dimensions self) (char_px_w self) (char_px_h self).
Definition set_show_performance (self : ASCIIVideoPlayer) (v : bool)
  : ASCIIVideoPlayer :=
  mkPlayer (is_playing self) (is_paused self) (current_frame self)
    (total_frames self) (video_fps self) (playback_speed self)
    (buffer_size self) (frame_buffer self) (stop_event self) (cap self)
    (media_path self) (static_image self) (is_image self) (ascii_width self)
    (ascii_height self) (show_ui self) v (quality_mode self) (hq_video self)
    (lock_dimensions self) (char_px_w self) (char_px_h self).

(** [ASCIIVideoPlayer.__init__], lines 27-95. *)
Definition new_player (buffer_size : Z) : ASCIIVideoPlayer :=
  {| is_playing := false;
     is_paused := false;
     current_frame := 0;
     total_frames := 0;
     video_fps := 30;
     playback_speed := 1;
     buffer_size := buffer_size;
     frame_buffer := mkQueue buffer_size [];
     stop_event := false;
     cap := None;
     media_path := None;
     static_image := None;
     is_image := false;
     ascii_width := 80;
     ascii_height := 24;
     show_ui := true;
     show_performance := true;
     quality_mode := "auto"%string;
     hq_video := false;
     lock_dimensions := false;
     char_px_w := 10;
     char_px_h := 20 |}.

(** What the player reads from outside: the file system, the decoders
    and the terminal. For a path given as the string [p],
    [path_exists p] is [Path(p).exists()], [path_suffix p] is
    [Path(p).suffix.lower()] and [path_str p] is [str(Path(p))], the
    string with redundant separators and [.] components removed. *)
Record World := mkWorld {
  path_exists : string -> bool;
  path_suffix : string -> string;
  path_str : string -> string;
  cv2_imread : string -> option Frame;
  cv2_VideoCapture : string -> VideoCapture;
  get_terminal_size : Z * Z
}.

Definition image_extensions : list string :=
  [".jpg"; ".jpeg"; ".png"; ".bmp"; ".tiff"; ".tif"; ".webp"; ".gif";
   ".ico"; ".ppm"; ".pgm"; ".pbm"]%string.

Section Loading.
Variable world : World.

(** [_compute_1440p_ascii_size], lines 242-266. *)
Definition _compute_1440p_ascii_size (self : ASCIIVideoPlayer)
    (frame_shape : Z * Z) : option (Z * Z) :=
  let '(term_w, term_h) := get_terminal_size world in
  let '(frame_h, frame_w) := frame_shape in
  frame_aspect <-
    Py.div (inject_Z frame_w) (inject_Z (Py.max 1 frame_h)) ;;
  char_aspect <-
    Py.div (inject_Z (char_px_w self))
           (inject_Z (Py.max 1 (char_px_h self))) ;;
  c <- Py.div 2560 (inject_Z (char_px_w self)) ;;
  let target_cols := Py.max 1 (Py.int c) in
  r <- Py.div 1440 (inject_Z (char_px_h self)) ;;
  let target_rows := Py.max 1 (Py.int r) in
  a <- Py.div (inject_Z target_cols) frame_aspect ;;
  b <- Py.div (inject_Z (char_px_h self)) (inject_Z (char_px_w self)) ;;
  let h_from_w := Py.int (a * b) in
  sized <-
    (if h_from_w <=? target_rows then Some (target_cols, h_from_w)
     else
       d <- Py.div (inject_Z (char_px_w self))
                   (inject_Z (char_px_h self)) ;;
       Some (Py.int (inject_Z target_rows * frame_aspect * d),
             target_rows)) ;;
  let '(cols, rows) := sized in
  let cols := Py.max 1 (Py.min cols (term_w - 2)) in
  let rows := Py.max 1 (Py.min rows (term_h - 2)) in
  Some (cols, rows).

(** Lines 150-158 and 188-196: the output geometry of freshly loaded
    media; [None] when the computation raises. *)
Definition ascii_size (self : ASCIIVideoPlayer) (frame_shape : Z * Z)
    (quality : string) : option (Z * Z) :=
  if lock_dimensions self then _compute_1440p_ascii_size self frame_shape
  else
    let '(terminal_width, terminal_height) := get_terminal_size world in
    get_optimal_dimensions terminal_width terminal_height frame_shape
      quality.

(** [_load_image], lines 135-168. An exception raised after the first
    assignments is caught on line 166 and leaves them in place. *)
Definition _load_image (self : ASCIIVideoPlayer) (image_path : string)
  : bool * ASCIIVideoPlayer :=
  match cv2_imread world image_path with
  | None => (false, self)
  | Some image =>
      let self := set_static_image self (Some image) in
      let self := set_total_frames self 1 in
      let self := set_video_fps self 1 in
      let self := set_current_frame self 0 in
      match ascii_size self (frame_height image, frame_width image)
              (quality_mode self) with
      | Some (w, h) => (true, set_ascii_height (set_ascii_width self w) h)
      | None => (false, self)
      end
  end.

(** [_load_video], lines 170-208. *)
Definition _load_video (self : ASCIIVideoPlayer) (video_path : string)
  : bool * ASCIIVideoPlayer :=
  let c := cv2_VideoCapture world video_path in
  let self := set_cap self (Some c) in
  if negb (isOpened c) then (false, self)
  else
    let self := set_static_image self None in
    let self := set_total_frames self (Py.int (CAP_PROP_FRAME_COUNT c)) in
    let self :=
      set_video_fps self
        (if Qeq_bool (CAP_PROP_FPS c) 0 then 30 else CAP_PROP_FPS c) in
    let frame_width := Py.int (CAP_PROP_FRAME_WIDTH c) in
    let frame_height := Py.int (CAP_PROP_FRAME_HEIGHT c) in
    let effective_quality :=
      if hq_video self then quality_mode self else "standard"%string in
    match ascii_size self (frame_height, frame_width) effective_quality with
    | Some (w, h) => (true, set_ascii_height (set_ascii_width self w) h)
    | None => (false, self)
    end.

(** [load_media], lines 97-133. The argument is turned into a [Path] on
    line 108; what is stored and what the loaders hand to OpenCV is
    [str] of that path. *)
Definition load_media (self : ASCIIVideoPlayer) (media_path : string)
  : bool * ASCIIVideoPlayer :=
  if negb (path_exists world media_path) then (false, self)
  else
    let file_ext := path_suffix world media_path in
    let self :=
      match cap self with
      | Some c => set_cap self (Some (release c))
      | None => self
      end in
    let self := set_media_path self (Some (path_str world media_path)) in
    let self :=
      set_is_image self (existsb (String.eqb file_ext) image_extensions) in
    if is_image self then _load_image self (path_str world media_path)
    else _load_video self (path_str world media_path).

End Loading.

(** ** core.py: runtime controls *)

(** [stop], lines 563-583. The joins with the two threads have a timeout
    and are not modelled: the threads go on taking steps. *)
Definition stop (self : ASCIIVideoPlayer) : ASCIIVideoPlayer :=
  let self := set_is_playing self false in
  let self := set_stop_event self true in
  set_frame_buffer self (drain (frame_buffer self)).

(** [toggle_pause], lines 585-588. *)
Definition toggle_pause (self : ASCIIVideoPlayer) : ASCIIVideoPlayer :=
  set_is_paused self (negb (is_paused self)).

(** [change_speed], lines 590-600. *)
Definition change_speed (self : ASCIIVideoPlayer) (delta : Q)
  : ASCIIVideoPlayer :=
  set_playback_speed self
    (Py.maxf (1 # 10) (Py.minf 5 (playback_speed self + delta))).

(** [restart], lines 622-633. *)
Definition restart (self : ASCIIVideoPlayer) : ASCIIVideoPlayer :=
  match cap self with
  | Some c =>
      let self := set_cap self (Some (set_pos c 0)) in
      let self := set_current_frame self 0 in
      set_frame_buffer self (drain (frame_buffer self))
  | None => self
  end.

(** [seek], lines 635-646. *)
Definition seek (self : ASCIIVideoPlayer) (frame_number : Z)
  : ASCIIVideoPlayer :=
  match cap self with
  | Some c =>
      if (0 <=? frame_number) && (frame_number <? total_frames self) then
        let self := set_cap self (Some (set_pos c (Z.to_nat frame_number))) in
        let self := set_current_frame self frame_number in
        set_frame_buffer self (drain (frame_buffer self))
      else self
  | None => self
  end.

(** [_process_key], lines 546-561. *)
Definition _process_key (self : ASCIIVideoPlayer) (key : ascii)
  : ASCIIVideoPlayer :=
  if Ascii.eqb key "q" then stop self
  else if Ascii.eqb key " " then toggle_pause self
  else if Ascii.eqb key "+" || Ascii.eqb key "=" then
    change_speed self (1 # 10)
  else if Ascii.eqb key "-" then change_speed self (- (1 # 10))
  else if Ascii.eqb key "r" then restart self
  else if Ascii.eqb key "f" then set_show_ui self (negb (show_ui self))
  else if Ascii.eqb key "p" then
    set_show_performance self (negb (show_performance self))
  else self.

(** ** core.py: the frame buffer between the two threads *)

(** Where the buffering thread stands in [_buffer_frames]. *)
Inductive BufferPC :=
| BufStart
| BufImagePut (image : Frame)
| BufImageIdle
| BufLoop
| BufPut (frame : Frame)
| BufDone.

(** One step of [_buffer_frames], lines 288-315. A [put] that finds the
    queue full waits; [timed_out] tells whether its 0.1 s have passed, in
    which case [queue.Full] is raised and swallowed. *)
Definition buffer_step (timed_out : bool)
    (st : BufferPC * ASCIIVideoPlayer) : BufferPC * ASCIIVideoPlayer :=
  let '(pc, self) := st in
  match pc with
  | BufStart =>
      if is_image self then
        match static_image self with
        | Some image =>
            if qsize (frame_buffer self) =? 0 then (BufImagePut image, self)
            else (BufImageIdle, self)
        | None => (BufImageIdle, self)
        end
      else (BufLoop, self)
  | BufImagePut image =>
      match put (frame_buffer self) (0, image) with
      | Some q => (BufImageIdle, set_frame_buffer self q)
      | None => if timed_out then (BufImageIdle, self) else (pc, self)
      end
  | BufImageIdle =>
      if stop_event self then (BufDone, self) else (BufImageIdle, self)
  | BufLoop =>
      match cap self with
      | Some c =>
          if negb (stop_event self) && isOpened c then
            if (qsize (frame_buffer self) <? buffer_size self)
               && negb (is_paused self)
            then
              match read c with
              | (c', Some frame) => (BufPut frame, set_cap self (Some c'))
              | (c', None) => (BufDone, set_cap self (Some c'))
              end
            else (BufLoop, self)
          else (BufDone, self)
      | None => (BufDone, self)
      end
  | BufPut frame =>
      match put (frame_buffer self) (current_frame self, frame) with
      | Some q =>
          let self := set_frame_buffer self q in
          (BufLoop, set_current_frame self (current_frame self + 1))
      | None => if timed_out then (BufLoop, self) else (pc, self)
      end
  | BufDone => (BufDone, self)
  end.

(** Line 339 of [_display_frames]: the display thread takes the next
    frame out of the buffer, if there is one. *)
Definition display_get (self : ASCIIVideoPlayer) : ASCIIVideoPlayer :=
  match get (frame_buffer self) with
  | Some (_, q) => set_frame_buffer self q
  | None => self
  end.

(** What can happen next while the threads run: the buffering thread
    takes a step, the display thread takes a frame, or the input thread
    handles a key or a seek. *)
Inductive Event :=
| Buffering (timed_out : bool)
| Displaying
| KeyPressed (key : ascii)
| Seek (frame_number : Z).

Definition step (st : BufferPC * ASCIIVideoPlayer) (e : Event)
  : BufferPC * ASCIIVideoPlayer :=
  match e with
  | Buffering timed_out => buffer_step timed_out st
  | Displaying => (fst st, display_get (snd st))
  | KeyPressed key => (fst st, _process_key (snd st) key)
  | Seek n => (fst st, seek (snd st) n)
  end.

(** The state an interleaving of the threads ends in. *)
Fixpoint run (st : BufferPC * ASCIIVideoPlayer) (trace : list Event)
  : BufferPC * ASCIIVideoPlayer :=
  match trace with
  | [] => st
  | e :: trace' => run (step st e) trace'
  end.

(** ** Reference notions and concrete inputs *)

(** The index the specification words ask of the character mapper: an
    integer nearest to [v * (n - 1)], clamped to [[0, n - 1]], for a
    palette of [n] characters. *)
Definition is_rounded_index (n : Z) (v : Q) (k : Z) : Prop :=
  exists r : Z,
    (Qabs (inject_Z r - v * inject_Z (n - 1)) <= 1 # 2)%Q /\
    k = Py.clip r 0 (n - 1).

(** A converter with the ten-character palette. *)
Definition minimal_converter : ASCIIConverter ascii :=
  mkConverter MINIMAL LUMINANCE true 4.


(** OpenCV accepts every resize of a non-empty frame to a size of at
    least one pixel each way. *)
Definition opencv_accepts (cv : OpenCV) : Prop :=
  forall f w h,
    1 <= frame_width f -> 1 <= frame_height f -> 1 <= w -> 1 <= h ->
    (forall i, resize_samples cv i f w h <> None) /\
    edsr_samples cv f w h <> None /\
    edge_preserving_samples cv f w h <> None.

(** An OpenCV stand-in that answers every call with black samples. *)
Definition black (w h : Z) : list Z := repeat 0 (Z.to_nat (w * h * 3)).
Definition black_cv : OpenCV :=
  mkOpenCV (fun _ _ w h => Some (black w h))
           (fun _ w h => Some (black w h))
           (fun _ w h => Some (black w h))
           (fun f => Some (black (frame_width f) (frame_height f)))
           (fun _ px => Some (map (map (fun _ => 0%Q)) px))
           (fun x _ => x).

(** A black colour frame of four by four pixels. *)
Definition black_4x4 : Frame := mkFrame 4 4 true (black 4 4).

(** The frame buffer of a player respects a capacity. *)
Definition buffer_within (capacity : Z) (self : ASCIIVideoPlayer) : Prop :=
  maxsize (frame_buffer self) = capacity /\
  qsize (frame_buffer self) <= capacity.

(** [str(PurePosixPath(p))], what [str(Path(p))] is on a POSIX system:
    the components of [p] that are neither empty nor [.], joined by one
    separator each, after the root if [p] has one; the root is [//] when
    [p] starts with exactly two separators; the empty path is [.]. *)
Fixpoint components (p : string) (current : string) : list string :=
  match p with
  | EmptyString => [current]
  | String c rest =>
      if Ascii.eqb c "/" then current :: components rest EmptyString
      else components rest (current ++ String c EmptyString)
  end.

Definition posix_root (p : string) : string :=
  match p with
  | String "/" (String "/" (String "/" _)) => "/"
  | String "/" (String "/" _) => "//"
  | String "/" _ => "/"
  | _ => EmptyString
  end%string.

Definition posix_str (p : string) : string :=
  let parts :=
    filter (fun x => negb (String.eqb x EmptyString || String.eqb x "."))
           (components p EmptyString) in
  let s := (posix_root p ++ String.concat "/" parts)%string in
  if String.eqb s EmptyString then "."%string else s.

(** A world in which every path exists and decodes to the black frame of
    four by four pixels, seen from a terminal of 80 by 24 cells. *)
Definition still_world : World :=
  mkWorld (fun _ => true) (fun _ => ".png"%string) posix_str
          (fun _ => Some black_4x4)
          (fun _ => mkCapture false 0 0 0 0 [] 0)
          (80, 24).

(** A world in which no path exists. *)
Definition empty_world : World :=
  mkWorld (fun _ => false) (fun _ => ""%string) posix_str
          (fun _ => None)
          (fun _ => mkCapture false 0 0 0 0 [] 0)
          (80, 24).

(** A player with a buffer of three frames and an opened video of five
    frames. *)
Definition video_player : ASCIIVideoPlayer :=
  set_cap (new_player 3)
    (Some (mkCapture true 5 30 4 4 (repeat black_4x4 5) 0)).


(** * More of the player and its collaborators *)

(** Assignments to the remaining attributes of the player. *)
Definition with_quality_mode (self : ASCIIVideoPlayer) (v : string)
  : ASCIIVideoPlayer :=
  mkPlayer (is_playing self) (is_paused self) (current_frame self)
    (total_frames self) (video_fps self) (playback_speed self)
    (buffer_size self) (frame_buffer self) (stop_event self) (cap self)
    (media_path self) (static_image self) (is_image self) (ascii_width self)
    (ascii_height self) (show_ui self) (show_performance self) v
    (hq_video self) (lock_dimensions self) (char_px_w self) (char_px_h self).
Definition set_lock_dimensions (self : ASCIIVideoPlayer) (v : bool)
  : ASCIIVideoPlayer :=
  mkPlayer (is_playing self) (is_paused self) (current_frame self)
    (total_frames self) (video_fps self) (playback_speed self)
    (buffer_size self) (frame_buffer self) (stop_event self) (cap self)
    (media_path self) (static_image self) (is_image self) (ascii_width self)
    (ascii_height self) (show_ui self) (show_performance self)
    (quality_mode self) (hq_video self) v (char_px_w self) (char_px_h self).
Definition set_char_px_w (self : ASCIIVideoPlayer) (v : Z)
  : ASCIIVideoPlayer :=
  mkPlayer (is_playing self) (is_paused self) (current_frame self)
    (total_frames self) (video_fps self) (playback_speed self)
    (buffer_size self) (frame_buffer self) (stop_event self) (cap self)
    (media_path self) (static_image self) (is_image self) (ascii_width self)
    (ascii_height self) (show_ui self) (show_performance self)
    (quality_mode self) (hq_video self) (lock_dimensions self) v
    (char_px_h self).
Definition set_char_px_h (self : ASCIIVideoPlayer) (v : Z)
  : ASCIIVideoPlayer :=
  mkPlayer (is_playing self) (is_paused self) (current_frame self)
    (total_frames self) (video_fps self) (playback_speed self)
    (buffer_size self) (frame_buffer self) (stop_event self) (cap self)
    (media_path self) (static_image self) (is_image self) (ascii_width self)
    (ascii_height self) (show_ui self) (show_performance self)
    (quality_mode self) (hq_video self) (lock_dimensions self)
    (char_px_w self) v.

(** ** core.py: geometry after loading *)

(** The frame dimensions [(height, width)] of the loaded media as
    [_handle_resize], [set_quality_mode] and [set_lock_1440p] look them
    up: the still image when there is one, else the opened capture. *)
Definition loaded_shape (self : ASCIIVideoPlayer) : option (Z * Z) :=
  match is_image self, static_image self with
  | true, Some image => Some (frame_height image, frame_width image)
  | _, _ =>
      match cap self with
      | Some c =>
          if isOpened c then
            Some (Py.int (CAP_PROP_FRAME_HEIGHT c),
                  Py.int (CAP_PROP_FRAME_WIDTH c))
          else None
      | None => None
      end
  end.

(** [_handle_resize], lines 215-240. When the planner raises, the
    exception leaves the callback before the assignment of line 223 or
    231 and is swallowed by the resize monitor; the logging and the user
    callback are not modelled. *)
Definition _handle_resize (self : ASCIIVideoPlayer)
    (old_size new_size : Z * Z) : ASCIIVideoPlayer :=
  if lock_dimensions self then self
  else
    match loaded_shape self with
    | Some shape =>
        match get_optimal_dimensions (fst new_size) (snd new_size) shape
                (quality_mode self) with
        | Some (w, h) => set_ascii_height (set_ascii_width self w) h
        | None => self
        end
    | None => self
    end.

(** [set_quality_mode], lines 602-620. The boolean tells whether the
    call returned ([true]) or the planner raised ([false]), in which case
    the mode is assigned and the geometry is not. *)
Definition set_quality_mode (world : World) (self : ASCIIVideoPlayer)
    (quality_mode : string) : bool * ASCIIVideoPlayer :=
  let self := with_quality_mode self quality_mode in
  match loaded_shape self with
  | Some shape =>
      let '(terminal_width, terminal_height) := get_terminal_size world in
      match get_optimal_dimensions terminal_width terminal_height shape
              quality_mode with
      | Some (w, h) => (true, set_ascii_height (set_ascii_width self w) h)
      | None => (false, self)
      end
  | None => (true, self)
  end.

(** [set_lock_1440p], lines 268-286. An argument that is [None] or zero
    is falsy and leaves the character size as it is; what the
    recomputation raises is swallowed on line 285. *)
Definition set_lock_1440p (world : World) (self : ASCIIVideoPlayer)
    (enabled : bool) (char_px_w char_px_h : option Z) : ASCIIVideoPlayer :=
  let self := set_lock_dimensions self enabled in
  let self :=
    match char_px_w with
    | Some w =>
        if w =? 0 then self
        else set_char_px_w self (Py.max 4 (Py.min 32 w))
    | None => self
    end in
  let self :=
    match char_px_h with
    | Some h =>
        if h =? 0 then self
        else set_char_px_h self (Py.max 8 (Py.min 64 h))
    | None => self
    end in
  if enabled then
    match loaded_shape self with
    | Some shape =>
        match _compute_1440p_ascii_size world self shape with
        | Some (w, h) => set_ascii_height (set_ascii_width self w) h
        | None => self
        end
    | None => self
    end
  else self.

(** The calls that set the output geometry, each in the world it is made
    in; the last one is the override of [main], lines 261-264 of main.py,
    applied after a load. *)
Inductive GeometryCall :=
| Load (world : World) (media_path : string)
| Resize (old_size new_size : Z * Z)
| Quality (world : World) (quality_mode : string)
| Lock (world : World) (enabled : bool) (char_px_w char_px_h : option Z)
| Override (width height : Z).

Definition geometry_call (self : ASCIIVideoPlayer) (c : GeometryCall)
  : ASCIIVideoPlayer :=
  match c with
  | Load world media_path => snd (load_media world self media_path)
  | Resize old_size new_size => _handle_resize self old_size new_size
  | Quality world quality_mode =>
      snd (set_quality_mode world self quality_mode)
  | Lock world enabled w h => set_lock_1440p world self enabled w h
  | Override width height =>
      let self := if 0 <? width then set_ascii_width self width else self in
      if 0 <? height then set_ascii_height self height else self
  end.

(** ** core.py: starting playback *)

(** Lines 478-485 of [play]: is there media to play? *)
Definition media_loaded (self : ASCIIVideoPlayer) : bool :=
  if is_image self then
    match static_image self with Some _ => true | None => false end
  else
    match cap self with Some c => isOpened c | None => false end.

(** [play], lines 462-518. [trace] is what the two threads and the
    input loop do until [_handle_input] returns or raises, and [failed]
    tells whether an exception other than [KeyboardInterrupt] left the
    [try] block; [stop] runs in the [finally] clause. Performance
    monitoring and the terminal are not modelled. *)
Definition play (self : ASCIIVideoPlayer)
    (show_ui show_performance fullscreen : bool)
    (trace : list Event) (failed : bool) : bool * ASCIIVideoPlayer :=
  if negb (media_loaded self) then (false, self)
  else
    let self := set_show_ui self (show_ui && negb fullscreen) in
    let self := set_show_performance self show_performance in
    let self := set_is_playing self true in
    let self := set_is_paused self false in
    let self := set_stop_event self false in
    let st := run (BufStart, self) trace in
    (negb failed, stop (snd st)).

(** ** core.py: what the display thread takes and how it paces *)

(** The pairs [(frame_num, frame)] that line 339 of [_display_frames]
    takes out of the buffer along a trace, in the order taken. *)
Fixpoint displayed (st : BufferPC * ASCIIVideoPlayer) (trace : list Event)
  : list (Z * Frame) :=
  match trace with
  | [] => []
  | e :: trace' =>
      match e, get (frame_buffer (snd st)) with
      | Displaying, Some (item, _) => item :: displayed (step st e) trace'
      | _, _ => displayed (step st e) trace'
      end
  end.

(** The frames of a capture with their positions. *)
Definition numbered (frames : list Frame) : list (Z * Frame) :=
  combine (map Z.of_nat (seq 0 (List.length frames))) frames.

(** Line 330 of [_display_frames]. *)
Definition target_frame_delay (video_fps current_speed : Q) : option Q :=
  Py.div 1 (video_fps * current_speed).

(** Lines 377-388 of [_display_frames]: how long the display thread
    sleeps after a frame, from the delay it aims at and three clock
    readings. *)
Definition sleep_time (target_frame_delay frame_start_time current_time
    last_display_time : Q) : Q :=
  let processing_time := (current_time - frame_start_time)%Q in
  let sleep_time := Py.maxf 0 (target_frame_delay - processing_time) in
  let time_since_last_frame := (current_time - last_display_time)%Q in
  if Qlt_le_dec time_since_last_frame target_frame_delay then
    let additional_sleep :=
      (target_frame_delay - time_since_last_frame)%Q in
    Py.maxf sleep_time additional_sleep
  else sleep_time.

(** ** utils.py: the performance monitor *)

(** [PerformanceStats]. *)
Record PerformanceStats := mkStats {
  fps : Q;
  frame_time : Q;
  cpu_usage : Q;
  memory_usage : Q;
  frames_processed : Z;
  dropped_frames : Z
}.

(** The attributes of [PerformanceMonitor] that recording and the
    recommendations read or write. *)
Record PerformanceMonitor := mkMonitor {
  update_interval : Q;
  stats : PerformanceStats;
  last_update : Q;
  frame_times : list Q;
  max_frame_history : Z;
  cpu_percent : Q
}.

(** [PerformanceMonitor.__init__], lines 164-178, at the time [now]. *)
Definition new_monitor (update_interval now : Q) : PerformanceMonitor :=
  {| update_interval := update_interval;
     stats := mkStats 0 0 0 0 0 0;
     last_update := now;
     frame_times := [];
     max_frame_history := 60;
     cpu_percent := 0 |}.

(** [sum(l)] and [l.pop(0)]. *)
Definition sumf (l : list Q) : Q := fold_left Qplus l 0%Q.
Definition pop0 {A} (l : list A) : list A := tl l.

(** [record_frame], lines 208-235; [current_time] is what [time.time()]
    returns on line 215. *)
Definition record_frame (self : PerformanceMonitor)
    (current_time frame_start_time : Q) : PerformanceMonitor :=
  let frame_time := (current_time - frame_start_time)%Q in
  let frame_times := frame_times self ++ [frame_time] in
  let frame_times :=
    if max_frame_history self <? Z.of_nat (List.length frame_times)
    then pop0 frame_times else frame_times in
  let fps :=
    if 1 <? Z.of_nat (List.length frame_times) then
      let avg_frame_time :=
        (sumf frame_times / inject_Z (Z.of_nat (List.length frame_times)))%Q in
      if Qlt_le_dec 0 avg_frame_time then (1 / avg_frame_time)%Q else 0%Q
    else fps (stats self) in
  let due :=
    Qle_bool (update_interval self) (current_time - last_update self) in
  {| update_interval := update_interval self;
     stats :=
       {| fps := fps;
          frame_time := frame_time;
          cpu_usage :=
            if due then cpu_percent self else cpu_usage (stats self);
          memory_usage := memory_usage (stats self);
          frames_processed := frames_processed (stats self) + 1;
          dropped_frames := dropped_frames (stats self) |};
     last_update := if due then current_time else last_update self;
     frame_times := frame_times;
     max_frame_history := max_frame_history self;
     cpu_percent := cpu_percent self |}.

(** [should_drop_frame], lines 257-271. *)
Definition should_drop_frame (self : PerformanceMonitor) (target_fps : Q)
  : bool :=
  if Qle_bool target_fps 0 || (Z.of_nat (List.length (frame_times self)) <? 5)
  then false
  else
    let current_fps := fps (stats self) in
    if Qlt_le_dec current_fps (target_fps * (8 # 10)) then true else false.

(** The dictionary [get_adaptive_quality_settings] returns, by key. *)
Record QualitySettings := mkSettings {
  settings_use_threading : bool;
  settings_enhance_contrast : bool;
  settings_max_workers : Z
}.

(** [get_adaptive_quality_settings], lines 273-298. *)
Definition get_adaptive_quality_settings (self : PerformanceMonitor)
  : QualitySettings :=
  let settings := mkSettings true true 4 in
  let settings :=
    if Qlt_le_dec (fps (stats self)) 15 then
      mkSettings false false (settings_max_workers settings)
    else if Qlt_le_dec (fps (stats self)) 25 then
      mkSettings (settings_use_threading settings)
        (settings_enhance_contrast settings) 2
    else settings in
  if Qlt_le_dec 80 (cpu_usage (stats self)) then
    mkSettings (settings_use_threading settings) false
      (Py.max 1 (settings_max_workers settings - 1))
  else settings.

(** The frame times handed to a monitor, as [(current_time,
    frame_start_time)] per call of [record_frame]. *)
Definition record_all (self : PerformanceMonitor) (calls : list (Q * Q))
  : PerformanceMonitor :=
  fold_left (fun m c => record_frame m (fst c) (snd c)) calls self.

(** ** utils.py: colours and the progress bar *)

(** Text of the user interface as a list of code points. *)
Definition codes (s : string) : list Z :=
  map (fun c => Z.of_N (N_of_ascii c)) (list_ascii_of_string s).

Definition ESC : Z := 27.
Definition FULL_BLOCK : Z := 9608.
Definition LIGHT_SHADE : Z := 9617.

(** [ColorManager.COLORS], lines 305-322. *)
Definition COLORS : list (string * list Z) :=
  [("reset", ESC :: codes "[0m"); ("bold", ESC :: codes "[1m");
   ("dim", ESC :: codes "[2m"); ("red", ESC :: codes "[31m");
   ("green", ESC :: codes "[32m"); ("yellow", ESC :: codes "[33m");
   ("blue", ESC :: codes "[34m"); ("magenta", ESC :: codes "[35m");
   ("cyan", ESC :: codes "[36m"); ("white", ESC :: codes "[37m");
   ("bright_red", ESC :: codes "[91m");
   ("bright_green", ESC :: codes "[92m");
   ("bright_yellow", ESC :: codes "[93m");
   ("bright_blue", ESC :: codes "[94m");
   ("bright_magenta", ESC :: codes "[95m");
   ("bright_cyan", ESC :: codes "[96m")]%string.

(** [COLORS.get(color, '')]. *)
Fixpoint colors_get (table : list (string * list Z)) (color : string)
  : list Z :=
  match table with
  | [] => []
  | (name, code) :: rest =>
      if String.eqb name color then code else colors_get rest color
  end.

(** [colorize], lines 324-330; [windows] is [os.name == 'nt']. *)
Definition colorize (windows : bool) (text : list Z) (color : string)
  : list Z :=
  if windows then text
  else colors_get COLORS color ++ text ++ colors_get COLORS "reset".

(** [s * n] on a one-character string: empty when [n] is not
    positive. *)
Definition times (c : Z) (n : Z) : list Z := repeat c (Z.to_nat n).

(** [progress_bar], lines 332-345; [progress] is a Python float. *)
Definition progress_bar (windows : bool) (progress : Q) (width : Z)
  : list Z :=
  let filled := Py.int (Py.fmul progress (Py.float (inject_Z width))) in
  let bar := times FULL_BLOCK filled ++ times LIGHT_SHADE (width - filled) in
  let color :=
    if Qlt_le_dec progress (Py.float (3 # 10)) then "red"%string
    else if Qlt_le_dec progress (Py.float (7 # 10)) then "yellow"%string
    else "green"%string in
  colorize windows bar color.

(** ** Notions used to state properties *)

(** Every channel of a pixel lies between [lo] and [hi]. *)
Definition channels_within (lo hi : Q) (p : BGR) : Prop :=
  let '(b, g, r) := p in
  (lo <= b /\ b <= hi)%Q /\ (lo <= g /\ g <= hi)%Q /\ (lo <= r /\ r <= hi)%Q.

(** Events that neither reposition the capture nor drain the buffer:
    everything but a seek and the keys [r] (restart) and [q] (stop). *)
Definition undisturbed (e : Event) : bool :=
  match e with
  | Buffering _ | Displaying => true
  | KeyPressed key => negb (Ascii.eqb key "r" || Ascii.eqb key "q")
  | Seek _ => false
  end.

(** Both sides of the output geometry are at least one cell. *)
Definition geometry_ok (self : ASCIIVideoPlayer) : Prop :=
  1 <= ascii_width self /\ 1 <= ascii_height self.

(** The attributes that loading has no business with are the same in two
    players. *)
Definition same_controls (a b : ASCIIVideoPlayer) : Prop :=
  is_playing a = is_playing b /\ is_paused a = is_paused b /\
  playback_speed a = playback_speed b /\ buffer_size a = buffer_size b /\
  frame_buffer a = frame_buffer b /\ stop_event a = stop_event b /\
  show_ui a = show_ui b /\ show_performance a = show_performance b /\
  quality_mode a = quality_mode b /\ hq_video a = hq_video b /\
  lock_dimensions a = lock_dimensions b /\
  char_px_w a = char_px_w b /\ char_px_h a = char_px_h b.

(** A world in which "clip.mp4" opens as a video of five black frames of
    four by four pixels at 30 frames per second. *)
Definition clip_world : World :=
  mkWorld (fun _ => true) (fun _ => ".mp4"%string) posix_str
          (fun _ => None)
          (fun _ => mkCapture true 5 30 4 4 (repeat black_4x4 5) 0)
          (80, 24).

(** The buffering thread is about to [put] only when there is room: a
    video frame after the test of line 303 found the buffer below
    [buffer_size], the still image after line 292 found it empty. *)
Definition put_ready (st : BufferPC * ASCIIVideoPlayer) : Prop :=
  maxsize (frame_buffer (snd st)) = buffer_size (snd st) /\
  match fst st with
  | BufPut _ => qsize (frame_buffer (snd st)) < buffer_size (snd st)
  | BufImagePut _ => qsize (frame_buffer (snd st)) = 0
  | _ => True
  end.

(** A video session in which the frames displayed so far ([log]) and the
    frames waiting in the buffer are, in this order, the first
    [current_frame] frames of the file with their positions, and the
    capture stands at [current_frame], or one further while the thread
    holds the frame it has just read. *)
Definition in_order (frames : list Frame) (log : list (Z * Frame))
    (st : BufferPC * ASCIIVideoPlayer) : Prop :=
  let self := snd st in
  is_image self = false /\
  0 <= current_frame self /\
  log ++ items (frame_buffer self)
  = firstn (Z.to_nat (current_frame self)) (numbered frames) /\
  exists c,
    cap self = Some c /\ cap_frames c = frames /\
    match fst st with
    | BufPut frame =>
        nth_error frames (Z.to_nat (current_frame self)) = Some frame /\
        CAP_PROP_POS_FRAMES c = S (Z.to_nat (current_frame self))
    | BufImagePut _ => False
    | _ => CAP_PROP_POS_FRAMES c = Z.to_nat (current_frame self)
    end.

(** A still-image session: either the image has not been put yet and
    nothing is displayed or buffered, or the thread is past its one
    [put] and at most one frame has been displayed or waits in the
    buffer. *)
Definition shown_once (log : list (Z * Frame))
    (st : BufferPC * ASCIIVideoPlayer) : Prop :=
  is_image (snd st) = true /\
  match fst st with
  | BufStart | BufImagePut _ =>
      log = [] /\ items (frame_buffer (snd st)) = []
  | BufImageIdle | BufDone =>
      (List.length log + List.length (items (frame_buffer (snd st))) <= 1)%nat
  | BufLoop | BufPut _ => False
  end.
(** * Properties *)

(** Case analysis on every test of a conditional in the goal. *)
Ltac case_ifs :=
  repeat match goal with
         | |- context [if ?b then _ else _] => destruct b
         end.

(** ** Rounding to the nearest integer *)

Lemma floor_bounds (x : Q) :
  (inject_Z (Qfloor x) <= x)%Q /\ (x < inject_Z (Qfloor x) + 1)%Q.
Proof.
  split; [apply Qfloor_le|].
  assert (H := Qlt_floor x). rewrite inject_Z_plus in H. exact H.
Qed.

Lemma rne_spec (x : Q) :
  (Float.rne x = Qfloor x /\ (x - inject_Z (Qfloor x) <= 1 # 2)%Q) \/
  (Float.rne x = Qfloor x + 1 /\ (1 # 2 <= x - inject_Z (Qfloor x))%Q).
Proof.
  unfold Float.rne.
  destruct (Qcompare_spec (x - inject_Z (Qfloor x)) (1 # 2)) as [E | L | G].
  - destruct (Z.even (Qfloor x)); [left | right]; split; try reflexivity;
      rewrite E; apply Qle_refl.
  - left. split; [reflexivity | now apply Qlt_le_weak].
  - right. split; [reflexivity | now apply Qlt_le_weak].
Qed.

Lemma rne_comp (x y : Q) : (x == y)%Q -> Float.rne x = Float.rne y.
Proof.
  intros E. unfold Float.rne. rewrite (Qfloor_comp _ _ E).
  assert (E' : (x - inject_Z (Qfloor y) == y - inject_Z (Qfloor y))%Q)
    by (rewrite E; reflexivity).
  now rewrite (Qcompare_comp _ _ E' _ _ (Qeq_refl _)).
Qed.

Lemma rne_monotone (x y : Q) : (x <= y)%Q -> Float.rne x <= Float.rne y.
Proof.
  intros L.
  assert (F := Qfloor_resp_le _ _ L).
  destruct (floor_bounds x) as [X1 X2], (floor_bounds y) as [Y1 Y2].
  destruct (Z.eq_dec (Qfloor x) (Qfloor y)) as [E | N].
  - unfold Float.rne. rewrite <- E.
    destruct (Qcompare_spec (x - inject_Z (Qfloor x)) (1 # 2)) as [Ex | Lx | Gx];
    destruct (Qcompare_spec (y - inject_Z (Qfloor x)) (1 # 2)) as [Ey | Ly | Gy];
      try destruct (Z.even (Qfloor x)); try lia; exfalso; lra.
  - destruct (rne_spec x) as [[-> _] | [-> _]], (rne_spec y) as [[-> _] | [-> _]];
      lia.
Qed.

Lemma rne_Z (z : Z) : Float.rne (inject_Z z) = z.
Proof.
  unfold Float.rne. rewrite Qfloor_Z.
  destruct (Qcompare_spec (inject_Z z - inject_Z z) (1 # 2)) as [E | L | G];
    try reflexivity; exfalso; lra.
Qed.

Lemma rne_error (x : Q) :
  (x - (1 # 2) <= inject_Z (Float.rne x))%Q /\ (inject_Z (Float.rne x) <= x + (1 # 2))%Q.
Proof.
  destruct (floor_bounds x) as [X1 X2].
  destruct (rne_spec x) as [[-> H] | [-> H]]; rewrite ?inject_Z_plus;
    change (inject_Z 1) with 1%Q; split; lra.
Qed.

(** ** Powers of two *)

Lemma two_nonzero : ~ (2 == 0)%Q.
Proof. discriminate. Qed.

Lemma pow2_pos (k : Z) : (0 < 2 ^ k)%Q.
Proof. apply Qpower_0_lt. reflexivity. Qed.

Lemma pow2_nonzero (k : Z) : ~ (2 ^ k == 0)%Q.
Proof. intros E. assert (P := pow2_pos k). rewrite E in P. now apply Qlt_irrefl in P. Qed.

Lemma pow2_plus (a b : Z) : (2 ^ (a + b) == 2 ^ a * 2 ^ b)%Q.
Proof. apply Qpower_plus, two_nonzero. Qed.

Lemma pow2_minus (a b : Z) : (2 ^ (a - b) == 2 ^ a / 2 ^ b)%Q.
Proof. apply Qpower_minus, two_nonzero. Qed.

Lemma pow2_succ (a : Z) : (2 ^ (a + 1) == 2 * 2 ^ a)%Q.
Proof. rewrite pow2_plus. change (2 ^ 1)%Q with 2%Q. ring. Qed.

Lemma pow2_le (a b : Z) : a <= b -> (2 ^ a <= 2 ^ b)%Q.
Proof. intros H. apply Qpower_le_compat_l; [exact H | discriminate]. Qed.

Lemma pow2_lt_inv (a b : Z) : (2 ^ a < 2 ^ b)%Q -> a < b.
Proof. intros H. apply (Qpower_lt_compat_l_inv 2); [exact H | reflexivity]. Qed.

Lemma pow2_inject (k : Z) : 0 <= k -> (inject_Z (2 ^ k) == 2 ^ k)%Q.
Proof. intros H. now rewrite Zpower_Qpower. Qed.

(** ** The position of the leading bit *)

Lemma ilog2_spec (x : Q) :
  (0 < x)%Q -> (2 ^ Float.ilog2 x <= x)%Q /\ (x < 2 ^ (Float.ilog2 x + 1))%Q.
Proof.
  intros Hx. unfold Float.ilog2.
  destruct x as [n d].
  assert (Hn : 0 < n) by (unfold Qlt in Hx; simpl in Hx; lia).
  cbn [Qnum Qden].
  set (a := Z.log2 n). set (b := Z.log2 (Z.pos d)).
  destruct (Z.log2_spec n Hn) as [A1 A2]. fold a in A1, A2.
  destruct (Z.log2_spec (Z.pos d) ltac:(lia)) as [B1 B2]. fold b in B1, B2.
  assert (Ha : 0 <= a) by apply Z.log2_nonneg.
  assert (Hb : 0 <= b) by apply Z.log2_nonneg.
  rewrite Zle_Qle, pow2_inject in A1 by lia.
  rewrite Zlt_Qlt, pow2_inject in A2 by lia.
  rewrite Zle_Qle, pow2_inject in B1 by lia.
  rewrite Zlt_Qlt, pow2_inject in B2 by lia.
  replace (Z.succ a) with (a + 1) in A2 by lia.
  replace (Z.succ b) with (b + 1) in B2 by lia.
  rewrite pow2_succ in A2, B2.
  assert (PA := pow2_pos a). assert (PB := pow2_pos b).
  assert (Ex : (n # d == inject_Z n / inject_Z (Z.pos d))%Q)
    by apply Qmake_Qdiv.
  assert (PD : (0 < inject_Z (Z.pos d))%Q).
  { change 0%Q with (inject_Z 0). rewrite <- Zlt_Qlt. lia. }
  assert (U : (n # d < 2 ^ (a - b + 1))%Q).
  { rewrite Ex. replace (a - b + 1) with ((a + 1) - b) by lia.
    rewrite pow2_minus, pow2_succ.
    apply Qlt_shift_div_r; [exact PD|].
    apply Qlt_le_trans with (2 * 2 ^ a / 2 ^ b * 2 ^ b)%Q.
    - field_simplify (2 * 2 ^ a / 2 ^ b * 2 ^ b)%Q; [lra|].
      apply pow2_nonzero.
    - apply Qmult_le_l; [|exact B1].
      apply Qlt_shift_div_l; [exact PB | lra]. }
  destruct (Qle_bool (2 ^ (a - b)) (n # d)) eqn:C.
  - apply Qle_bool_iff in C. split; assumption.
  - assert (C' : (n # d < 2 ^ (a - b))%Q).
    { apply Qnot_le_lt. intros H. apply Qle_bool_iff in H. congruence. }
    split.
    + rewrite Ex. replace (a - b - 1) with (a - (b + 1)) by lia.
      rewrite pow2_minus, pow2_succ.
      apply Qle_shift_div_l; [exact PD|].
      apply Qle_trans with (2 ^ a / (2 * 2 ^ b) * (2 * 2 ^ b))%Q.
      * apply Qmult_le_l; [|lra].
        apply Qlt_shift_div_l; lra.
      * field_simplify (2 ^ a / (2 * 2 ^ b) * (2 * 2 ^ b))%Q; [lra|].
        apply pow2_nonzero.
    + replace (a - b - 1 + 1) with (a - b) by lia. exact C'.
Qed.

Lemma ilog2_unique (x : Q) (k : Z) :
  (2 ^ k <= x)%Q -> (x < 2 ^ (k + 1))%Q -> Float.ilog2 x = k.
Proof.
  intros L U.
  assert (Hx : (0 < x)%Q) by (apply Qlt_le_trans with (2 ^ k)%Q; [apply pow2_pos | exact L]).
  destruct (ilog2_spec x Hx) as [L' U'].
  assert (Float.ilog2 x < k + 1).
  { apply pow2_lt_inv. now apply Qle_lt_trans with x. }
  assert (k < Float.ilog2 x + 1).
  { apply pow2_lt_inv. now apply Qle_lt_trans with x. }
  lia.
Qed.

Lemma ilog2_comp (x y : Q) : (0 < x)%Q -> (x == y)%Q -> Float.ilog2 x = Float.ilog2 y.
Proof.
  intros Hx E. symmetry.
  destruct (ilog2_spec x Hx) as [L U].
  apply ilog2_unique; now rewrite <- E.
Qed.

Lemma ilog2_monotone (x y : Q) :
  (0 < x)%Q -> (x <= y)%Q -> Float.ilog2 x <= Float.ilog2 y.
Proof.
  intros Hx L.
  assert (Hy : (0 < y)%Q) by now apply Qlt_le_trans with x.
  destruct (ilog2_spec x Hx) as [Lx Ux], (ilog2_spec y Hy) as [Ly Uy].
  assert (Float.ilog2 x < Float.ilog2 y + 1); [|lia].
  apply pow2_lt_inv. apply Qle_lt_trans with x; [exact Lx|].
  now apply Qle_lt_trans with y.
Qed.

Lemma ilog2_scale (x : Q) (k : Z) :
  (0 < x)%Q -> Float.ilog2 (x * 2 ^ k) = Float.ilog2 x + k.
Proof.
  intros Hx. destruct (ilog2_spec x Hx) as [L U].
  assert (P := pow2_pos k).
  apply ilog2_unique.
  - rewrite pow2_plus. apply Qmult_le_compat_r; [exact L | lra].
  - replace (Float.ilog2 x + k + 1) with (Float.ilog2 x + 1 + k) by lia.
    rewrite pow2_plus. apply Qmult_lt_compat_r; assumption.
Qed.

(** ** Rounding a positive rational *)

Lemma mantissa_bounds (p : Z) (x : Q) :
  (0 < x)%Q ->
  let e := Float.ilog2 x - (p - 1) in
  (2 ^ (p - 1) <= x / 2 ^ e)%Q /\ (x / 2 ^ e < 2 ^ p)%Q.
Proof.
  intros Hx e. destruct (ilog2_spec x Hx) as [L U].
  assert (P := pow2_pos e).
  split.
  - apply Qle_shift_div_l; [exact P|].
    rewrite <- pow2_plus. replace (p - 1 + e) with (Float.ilog2 x) by (unfold e; lia).
    exact L.
  - apply Qlt_shift_div_r; [exact P|].
    rewrite <- pow2_plus. replace (p + e) with (Float.ilog2 x + 1) by (unfold e; lia).
    exact U.
Qed.

Lemma mantissa_range (p : Z) (x : Q) :
  1 <= p -> (0 < x)%Q ->
  2 ^ (p - 1) <= Float.rne (x / 2 ^ (Float.ilog2 x - (p - 1))) <= 2 ^ p.
Proof.
  intros Hp Hx. destruct (mantissa_bounds p x Hx) as [L U].
  split.
  - rewrite <- (rne_Z (2 ^ (p - 1))). apply rne_monotone.
    rewrite pow2_inject by lia. exact L.
  - rewrite <- (rne_Z (2 ^ p)). apply rne_monotone.
    rewrite pow2_inject by lia. now apply Qlt_le_weak.
Qed.

Lemma round_pos_positive (p : Z) (x : Q) :
  1 <= p -> (0 < x)%Q -> (0 < Float.round_pos p x)%Q.
Proof.
  intros Hp Hx. unfold Float.round_pos.
  destruct (mantissa_range p x Hp Hx) as [L _].
  assert (0 < 2 ^ (p - 1)) by (apply Z.pow_pos_nonneg; lia).
  apply Qmult_lt_0_compat; [|apply pow2_pos].
  change 0%Q with (inject_Z 0). rewrite <- Zlt_Qlt. lia.
Qed.

Lemma round_pos_comp (p : Z) (x y : Q) :
  (0 < x)%Q -> (x == y)%Q -> (Float.round_pos p x == Float.round_pos p y)%Q.
Proof.
  intros Hx E. unfold Float.round_pos. rewrite <- (ilog2_comp x y Hx E).
  rewrite (rne_comp (x / _) (y / 2 ^ (Float.ilog2 x - (p - 1)))); [reflexivity|].
  apply Qmult_comp; [exact E | reflexivity].
Qed.

Lemma round_pos_monotone (p : Z) (x y : Q) :
  1 <= p -> (0 < x)%Q -> (x <= y)%Q -> (Float.round_pos p x <= Float.round_pos p y)%Q.
Proof.
  intros Hp Hx L.
  assert (Hy : (0 < y)%Q) by now apply Qlt_le_trans with x.
  assert (M := ilog2_monotone x y Hx L).
  destruct (mantissa_range p x Hp Hx) as [_ Ux].
  destruct (mantissa_range p y Hp Hy) as [Ly _].
  unfold Float.round_pos.
  set (ex := Float.ilog2 x - (p - 1)) in *. set (ey := Float.ilog2 y - (p - 1)) in *.
  destruct (Z.eq_dec ex ey) as [E | N].
  - rewrite <- E. apply Qmult_le_compat_r; [|apply Qlt_le_weak, pow2_pos].
    rewrite <- Zle_Qle. apply rne_monotone.
    apply Qmult_le_compat_r; [exact L|].
    apply Qlt_le_weak, Qinv_lt_0_compat, pow2_pos.
  - apply Qle_trans with (inject_Z (2 ^ p) * 2 ^ ex)%Q.
    + apply Qmult_le_compat_r; [|apply Qlt_le_weak, pow2_pos].
      now rewrite <- Zle_Qle.
    + apply Qle_trans with (inject_Z (2 ^ (p - 1)) * 2 ^ ey)%Q.
      * rewrite !pow2_inject by lia. rewrite <- !pow2_plus.
        apply pow2_le. unfold ex, ey in *. lia.
      * apply Qmult_le_compat_r; [|apply Qlt_le_weak, pow2_pos].
        now rewrite <- Zle_Qle.
Qed.

Lemma round_pos_exact_lt (p : Z) (x : Q) (m e : Z) :
  1 <= p -> 0 < m < 2 ^ p -> (x == inject_Z m * 2 ^ e)%Q ->
  (Float.round_pos p x == x)%Q.
Proof.
  intros Hp Hm E.
  assert (Pe := pow2_pos e).
  assert (Hx : (0 < x)%Q).
  { rewrite E. apply Qmult_lt_0_compat; [|exact Pe].
    change 0%Q with (inject_Z 0). rewrite <- Zlt_Qlt. lia. }
  destruct (ilog2_spec x Hx) as [L U].
  assert (B : Float.ilog2 x < p + e).
  { apply pow2_lt_inv. apply Qle_lt_trans with x; [exact L|].
    rewrite E, pow2_plus. apply Qmult_lt_compat_r; [exact Pe|].
    rewrite <- pow2_inject by lia. rewrite <- Zlt_Qlt. lia. }
  unfold Float.round_pos. set (ex := Float.ilog2 x - (p - 1)).
  assert (D : (x / 2 ^ ex == inject_Z (m * 2 ^ (e - ex)))%Q).
  { rewrite inject_Z_mult, pow2_inject by (unfold ex; lia).
    rewrite E, pow2_minus. field.
    apply pow2_nonzero. }
  rewrite (rne_comp _ _ D), rne_Z.
  rewrite inject_Z_mult, pow2_inject by (unfold ex; lia).
  rewrite E, pow2_minus. field.
  apply pow2_nonzero.
Qed.

Lemma round_pos_exact (p : Z) (x : Q) (m e : Z) :
  1 <= p -> 0 < m <= 2 ^ p -> (x == inject_Z m * 2 ^ e)%Q ->
  (Float.round_pos p x == x)%Q.
Proof.
  intros Hp Hm E.
  destruct (Z.eq_dec m (2 ^ p)) as [-> | N].
  - apply (round_pos_exact_lt p x 1 (p + e)); [exact Hp | |].
    + split; [lia|]. apply Z.pow_gt_1; lia.
    + rewrite E, pow2_inject, pow2_plus by lia.
      change (inject_Z 1) with 1%Q. ring.
  - apply (round_pos_exact_lt p x m e); [exact Hp | lia | exact E].
Qed.

Lemma round_pos_error (p : Z) (x : Q) :
  (0 < x)%Q ->
  (x * (1 - 2 ^ (- p)) <= Float.round_pos p x)%Q /\
  (Float.round_pos p x <= x * (1 + 2 ^ (- p)))%Q.
Proof.
  intros Hx. destruct (mantissa_bounds p x Hx) as [L _].
  unfold Float.round_pos. set (e := Float.ilog2 x - (p - 1)) in *.
  assert (Pe := pow2_pos e). assert (Pp := pow2_pos (- p)).
  destruct (rne_error (x / 2 ^ e)) as [R1 R2].
  set (r := inject_Z (Float.rne (x / 2 ^ e))) in *.
  assert (X : (x == x / 2 ^ e * 2 ^ e)%Q).
  { field. apply pow2_nonzero. }
  assert (H : (2 ^ e * (1 # 2) <= x * 2 ^ (- p))%Q).
  { apply Qle_trans with (2 ^ (p - 1) * 2 ^ e * 2 ^ (- p))%Q.
    - rewrite <- !pow2_plus. replace (p - 1 + e + - p) with (e + - 1) by lia.
      rewrite pow2_plus. change (2 ^ (-1))%Q with (1 # 2)%Q. apply Qle_refl.
    - apply Qmult_le_compat_r; [|lra].
      apply Qle_trans with (x / 2 ^ e * 2 ^ e)%Q;
        [apply Qmult_le_compat_r; [exact L | lra] | rewrite <- X; apply Qle_refl]. }
  assert (A1 : ((x / 2 ^ e - (1 # 2)) * 2 ^ e <= r * 2 ^ e)%Q)
    by (apply Qmult_le_compat_r; lra).
  assert (A2 : (r * 2 ^ e <= (x / 2 ^ e + (1 # 2)) * 2 ^ e)%Q)
    by (apply Qmult_le_compat_r; lra).
  assert (Y1 : ((x / 2 ^ e - (1 # 2)) * 2 ^ e == x - 2 ^ e * (1 # 2))%Q).
  { field. apply pow2_nonzero. }
  assert (Y2 : ((x / 2 ^ e + (1 # 2)) * 2 ^ e == x + 2 ^ e * (1 # 2))%Q).
  { field. apply pow2_nonzero. }
  rewrite Y1 in A1. rewrite Y2 in A2.
  split; lra.
Qed.

Lemma round_pos_scale (p : Z) (x : Q) (k : Z) :
  (0 < x)%Q -> (Float.round_pos p (x * 2 ^ k) == Float.round_pos p x * 2 ^ k)%Q.
Proof.
  intros Hx. unfold Float.round_pos. rewrite (ilog2_scale x k Hx).
  set (e := Float.ilog2 x - (p - 1)).
  replace (Float.ilog2 x + k - (p - 1)) with (e + k) by (unfold e; lia).
  assert (Pe := pow2_pos e). assert (Pk := pow2_pos k).
  rewrite (rne_comp (x * 2 ^ k / 2 ^ (e + k)) (x / 2 ^ e)).
  - rewrite pow2_plus. ring.
  - rewrite pow2_plus. field.
    split; apply pow2_nonzero.
Qed.

(** ** Rounding to a binary format *)

Lemma round_unfold (p : Z) (x : Q) :
  (Float.round p x == match (x ?= 0)%Q with
                | Eq => 0
                | Gt => Float.round_pos p x
                | Lt => - Float.round_pos p (- x)
                end)%Q.
Proof. unfold Float.round. apply Qred_correct. Qed.

Lemma round_zero (p : Z) (x : Q) : (x == 0)%Q -> (Float.round p x == 0)%Q.
Proof.
  intros E. rewrite round_unfold.
  destruct (Qcompare_spec x 0) as [_ | L | G]; [reflexivity | exfalso; lra..].
Qed.

Lemma round_of_pos (p : Z) (x : Q) :
  (0 < x)%Q -> (Float.round p x == Float.round_pos p x)%Q.
Proof.
  intros H. rewrite round_unfold.
  destruct (Qcompare_spec x 0) as [E | L | G]; [exfalso; lra.. | reflexivity].
Qed.

Lemma round_of_neg (p : Z) (x : Q) :
  (x < 0)%Q -> (Float.round p x == - Float.round_pos p (- x))%Q.
Proof.
  intros H. rewrite round_unfold.
  destruct (Qcompare_spec x 0) as [E | L | G];
    [exfalso; lra | reflexivity | exfalso; lra].
Qed.

Lemma round_comp (p : Z) (x y : Q) : (x == y)%Q -> Float.round p x = Float.round p y.
Proof.
  intros E. unfold Float.round. apply Qred_complete.
  rewrite (Qcompare_comp _ _ E _ _ (Qeq_refl 0)).
  destruct (Qcompare_spec y 0) as [_ | L | G].
  - reflexivity.
  - apply Qopp_comp. apply round_pos_comp; [rewrite E; lra | now rewrite E].
  - apply round_pos_comp; [rewrite E; lra | exact E].
Qed.

Lemma round_opp (p : Z) (x : Q) : (Float.round p (- x) == - Float.round p x)%Q.
Proof.
  destruct (Q_dec x 0) as [[L | G] | E].
  - rewrite (round_of_neg p x L), (round_of_pos p (- x)) by lra. ring.
  - rewrite (round_of_pos p x G), (round_of_neg p (- x)) by lra.
    rewrite (round_pos_comp p (- - x) x); [reflexivity | lra | ring].
  - rewrite (round_zero p x E), (round_zero p (- x)) by lra. reflexivity.
Qed.

Lemma round_nonneg (p : Z) (x : Q) :
  1 <= p -> (0 <= x)%Q -> (0 <= Float.round p x)%Q.
Proof.
  intros Hp H. destruct (Qle_lt_or_eq _ _ H) as [L | E].
  - rewrite (round_of_pos p x L). now apply Qlt_le_weak, round_pos_positive.
  - rewrite (round_zero p x) by (symmetry; exact E). apply Qle_refl.
Qed.

Lemma round_positive (p : Z) (x : Q) :
  1 <= p -> (0 < x)%Q -> (0 < Float.round p x)%Q.
Proof.
  intros Hp H. rewrite (round_of_pos p x H). now apply round_pos_positive.
Qed.

Lemma round_nonpos (p : Z) (x : Q) :
  1 <= p -> (x <= 0)%Q -> (Float.round p x <= 0)%Q.
Proof.
  intros Hp H.
  assert (N := round_nonneg p (- x) Hp ltac:(lra)).
  rewrite round_opp in N. lra.
Qed.

(** Rounding never reorders two values. *)
Lemma round_monotone (p : Z) (x y : Q) :
  1 <= p -> (x <= y)%Q -> (Float.round p x <= Float.round p y)%Q.
Proof.
  intros Hp L.
  destruct (Qlt_le_dec 0 x) as [Px | Nx].
  - rewrite (round_of_pos p x Px), (round_of_pos p y) by lra.
    now apply round_pos_monotone.
  - destruct (Qlt_le_dec y 0) as [Ny | Py].
    + assert (M : (Float.round p (- y) <= Float.round p (- x))%Q).
      { rewrite (round_of_pos p (- y)), (round_of_pos p (- x)) by lra.
        apply round_pos_monotone; [exact Hp | lra | lra]. }
      rewrite !round_opp in M. lra.
    + apply Qle_trans with 0%Q;
        [now apply round_nonpos | now apply round_nonneg].
Qed.

(** A value with a mantissa of at most [p] bits is not changed. *)
Lemma round_exact (p : Z) (x : Q) (m e : Z) :
  1 <= p -> Z.abs m <= 2 ^ p -> (x == inject_Z m * 2 ^ e)%Q ->
  (Float.round p x == x)%Q.
Proof.
  intros Hp Hm E. assert (Pe := pow2_pos e).
  destruct (Z.lt_trichotomy m 0) as [N | [Z | P]].
  - assert (Hx : (x < 0)%Q).
    { rewrite E. setoid_replace 0%Q with (0 * 2 ^ e)%Q by ring.
      apply Qmult_lt_compat_r; [exact Pe|].
      change 0%Q with (inject_Z 0). rewrite <- Zlt_Qlt. exact N. }
    rewrite (round_of_neg p x Hx).
    rewrite (round_pos_exact p (- x) (- m) e); [ring | exact Hp | lia |].
    rewrite E, inject_Z_opp. ring.
  - subst m.
    assert (Z : (x == 0)%Q) by (rewrite E; change (inject_Z 0) with 0%Q; ring).
    rewrite (round_zero p x Z). symmetry. exact Z.
  - assert (Hx : (0 < x)%Q).
    { rewrite E. apply Qmult_lt_0_compat; [|exact Pe].
      change 0%Q with (inject_Z 0). rewrite <- Zlt_Qlt. exact P. }
    rewrite (round_of_pos p x Hx).
    apply (round_pos_exact p x m e); [exact Hp | lia | exact E].
Qed.

Lemma round_Z (p : Z) (z : Z) :
  1 <= p -> Z.abs z <= 2 ^ p -> (Float.round p (inject_Z z) == inject_Z z)%Q.
Proof.
  intros Hp Hz. apply (round_exact p _ z 0); [exact Hp | exact Hz|].
  change (2 ^ 0)%Q with 1%Q. ring.
Qed.

(** What rounding returns has a mantissa of at most [p] bits. *)
Lemma round_representable (p : Z) (x : Q) :
  1 <= p -> exists m e, Z.abs m <= 2 ^ p /\ (Float.round p x == inject_Z m * 2 ^ e)%Q.
Proof.
  intros Hp. destruct (Q_dec x 0) as [[L | G] | E].
  - assert (H : (0 < - x)%Q) by lra.
    destruct (mantissa_range p (- x) Hp H) as [M1 M2].
    assert (0 < 2 ^ (p - 1)) by (apply Z.pow_pos_nonneg; lia).
    eexists (- _), _. split; [|rewrite (round_of_neg p x L); unfold Float.round_pos;
                                rewrite inject_Z_opp; ring].
    lia.
  - destruct (mantissa_range p x Hp G) as [M1 M2].
    assert (0 < 2 ^ (p - 1)) by (apply Z.pow_pos_nonneg; lia).
    eexists _, _. split; [|rewrite (round_of_pos p x G); unfold Float.round_pos;
                           reflexivity].
    lia.
  - exists 0, 0. split; [simpl; apply Z.pow_nonneg; lia|].
    rewrite (round_zero p x E). ring.
Qed.

Lemma round_idempotent (p : Z) (x : Q) :
  1 <= p -> (Float.round p (Float.round p x) == Float.round p x)%Q.
Proof.
  intros Hp. destruct (round_representable p x Hp) as [m [e [Hm E]]].
  exact (round_exact p (Float.round p x) m e Hp Hm E).
Qed.

(** Scaling by a power of two commutes with rounding. *)
Lemma round_scale (p : Z) (x : Q) (k : Z) :
  (Float.round p (x * 2 ^ k) == Float.round p x * 2 ^ k)%Q.
Proof.
  assert (Pk := pow2_pos k).
  destruct (Q_dec x 0) as [[L | G] | E].
  - assert (H : (x * 2 ^ k < 0)%Q).
    { setoid_replace 0%Q with (0 * 2 ^ k)%Q by ring.
      now apply Qmult_lt_compat_r. }
    rewrite (round_of_neg p _ H), (round_of_neg p x L).
    rewrite (round_pos_comp p (- (x * 2 ^ k)) (- x * 2 ^ k)); [|lra | ring].
    rewrite round_pos_scale by lra. ring.
  - assert (H : (0 < x * 2 ^ k)%Q) by now apply Qmult_lt_0_compat.
    rewrite (round_of_pos p _ H), (round_of_pos p x G).
    now apply round_pos_scale.
  - rewrite (round_zero p x E), (round_zero p (x * 2 ^ k)); [ring|].
    rewrite E. ring.
Qed.

(** The relative error of rounding is at most [2^-p]. *)
Lemma round_error (p : Z) (x : Q) :
  (0 <= x)%Q ->
  (x * (1 - 2 ^ (- p)) <= Float.round p x)%Q /\
  (Float.round p x <= x * (1 + 2 ^ (- p)))%Q.
Proof.
  intros H. destruct (Qle_lt_or_eq _ _ H) as [L | E].
  - rewrite (round_of_pos p x L). now apply round_pos_error.
  - rewrite (round_zero p x) by (symmetry; exact E). rewrite <- E.
    split; ring_simplify; apply Qle_refl.
Qed.
(** ** Truncation and clipping *)

Lemma int_nonneg (x : Q) : (0 <= x)%Q -> Py.int x = Qfloor x.
Proof.
  destruct x as [n d]; unfold Qle, Py.int, Qfloor; simpl; intros H.
  rewrite Z.quot_div_nonneg; lia.
Qed.

Lemma int_opp (x : Q) : Py.int (- x) = - Py.int x.
Proof.
  destruct x as [n d]; unfold Py.int; simpl.
  apply Z.quot_opp_l; lia.
Qed.

Lemma int_nonpos (x : Q) : (x <= 0)%Q -> Py.int x <= 0.
Proof.
  intros H.
  assert (H' : (0 <= - x)%Q).
  { apply (Qopp_le_compat x 0) in H. exact H. }
  assert (E := int_opp x). rewrite (int_nonneg _ H') in E.
  assert (0 <= Qfloor (- x)).
  { change 0 with (Qfloor 0). now apply Qfloor_resp_le. }
  lia.
Qed.

Lemma int_monotone (x y : Q) : (x <= y)%Q -> Py.int x <= Py.int y.
Proof.
  intros Hxy.
  destruct (Qlt_le_dec x 0) as [Hx | Hx], (Qlt_le_dec y 0) as [Hy | Hy].
  - assert (Hx' : (0 <= - x)%Q).
    { apply Qlt_le_weak in Hx. apply (Qopp_le_compat x 0) in Hx. exact Hx. }
    assert (Hy' : (0 <= - y)%Q).
    { apply Qlt_le_weak in Hy. apply (Qopp_le_compat y 0) in Hy. exact Hy. }
    assert (Ex := int_opp x). assert (Ey := int_opp y).
    rewrite int_nonneg in Ex, Ey by assumption.
    assert (Qfloor (- y) <= Qfloor (- x)).
    { apply Qfloor_resp_le. now apply Qopp_le_compat. }
    lia.
  - rewrite (int_nonneg y Hy).
    assert (Py.int x <= 0) by (apply int_nonpos; now apply Qlt_le_weak).
    assert (0 <= Qfloor y).
    { change 0 with (Qfloor 0). now apply Qfloor_resp_le. }
    lia.
  - exfalso. apply (Qlt_irrefl 0).
    apply Qle_lt_trans with y; [|exact Hy].
    now apply Qle_trans with x.
  - rewrite !int_nonneg by assumption. now apply Qfloor_resp_le.
Qed.

(** Truncating a non-negative quotient of integers is integer division. *)
Lemma int_quotient (x : Q) (n d : Z) :
  0 <= n -> 0 < d -> (x == inject_Z n / inject_Z d)%Q -> Py.int x = n / d.
Proof.
  intros Hn Hd E.
  assert (Hx : (0 <= x)%Q).
  { rewrite E. apply Qle_shift_div_l.
    - change 0%Q with (inject_Z 0). rewrite <- Zlt_Qlt. exact Hd.
    - rewrite Qmult_0_l. change 0%Q with (inject_Z 0). now rewrite <- Zle_Qle. }
  rewrite (int_nonneg _ Hx), E. symmetry. apply Zdiv_Qdiv.
Qed.

(** ** Floating-point operations of Python and NumPy *)

Lemma precision_bounds (t : FloatType) : 24 <= precision t <= 53.
Proof. destruct t; simpl; lia. Qed.

Lemma fl_comp (t : FloatType) (x y : Q) : (x == y)%Q -> fl t x = fl t y.
Proof. apply round_comp. Qed.

Lemma fl_monotone (t : FloatType) (x y : Q) :
  (x <= y)%Q -> (fl t x <= fl t y)%Q.
Proof.
  apply round_monotone. destruct (precision_bounds t). lia.
Qed.

Lemma fl_nonneg (t : FloatType) (x : Q) : (0 <= x)%Q -> (0 <= fl t x)%Q.
Proof.
  apply round_nonneg. destruct (precision_bounds t). lia.
Qed.

Lemma fl_nonpos (t : FloatType) (x : Q) : (x <= 0)%Q -> (fl t x <= 0)%Q.
Proof.
  apply round_nonpos. destruct (precision_bounds t). lia.
Qed.

(** Integers of at most 24 bits are values of both types. *)
Lemma fl_Z (t : FloatType) (z : Z) :
  Z.abs z <= 2 ^ 24 -> (fl t (inject_Z z) == inject_Z z)%Q.
Proof.
  intros H. destruct (precision_bounds t) as [P1 P2].
  apply round_Z; [lia|].
  apply Z.le_trans with (2 ^ 24); [exact H|].
  apply Z.pow_le_mono_r; lia.
Qed.

Lemma fl_exact (t : FloatType) (x : Q) (m e : Z) :
  Z.abs m <= 2 ^ 24 -> (x == inject_Z m * 2 ^ e)%Q -> (fl t x == x)%Q.
Proof.
  intros H E. destruct (precision_bounds t) as [P1 P2].
  apply (round_exact _ x m e); [lia | | exact E].
  apply Z.le_trans with (2 ^ 24); [exact H|].
  apply Z.pow_le_mono_r; lia.
Qed.

Lemma fl_idempotent (t : FloatType) (x : Q) : (fl t (fl t x) == fl t x)%Q.
Proof.
  apply round_idempotent. destruct (precision_bounds t). lia.
Qed.

(** Halving and doubling are exact. *)
Lemma fl_half (t : FloatType) (x : Q) : (fl t (fl t x / 2) == fl t x / 2)%Q.
Proof.
  assert (I := fl_idempotent t x). unfold fl in *.
  set (r := Float.round (precision t) x) in *.
  rewrite (round_comp _ (r / 2) (r * 2 ^ (-1))) by reflexivity.
  rewrite round_scale, I. reflexivity.
Qed.

Lemma fl_double (t : FloatType) (x : Q) : (fl t (x * 2) == fl t x * 2)%Q.
Proof. exact (round_scale (precision t) x 1). Qed.

Lemma float_comp (x y : Q) : (x == y)%Q -> Py.float x = Py.float y.
Proof. apply round_comp. Qed.

Lemma float_monotone (x y : Q) : (x <= y)%Q -> (Py.float x <= Py.float y)%Q.
Proof. apply round_monotone. lia. Qed.

Lemma float_nonneg (x : Q) : (0 <= x)%Q -> (0 <= Py.float x)%Q.
Proof. apply round_nonneg. lia. Qed.

Lemma float_positive (x : Q) : (0 < x)%Q -> (0 < Py.float x)%Q.
Proof. apply round_positive. lia. Qed.

(** Integers of at most 53 bits are values of a Python float. *)
Lemma float_Z (z : Z) :
  Z.abs z <= 2 ^ 53 -> (Py.float (inject_Z z) == inject_Z z)%Q.
Proof. apply round_Z. lia. Qed.

Lemma float_exact (x : Q) (m e : Z) :
  Z.abs m <= 2 ^ 53 -> (x == inject_Z m * 2 ^ e)%Q -> (Py.float x == x)%Q.
Proof. apply round_exact. lia. Qed.

Lemma float_idempotent (x : Q) : (Py.float (Py.float x) == Py.float x)%Q.
Proof. apply round_idempotent. lia. Qed.

Lemma float_half (x : Q) :
  (Py.fmul (Py.float x) (1 # 2) == Py.float x * (1 # 2))%Q.
Proof.
  assert (I := float_idempotent x). unfold Py.fmul, Py.float in *.
  set (r := Float.round 53 x) in *.
  rewrite (round_comp _ (r * (1 # 2)) (r * 2 ^ (-1))) by reflexivity.
  rewrite round_scale, I. reflexivity.
Qed.

Lemma float_double (x : Q) :
  (Py.float (Py.float x / (1 # 2)) == Py.float x * 2)%Q.
Proof.
  assert (I := float_idempotent x). unfold Py.float in *.
  set (r := Float.round 53 x) in *.
  rewrite (round_comp _ (r / (1 # 2)) (r * 2 ^ 1))
    by (change (2 ^ 1)%Q with 2%Q; field).
  rewrite round_scale, I. reflexivity.
Qed.

(** The relative error of an operation on Python floats is at most
    [2^-53]. *)
Lemma float_error (x : Q) :
  (0 <= x)%Q ->
  (x * (1 - (1 # 9007199254740992)) <= Py.float x)%Q /\
  (Py.float x <= x * (1 + (1 # 9007199254740992)))%Q.
Proof. exact (round_error 53 x). Qed.

Lemma truediv_some (a b : Q) :
  ~ (b == 0)%Q -> Py.truediv a b = Some (Py.float (a / b)).
Proof.
  intros Hb. unfold Py.truediv.
  destruct (Qeq_bool b 0) eqn:E; [|reflexivity].
  apply Qeq_bool_iff in E. contradiction.
Qed.

Lemma truediv_none (a b : Q) : (b == 0)%Q -> Py.truediv a b = None.
Proof.
  intros Hb. unfold Py.truediv.
  destruct (Qeq_bool b 0) eqn:E; [reflexivity|].
  apply Qeq_bool_neq in E. contradiction.
Qed.

(** Within the range of [int32] the cast is the truncation. *)
Lemma astype_int32_nonneg (x : Q) :
  (0 <= x)%Q -> (x < inject_Z (2 ^ 31))%Q -> astype_int32 x = Qfloor x.
Proof.
  intros H0 H1. unfold astype_int32. rewrite (int_nonneg x H0).
  assert (L : 0 <= Qfloor x).
  { change 0 with (Qfloor 0). now apply Qfloor_resp_le. }
  assert (U : Qfloor x < 2 ^ 31).
  { rewrite Zlt_Qlt. apply Qle_lt_trans with x; [apply Qfloor_le | exact H1]. }
  destruct (Z.leb_spec (- 2 ^ 31) (Qfloor x)); [|lia].
  destruct (Z.ltb_spec (Qfloor x) (2 ^ 31)); [reflexivity | lia].
Qed.

Lemma astype_int32_nonpos (x : Q) : (x <= 0)%Q -> astype_int32 x <= 0.
Proof.
  intros H. unfold astype_int32. assert (N := int_nonpos x H).
  destruct (_ && _); lia.
Qed.

Lemma astype_int32_monotone (x y : Q) :
  (- inject_Z (2 ^ 31) - 1 < x)%Q -> (y < inject_Z (2 ^ 31))%Q ->
  (x <= y)%Q -> astype_int32 x <= astype_int32 y.
Proof.
  intros Hx Hy L. unfold astype_int32.
  assert (M := int_monotone x y L).
  assert (Lx : - 2 ^ 31 <= Py.int x).
  { destruct (Qlt_le_dec x 0) as [N | P].
    - assert (E := int_opp x).
      rewrite (int_nonneg (- x)) in E by lra.
      assert (Qfloor (- x) <= 2 ^ 31); [|lia].
      assert (Qfloor (- x) < 2 ^ 31 + 1); [|lia].
      rewrite Zlt_Qlt. apply Qle_lt_trans with (- x)%Q; [apply Qfloor_le|].
      rewrite inject_Z_plus. change (inject_Z 1) with 1%Q. lra.
    - rewrite (int_nonneg x P).
      assert (0 <= Qfloor x); [|lia].
      change 0 with (Qfloor 0). now apply Qfloor_resp_le. }
  assert (Uy : Py.int y < 2 ^ 31).
  { destruct (Qlt_le_dec y 0) as [N | P].
    - assert (Py.int y <= 0) by (apply int_nonpos; lra). lia.
    - rewrite (int_nonneg y P). rewrite Zlt_Qlt.
      apply Qle_lt_trans with y; [apply Qfloor_le | exact Hy]. }
  destruct (Z.leb_spec (- 2 ^ 31) (Py.int x)); [|lia].
  destruct (Z.ltb_spec (Py.int x) (2 ^ 31)); [|lia].
  destruct (Z.leb_spec (- 2 ^ 31) (Py.int y)); [|lia].
  destruct (Z.ltb_spec (Py.int y) (2 ^ 31)); [|lia].
  simpl. exact M.
Qed.

(** ** The character mapper *)

(** The number of steps of the palette is a value of the array's
    type. *)
Lemma steps_exact {glyph} (dt : FloatType) (self : ASCIIConverter glyph)
    (v : Q) :
  1 <= char_count self <= 2 ^ 24 ->
  fl dt (v * fl dt (inject_Z (char_count self - 1)))
  = fl dt (v * inject_Z (char_count self - 1)).
Proof.
  intros Hn. apply fl_comp. rewrite fl_Z by lia. reflexivity.
Qed.

Lemma index_in_range {glyph} (dt : FloatType) (self : ASCIIConverter glyph)
    (v : Q) :
  1 <= char_count self <= 2 ^ 24 -> (0 <= v)%Q -> (v <= 1)%Q ->
  let index := Qfloor (fl dt (v * inject_Z (char_count self - 1))) in
  char_index dt self v = index /\ 0 <= index <= char_count self - 1.
Proof.
  intros Hn H0 H1 index.
  assert (Hm : (0 <= inject_Z (char_count self - 1))%Q).
  { change 0%Q with (inject_Z 0). rewrite <- Zle_Qle. lia. }
  assert (Hp : (0 <= v * inject_Z (char_count self - 1))%Q)
    by now apply Qmult_le_0_compat.
  assert (Hs := fl_nonneg dt _ Hp).
  assert (Hu : (fl dt (v * inject_Z (char_count self - 1))
                <= inject_Z (char_count self - 1))%Q).
  { rewrite <- (fl_Z dt (char_count self - 1)) at 2 by lia.
    apply fl_monotone.
    apply Qle_trans with (1 * inject_Z (char_count self - 1))%Q;
      [now apply Qmult_le_compat_r|].
    rewrite Qmult_1_l. apply Qle_refl. }
  assert (Hlo : 0 <= index).
  { unfold index. change 0 with (Qfloor 0). now apply Qfloor_resp_le. }
  assert (Hhi : index <= char_count self - 1).
  { unfold index.
    apply Z.le_trans with (Qfloor (inject_Z (char_count self - 1)));
      [now apply Qfloor_resp_le | rewrite Qfloor_Z; lia]. }
  split; [|lia].
  unfold char_index. cbv zeta. rewrite (steps_exact dt self v Hn).
  rewrite astype_int32_nonneg; [fold index; unfold Py.clip; lia | exact Hs|].
  apply Qle_lt_trans with (inject_Z (char_count self - 1)); [exact Hu|].
  rewrite <- Zlt_Qlt. lia.
Qed.

Lemma take_in_range {A} (a : list A) (i : Z) :
  0 <= i < Z.of_nat (List.length a) ->
  exists c, nth_error a (Z.to_nat i) = Some c /\ Py.take a i = Some c.
Proof.
  intros Hi. unfold Py.take.
  destruct (0 <=? i) eqn:E1; [|lia].
  destruct (i <? Z.of_nat (List.length a)) eqn:E2; [|lia].
  simpl.
  destruct (nth_error a (Z.to_nat i)) as [c|] eqn:E.
  - now exists c.
  - apply nth_error_None in E. lia.
Qed.

(** C1, as the code has it: for a brightness [v] in [[0, 1]] of an array
    of floating-point type and a palette of 2 to [2^24] characters, the
    mapper emits [palette[index]] where [index] is the floating-point
    product [v * (len(palette) - 1)], as rounded in the type of the
    array, truncated to an integer (not rounded to the nearest one);
    [index] lies in [[0, len(palette) - 1]]. *)
Theorem char_index_truncates {glyph} (dt : FloatType)
    (self : ASCIIConverter glyph) (v : Q) :
  2 <= char_count self <= 2 ^ 24 -> (0 <= v)%Q -> (v <= 1)%Q ->
  let index := Qfloor (fl dt (v * inject_Z (char_count self - 1))) in
  0 <= index <= char_count self - 1 /\
  char_index dt self v = index /\
  exists c,
    nth_error (ascii_chars self) (Z.to_nat index) = Some c /\
    convert_frame_chunk dt self [[v]] 0 = Some [[c]].
Proof.
  intros Hn H0 H1 index.
  destruct (index_in_range dt self v ltac:(lia) H0 H1) as [E R].
  fold index in E, R. split; [exact R|]. split; [exact E|].
  destruct (take_in_range (ascii_chars self) index) as [c [Hc Ht]].
  { unfold char_count in R. lia. }
  exists c. split; [exact Hc|].
  unfold convert_frame_chunk, convert_row. simpl. rewrite E, Ht. reflexivity.
Qed.

(** The scenario of C1 on the ten-character palette: 0.5 is mapped to
    the character at index 4. *)
Lemma char_index_truncates_witness :
  0 <= 4 <= 9 /\
  char_index float64 minimal_converter (1 # 2) = 4 /\
  exists c,
    nth_error MINIMAL 4 = Some c /\
    convert_frame_chunk float64 minimal_converter [[1 # 2]] 0 = Some [[c]].
Proof.
  apply (char_index_truncates float64 minimal_converter (1 # 2)).
  - vm_compute. split; discriminate.
  - vm_compute. discriminate.
  - vm_compute. discriminate.
Defined.

(** The three values of the scenario map to the characters at indices
    0, 4 and 9 of the ten-character palette, in either type. *)
Example minimal_scenario (dt : FloatType) :
  map (char_index dt minimal_converter) [0; 1 # 2; 1]%Q = [0; 4; 9] /\
  convert_frame_chunk dt minimal_converter [[0; 1 # 2; 1]%Q] 0
  = Some [[" "; "="; "@"]%char].
Proof. destruct dt; split; vm_compute; reflexivity. Qed.

(** What is truncated is the rounded product: the [float64] nearest to
    one third times 9 is 3.0, so that value is mapped to index 3, while
    the exact product is below 3. *)
Example third_maps_to_3 :
  let v := (6004799503160661 # 18014398509481984)%Q in
  Py.float (1 # 3) = v /\
  char_index float64 minimal_converter v = 3 /\
  Qfloor (v * 9) = 2.
Proof. repeat split; vm_compute; reflexivity. Qed.

(** The detailed palette has its seventy characters. *)
Example detailed_palette_length : List.length DETAILED = 70%nat.
Proof. reflexivity. Qed.

(** C1 as worded fails: at brightness 0.75 the mapper emits the character
    at index 6 of the ten-character palette, while the only integer
    nearest to 0.75 * 9 = 6.75 is 7. *)
Lemma char_index_not_rounded :
  char_index float64 minimal_converter (3 # 4) = 6 /\
  convert_frame_chunk float64 minimal_converter [[3 # 4]] 0
  = Some [["*"%char]] /\
  ~ is_rounded_index (char_count minimal_converter) (3 # 4)
      (char_index float64 minimal_converter (3 # 4)).
Proof.
  assert (E : char_index float64 minimal_converter (3 # 4) = 6)
    by (vm_compute; reflexivity).
  split; [exact E|]. split; [vm_compute; reflexivity|].
  intros [r [Hr Hk]].
  apply Qabs_Qle_condition in Hr. destruct Hr as [Hlo Hhi].
  unfold Qle in Hlo, Hhi. unfold Qminus, Qplus, Qmult, Qopp in Hlo, Hhi.
  simpl in Hlo, Hhi.
  rewrite E in Hk.
  change (char_count minimal_converter - 1) with 9 in Hk.
  unfold Py.clip in Hk. lia.
Qed.

(** ** The dimension planner *)

Lemma div_some (a b : Q) : ~ (b == 0)%Q -> Py.div a b = Some (a / b)%Q.
Proof.
  intros Hb. unfold Py.div.
  destruct (Qeq_bool b 0) eqn:E; [|reflexivity].
  apply Qeq_bool_iff in E. contradiction.
Qed.

Lemma inject_Z_nonzero (z : Z) : z <> 0 -> ~ (inject_Z z == 0)%Q.
Proof.
  intros Hz E. unfold Qeq in E. simpl in E. lia.
Qed.

Lemma aspect_nonzero (w h : Z) :
  0 < w -> 0 < h -> ~ (inject_Z w / inject_Z h == 0)%Q.
Proof.
  intros Hw Hh E.
  assert (P : (0 < inject_Z w / inject_Z h)%Q).
  { apply Qlt_shift_div_l.
    - change 0%Q with (inject_Z 0). now rewrite <- Zlt_Qlt.
    - rewrite Qmult_0_l. change 0%Q with (inject_Z 0). now rewrite <- Zlt_Qlt. }
  rewrite E in P. now apply Qlt_irrefl in P.
Qed.





Lemma max_spec (a b : Z) : Py.max a b = Z.max a b.
Proof. unfold Py.max. destruct (Z.ltb_spec a b); lia. Qed.

Lemma min_spec (a b : Z) : Py.min a b = Z.min a b.
Proof. unfold Py.min. destruct (Z.ltb_spec b a); lia. Qed.




(** C2, the code at the scenario's input: a 1920x1080 frame in a 120x40
    terminal with quality "standard" is planned 135 columns wide, more
    than the 118 columns the terminal leaves. The test on line 477
    compares the terminal's ratio with [frame_aspect * char_aspect] while
    lines 480 and 484 scale by [frame_aspect / char_aspect], so the
    height-limited branch is taken although the width is what limits. *)
Theorem planner_1080p_standard_overflows :
  get_optimal_dimensions 120 40 (1080, 1920) "standard" = Some (135, 38) /\
  ~ 135 <= 118.
Proof. split; [reflexivity | lia]. Qed.

(** ** The geometry resizer *)

Lemma Qmult_le_nonneg_l (q x y : Q) :
  (0 <= q)%Q -> (x <= y)%Q -> (q * x <= q * y)%Q.
Proof.
  intros Hq H. rewrite !(Qmult_comm q). now apply Qmult_le_compat_r.
Qed.

(** A value whose relative distance to a quotient of integers is at most
    [3 * 2^-53] truncates to the integer quotient, or to one less when
    the division is exact. *)
Lemma floor_near (N D : Z) (y : Q) :
  0 <= N < 2 ^ 50 -> 0 < D ->
  (inject_Z N * (1 - (3 # 9007199254740992)) <= y * inject_Z D)%Q ->
  (y * inject_Z D <= inject_Z N * (1 + (3 # 9007199254740992)))%Q ->
  N / D - 1 <= Qfloor y <= N / D /\ (N mod D <> 0 -> Qfloor y = N / D).
Proof.
  intros HN HD L U.
  assert (M := Z.mod_pos_bound N D HD).
  assert (E := Z.div_mod N D ltac:(lia)).
  set (f := N / D) in *. set (r := N mod D) in *.
  assert (En : (inject_Z N == inject_Z D * inject_Z f + inject_Z r)%Q).
  { rewrite <- inject_Z_mult, <- inject_Z_plus. now rewrite <- E. }
  assert (Hn0 : (0 <= inject_Z N)%Q).
  { change 0%Q with (inject_Z 0). rewrite <- Zle_Qle. lia. }
  assert (Hn1 : (inject_Z N < 1125899906842624)%Q).
  { change 1125899906842624%Q with (inject_Z (2 ^ 50)).
    rewrite <- Zlt_Qlt. lia. }
  assert (Hd : (1 <= inject_Z D)%Q).
  { change 1%Q with (inject_Z 1). rewrite <- Zle_Qle. lia. }
  assert (Hr0 : (0 <= inject_Z r)%Q).
  { change 0%Q with (inject_Z 0). rewrite <- Zle_Qle. lia. }
  assert (Hr1 : (inject_Z r + 1 <= inject_Z D)%Q).
  { change 1%Q with (inject_Z 1). rewrite <- inject_Z_plus.
    rewrite <- Zle_Qle. lia. }
  assert (Up : (y < inject_Z (f + 1))%Q).
  { rewrite inject_Z_plus. change (inject_Z 1) with 1%Q.
    apply (Qmult_lt_r _ _ (inject_Z D)); lra. }
  assert (Lo : (inject_Z (f - 1) < y)%Q).
  { unfold Z.sub. rewrite inject_Z_plus. change (inject_Z (- (1))) with (- (1))%Q.
    apply (Qmult_lt_r _ _ (inject_Z D)); lra. }
  assert (F1 : Qfloor y <= f).
  { assert (Qfloor y < f + 1); [|lia].
    rewrite Zlt_Qlt. apply Qle_lt_trans with y; [apply Qfloor_le | exact Up]. }
  assert (F2 : f - 1 <= Qfloor y).
  { rewrite <- (Qfloor_Z (f - 1)). apply Qfloor_resp_le.
    now apply Qlt_le_weak. }
  split; [lia|].
  intros Hr. assert (f <= Qfloor y); [|lia].
  rewrite <- (Qfloor_Z f). apply Qfloor_resp_le.
  assert (Hr2 : (1 <= inject_Z r)%Q).
  { change 1%Q with (inject_Z 1). rewrite <- Zle_Qle. lia. }
  apply Qlt_le_weak. apply (Qmult_lt_r _ _ (inject_Z D)); lra.
Qed.

(** The aspect ratio of line 219 is within one rounding of
    [fw / fh]. *)
Lemma aspect_ratio_near (fw fh : Z) :
  1 <= fw -> 1 <= fh ->
  let a := Py.float (inject_Z fw / inject_Z fh) in
  (0 < a)%Q /\
  (inject_Z fw * (1 - (1 # 9007199254740992)) <= a * inject_Z fh)%Q /\
  (a * inject_Z fh <= inject_Z fw * (1 + (1 # 9007199254740992)))%Q.
Proof.
  intros Hw Hh a.
  assert (Pw : (0 < inject_Z fw)%Q).
  { change 0%Q with (inject_Z 0). rewrite <- Zlt_Qlt. lia. }
  assert (Ph : (0 < inject_Z fh)%Q).
  { change 0%Q with (inject_Z 0). rewrite <- Zlt_Qlt. lia. }
  assert (Pr : (0 < inject_Z fw / inject_Z fh)%Q).
  { apply Qlt_shift_div_l; [exact Ph | lra]. }
  assert (Er : (inject_Z fw / inject_Z fh * inject_Z fh == inject_Z fw)%Q).
  { field. lra. }
  destruct (float_error _ (Qlt_le_weak _ _ Pr)) as [E1 E2]. fold a in E1, E2.
  split; [now apply float_positive|].
  set (r := (inject_Z fw / inject_Z fh)%Q) in *.
  assert (G1 : (r * (1 - (1 # 9007199254740992)) * inject_Z fh
                <= a * inject_Z fh)%Q)
    by (apply Qmult_le_compat_r; lra).
  assert (G2 : (a * inject_Z fh
                <= r * (1 + (1 # 9007199254740992)) * inject_Z fh)%Q)
    by (apply Qmult_le_compat_r; lra).
  split; lra.
Qed.

(** Line 223: the height that keeps the aspect ratio is the integer
    quotient [tw * fh / (2 * fw)], or one less when that division is
    exact and the rounded quotient falls below it. *)
Lemma adjusted_height_near (fw fh tw : Z) (a : Q) :
  1 <= fw <= 2 ^ 24 -> 1 <= fh <= 2 ^ 24 -> 1 <= tw <= 2 ^ 24 ->
  (0 < a)%Q ->
  (inject_Z fw * (1 - (1 # 9007199254740992)) <= a * inject_Z fh)%Q ->
  (a * inject_Z fh <= inject_Z fw * (1 + (1 # 9007199254740992)))%Q ->
  let q := Py.float (Py.float (inject_Z tw) / a) in
  let adjusted_height := Py.int (Py.fmul q (1 # 2)) in
  tw * fh / (2 * fw) - 1 <= adjusted_height <= tw * fh / (2 * fw) /\
  ((tw * fh) mod (2 * fw) <> 0 -> adjusted_height = tw * fh / (2 * fw)).
Proof.
  intros Hw Hh Ht Pa A1 A2 q adjusted_height.
  assert (Pw : (0 < inject_Z fw)%Q).
  { change 0%Q with (inject_Z 0). rewrite <- Zlt_Qlt. lia. }
  assert (Ph : (0 < inject_Z fh)%Q).
  { change 0%Q with (inject_Z 0). rewrite <- Zlt_Qlt. lia. }
  assert (Pt : (0 < inject_Z tw)%Q).
  { change 0%Q with (inject_Z 0). rewrite <- Zlt_Qlt. lia. }
  assert (Eq : q = Py.float (inject_Z tw / a)).
  { apply float_comp. rewrite float_Z; [reflexivity|]. lia. }
  assert (Pq : (0 < inject_Z tw / a)%Q).
  { apply Qlt_shift_div_l; [exact Pa | lra]. }
  destruct (float_error _ (Qlt_le_weak _ _ Pq)) as [E1 E2].
  rewrite <- Eq in E1, E2.
  assert (Q0 : (0 <= q)%Q).
  { rewrite Eq. apply float_nonneg. now apply Qlt_le_weak. }
  assert (Ea : (inject_Z tw / a * a == inject_Z tw)%Q) by (field; lra).
  set (s := (inject_Z tw / a)%Q) in *.
  assert (G1 : (s * (1 - (1 # 9007199254740992)) * a <= q * a)%Q)
    by (apply Qmult_le_compat_r; lra).
  assert (G2 : (q * a <= s * (1 + (1 # 9007199254740992)) * a)%Q)
    by (apply Qmult_le_compat_r; lra).
  assert (B1 : (inject_Z tw * (1 - (1 # 9007199254740992)) <= q * a)%Q)
    by lra.
  assert (B2 : (q * a <= inject_Z tw * (1 + (1 # 9007199254740992)))%Q)
    by lra.
  assert (C1 : (q * (inject_Z fw * (1 - (1 # 9007199254740992)))
                <= q * (a * inject_Z fh))%Q)
    by (apply Qmult_le_nonneg_l; assumption || lra).
  assert (C2 : (q * (a * inject_Z fh)
                <= q * (inject_Z fw * (1 + (1 # 9007199254740992))))%Q)
    by (apply Qmult_le_nonneg_l; assumption || lra).
  assert (D1 : (inject_Z tw * (1 - (1 # 9007199254740992)) * inject_Z fh
                <= q * a * inject_Z fh)%Q)
    by (apply Qmult_le_compat_r; lra).
  assert (D2 : (q * a * inject_Z fh
                <= inject_Z tw * (1 + (1 # 9007199254740992)) * inject_Z fh)%Q)
    by (apply Qmult_le_compat_r; lra).
  assert (Pm : (0 <= inject_Z tw * inject_Z fh)%Q)
    by (apply Qmult_le_0_compat; lra).
  assert (Y : (Py.fmul q (1 # 2) == q * (1 # 2))%Q).
  { rewrite Eq. apply float_half. }
  assert (Y0 : (0 <= Py.fmul q (1 # 2))%Q) by (rewrite Y; lra).
  unfold adjusted_height. rewrite (int_nonneg _ Y0).
  apply floor_near.
  - split; [nia|].
    apply Z.le_lt_trans with (2 ^ 24 * 2 ^ 24); [nia | reflexivity].
  - lia.
  - rewrite Y, !inject_Z_mult. change (inject_Z 2) with 2%Q. lra.
  - rewrite Y, !inject_Z_mult. change (inject_Z 2) with 2%Q. lra.
Qed.

(** Line 227: when the height is capped at [th] rows, the width is the
    integer quotient [2 * th * fw / fh], or one less when that division
    is exact. *)
Lemma capped_width_near (fw fh th : Z) (a : Q) :
  1 <= fw -> 1 <= fh -> 1 <= th -> 2 * th * fw < 2 ^ 50 ->
  (0 < a)%Q ->
  (inject_Z fw * (1 - (1 # 9007199254740992)) <= a * inject_Z fh)%Q ->
  (a * inject_Z fh <= inject_Z fw * (1 + (1 # 9007199254740992)))%Q ->
  let w := Py.float (Py.fmul (Py.float (inject_Z th)) a / (1 # 2)) in
  2 * th * fw / fh - 1 <= Py.int w <= 2 * th * fw / fh /\
  ((2 * th * fw) mod fh <> 0 -> Py.int w = 2 * th * fw / fh).
Proof.
  intros Hw Hh Ht Hb Pa A1 A2 w.
  assert (Pw : (0 < inject_Z fw)%Q).
  { change 0%Q with (inject_Z 0). rewrite <- Zlt_Qlt. lia. }
  assert (Ph : (0 < inject_Z fh)%Q).
  { change 0%Q with (inject_Z 0). rewrite <- Zlt_Qlt. lia. }
  assert (Pt : (0 < inject_Z th)%Q).
  { change 0%Q with (inject_Z 0). rewrite <- Zlt_Qlt. lia. }
  set (p := Py.fmul (Py.float (inject_Z th)) a) in *.
  assert (Ep : p = Py.float (inject_Z th * a)).
  { apply float_comp. rewrite float_Z; [reflexivity|]. nia. }
  assert (Pp : (0 < inject_Z th * a)%Q) by (apply Qmult_lt_0_compat; lra).
  destruct (float_error _ (Qlt_le_weak _ _ Pp)) as [E1 E2].
  rewrite <- Ep in E1, E2.
  assert (P0 : (0 <= p)%Q).
  { rewrite Ep. apply float_nonneg. now apply Qlt_le_weak. }
  assert (W : (w == p * 2)%Q).
  { unfold w. rewrite Ep. apply float_double. }
  assert (W0 : (0 <= w)%Q) by (rewrite W; lra).
  assert (C1 : (inject_Z th * (inject_Z fw * (1 - (1 # 9007199254740992)))
                <= inject_Z th * (a * inject_Z fh))%Q)
    by (apply Qmult_le_nonneg_l; assumption || lra).
  assert (C2 : (inject_Z th * (a * inject_Z fh)
                <= inject_Z th * (inject_Z fw * (1 + (1 # 9007199254740992))))%Q)
    by (apply Qmult_le_nonneg_l; assumption || lra).
  assert (D1 : (inject_Z th * a * (1 - (1 # 9007199254740992)) * inject_Z fh
                <= p * inject_Z fh)%Q)
    by (apply Qmult_le_compat_r; lra).
  assert (D2 : (p * inject_Z fh
                <= inject_Z th * a * (1 + (1 # 9007199254740992)) * inject_Z fh)%Q)
    by (apply Qmult_le_compat_r; lra).
  assert (Pm : (0 <= inject_Z th * inject_Z fw)%Q)
    by (apply Qmult_le_0_compat; lra).
  assert (Pn : (0 <= inject_Z th * (a * inject_Z fh))%Q).
  { apply Qmult_le_0_compat; [lra|]. apply Qmult_le_0_compat; lra. }
  rewrite (int_nonneg _ W0).
  apply floor_near.
  - split; [nia | exact Hb].
  - lia.
  - rewrite W, !inject_Z_mult. change (inject_Z 2) with 2%Q. lra.
  - rewrite W, !inject_Z_mult. change (inject_Z 2) with 2%Q. lra.
Qed.

(** Lines 217-227. Either the width asked for is kept and the height is
    the one that keeps the aspect ratio, or that height exceeds the rows
    asked for, the height is capped and the width is reduced. Each
    computed side is the integer quotient of the exact formula, or one
    less when that division is exact. *)
Lemma fitted_size_cases (fw fh tw th : Z) :
  1 <= fw <= 2 ^ 24 -> 1 <= fh <= 2 ^ 24 -> 1 <= tw <= 2 ^ 24 -> 1 <= th ->
  let fit_rows := tw * fh / (2 * fw) in
  let fit_cols := 2 * th * fw / fh in
  exists cols rows,
    fitted_size fw fh tw th = Some (cols, rows) /\
    ((cols = tw /\ rows <= th /\ fit_rows - 1 <= rows <= fit_rows /\
      ((tw * fh) mod (2 * fw) <> 0 -> rows = fit_rows))
     \/
     (rows = th /\ th < fit_rows /\ fit_cols - 1 <= cols <= fit_cols /\
      cols <= tw /\ ((2 * th * fw) mod fh <> 0 -> cols = fit_cols))).
Proof.
  intros Hw Hh Ht Hr fit_rows fit_cols. unfold fitted_size.
  rewrite truediv_some by (apply inject_Z_nonzero; lia). cbn [bind].
  destruct (aspect_ratio_near fw fh ltac:(lia) ltac:(lia)) as [Pa [A1 A2]].
  set (a := Py.float (inject_Z fw / inject_Z fh)) in *.
  assert (Na : ~ (a == 0)%Q) by (intros E; rewrite E in Pa; now apply Qlt_irrefl in Pa).
  rewrite (truediv_some _ a Na). cbn [bind].
  destruct (adjusted_height_near fw fh tw a Hw Hh Ht Pa A1 A2) as [R1 R2].
  cbv zeta in R1, R2. fold fit_rows in R1, R2.
  set (adj := Py.int (Py.fmul (Py.float (Py.float (inject_Z tw) / a)) (1 # 2)))
    in *.
  destruct (Z.ltb_spec th adj) as [Hlt | Hge].
  - rewrite truediv_some by discriminate. cbn [bind].
    assert (M : 2 * fw * fit_rows <= tw * fh)
      by (apply Z.mul_div_le; lia).
    assert (B : 2 * th * fw < 2 ^ 50).
    { apply Z.le_lt_trans with (2 ^ 24 * 2 ^ 24); [nia | reflexivity]. }
    destruct (capped_width_near fw fh th a ltac:(lia) ltac:(lia) Hr B Pa A1 A2)
      as [C1 C2].
    cbv zeta in C1, C2. fold fit_cols in C1, C2.
    eexists _, _. split; [reflexivity|]. right.
    assert (fit_cols <= tw).
    { apply Z.div_le_upper_bound; [lia | nia]. }
    repeat split; lia.
  - eexists _, _. split; [reflexivity|]. left.
    repeat split; lia.
Qed.

(** The rows of the resized frame never exceed the rows asked for. *)
Lemma fitted_rows_le (fw fh tw th cols rows : Z) :
  fitted_size fw fh tw th = Some (cols, rows) -> rows <= th.
Proof.
  unfold fitted_size, bind.
  destruct (Py.truediv (inject_Z fw) (inject_Z fh)); [|discriminate].
  destruct (Py.truediv (Py.float (inject_Z tw)) q); [|discriminate].
  destruct (Z.ltb_spec th (Py.int (Py.fmul q0 (1 # 2)))).
  - destruct (Py.truediv _ _); [|discriminate]. intros E; injection E; lia.
  - intros E; injection E; lia.
Qed.

Lemma cv2_resize_shape cv i f w h f' :
  cv2_resize cv i f (w, h) = Some f' ->
  frame_width f' = w /\ frame_height f' = h.
Proof.
  unfold cv2_resize, bind.
  destruct (resize_samples cv i f w h); [|discriminate].
  intros E; injection E as <-. now split.
Qed.

Lemma super_resolution_shape cv f w h f' :
  _super_resolution_resize cv f w h = Some f' ->
  frame_width f' = w /\ frame_height f' = h.
Proof.
  unfold _super_resolution_resize, bind.
  destruct (upscale_steps _ _ _ _ _); [|discriminate].
  destruct (apply_steps cv f l) as [g|]; [|discriminate].
  destruct (Z.eqb_spec (frame_width g) w), (Z.eqb_spec (frame_height g) h);
    simpl; intros E;
    try (now apply cv2_resize_shape in E).
  injection E as <-. now split.
Qed.

(** Whatever strategy is chosen, the frame that comes back has the
    fitted size. *)
Lemma resize_frame_smart_shape cv frame tw th f' :
  resize_frame_smart cv frame tw th = Some f' ->
  fitted_size (frame_width frame) (frame_height frame) tw th
  = Some (frame_width f', frame_height f').
Proof.
  unfold resize_frame_smart.
  destruct (fitted_size _ _ tw th) as [[cols rows]|]; [|discriminate].
  cbn [bind].
  destruct (Py.truediv (inject_Z cols) _); [|discriminate]. cbn [bind].
  destruct (Py.truediv (inject_Z rows) _); [|discriminate]. cbn [bind].
  destruct (Qlt_le_dec 2 _) as [H2 | H2].
  - intros E. apply super_resolution_shape in E. now destruct E as [-> ->].
  - destruct (Qlt_le_dec (3 # 2) _) as [H3 | H3].
    + unfold _edge_preserving_resize, bind.
      destruct (edge_preserving_samples _ _ _ _); [|discriminate].
      intros E; injection E as <-. reflexivity.
    + intros E. apply cv2_resize_shape in E. now destruct E as [-> ->].
Qed.

(** The doubling loop stops within the iterations it is given, and every
    step it plans is at least one pixel each way. *)
Lemma upscale_steps_total (fuel : nat) : forall cw ch tw th,
  1 <= cw -> 1 <= ch -> 1 <= tw -> 1 <= th ->
  Z.max 0 (tw - cw) + Z.max 0 (th - ch) <= Z.of_nat fuel ->
  exists steps,
    upscale_steps fuel cw ch tw th = Some steps /\
    Forall (fun s => 1 <= fst s /\ 1 <= snd s) steps.
Proof.
  induction fuel as [|fuel IH]; intros cw ch tw th Hcw Hch Htw Hth Hm;
    cbn [upscale_steps].
  - destruct (Z.ltb_spec cw tw), (Z.ltb_spec ch th); simpl in *; try lia.
    exists []. split; [reflexivity | constructor].
  - destruct ((cw <? tw) || (ch <? th)) eqn:C.
    + rewrite !min_spec.
      destruct (IH (Z.min (cw * 2) tw) (Z.min (ch * 2) th) tw th)
        as [steps [E F]]; try lia.
      rewrite E. cbn [bind]. eexists. split; [reflexivity|].
      constructor; [simpl; lia | exact F].
    + exists []. split; [reflexivity | constructor].
Qed.

Lemma apply_steps_total cv (A : opencv_accepts cv) (steps : list (Z * Z)) :
  forall f,
    1 <= frame_width f -> 1 <= frame_height f ->
    Forall (fun s => 1 <= fst s /\ 1 <= snd s) steps ->
    exists g, apply_steps cv f steps = Some g /\
              1 <= frame_width g /\ 1 <= frame_height g.
Proof.
  induction steps as [|[sw sh] steps IH]; intros f Hw Hh F; simpl.
  - now exists f.
  - inversion F as [|s l [Hsw Hsh] F']; subst. simpl in Hsw, Hsh.
    unfold _edsr_upscale.
    destruct (A f sw sh Hw Hh Hsw Hsh) as [_ [He _]].
    destruct (edsr_samples cv f sw sh) as [d|]; [|contradiction].
    cbn [bind]. apply IH; simpl; assumption.
Qed.

Lemma super_resolution_total cv (A : opencv_accepts cv) f w h :
  1 <= frame_width f -> 1 <= frame_height f -> 1 <= w -> 1 <= h ->
  exists f', _super_resolution_resize cv f w h = Some f'.
Proof.
  intros Hfw Hfh Hw Hh. unfold _super_resolution_resize.
  destruct (upscale_steps_total (Z.to_nat (w + h))
              (frame_width f) (frame_height f) w h) as [steps [E F]];
    try lia.
  rewrite E. cbn [bind].
  destruct (apply_steps_total cv A steps f Hfw Hfh F) as [g [Eg [Gw Gh]]].
  rewrite Eg. cbn [bind].
  destruct (_ || _).
  - unfold cv2_resize.
    destruct (A g w h Gw Gh Hw Hh) as [Hr _].
    destruct (resize_samples cv INTER_LANCZOS4 g w h) as [d|] eqn:R;
      [|now apply Hr in R].
    cbn [bind]. eauto.
  - eauto.
Qed.

(** C3, as the code has it: the resizer fits the frame's aspect ratio,
    corrected by the 0.5 character-cell factor, into the requested size,
    computing in floating point. For sides of at most [2^24], the frame
    it returns is never larger than the request and matches it in width
    or in height; its rows are [out_cols * fh / (2 * fw)] capped at the
    rows asked for, or one less than that when the division is exact and
    the floating-point quotient falls below it; the width asked for is
    kept whenever the uncapped rows fit; and the frame is returned
    whenever both sides are at least one pixel and OpenCV accepts the
    resize. *)
Theorem resize_frame_smart_fits_aspect (cv : OpenCV) (frame : Frame)
    (out_cols out_rows : Z) :
  1 <= frame_width frame <= 2 ^ 24 -> 1 <= frame_height frame <= 2 ^ 24 ->
  1 <= out_cols <= 2 ^ 24 -> 1 <= out_rows ->
  let fw := frame_width frame in
  let fh := frame_height frame in
  let fit_rows := out_cols * fh / (2 * fw) in
  exists cols rows,
    fitted_size fw fh out_cols out_rows = Some (cols, rows) /\
    cols <= out_cols /\ rows <= out_rows /\
    (cols = out_cols \/ rows = out_rows) /\
    Z.min fit_rows out_rows - 1 <= rows <= Z.min fit_rows out_rows /\
    ((out_cols * fh) mod (2 * fw) <> 0 -> rows = Z.min fit_rows out_rows) /\
    (fit_rows <= out_rows -> cols = out_cols) /\
    (forall f', resize_frame_smart cv frame out_cols out_rows = Some f' ->
                frame_width f' = cols /\ frame_height f' = rows) /\
    (opencv_accepts cv -> 1 <= cols -> 1 <= rows ->
     exists f', resize_frame_smart cv frame out_cols out_rows = Some f').
Proof.
  intros Hfw Hfh Hc Hr fw fh fit_rows.
  destruct (fitted_size_cases fw fh out_cols out_rows Hfw Hfh Hc Hr)
    as [cols [rows [S D]]].
  cbv zeta in D. fold fit_rows in D.
  exists cols, rows. split; [exact S|].
  assert (G : cols <= out_cols /\ rows <= out_rows /\
              (cols = out_cols \/ rows = out_rows) /\
              Z.min fit_rows out_rows - 1 <= rows <= Z.min fit_rows out_rows /\
              ((out_cols * fh) mod (2 * fw) <> 0 ->
               rows = Z.min fit_rows out_rows) /\
              (fit_rows <= out_rows -> cols = out_cols)).
  { destruct D as [[-> [D1 [D2 D3]]] | [-> [D1 [D2 [D3 D4]]]]].
    - split; [lia|]. split; [lia|]. split; [now left|]. lia.
    - split; [lia|]. split; [lia|]. split; [now right|]. lia. }
  destruct G as [G1 [G2 [G3 [G4 [G5 G6]]]]].
  repeat (split; [assumption|]). split.
  - intros f' E. apply resize_frame_smart_shape in E.
    fold fw fh in E. rewrite S in E. injection E as -> ->. now split.
  - intros A Hcols Hrows. unfold resize_frame_smart. fold fw fh.
    rewrite S. cbn [bind].
    rewrite !truediv_some by (apply inject_Z_nonzero; lia). cbn [bind].
    destruct (Qlt_le_dec 2 _) as [H2 | H2].
    + apply super_resolution_total; assumption || lia.
    + destruct (A frame cols rows ltac:(lia) ltac:(lia) Hcols Hrows)
        as [Ar [_ Ae]].
      destruct (Qlt_le_dec (3 # 2) _) as [H3 | H3].
      * unfold _edge_preserving_resize.
        destruct (edge_preserving_samples cv frame cols rows); [|contradiction].
        cbn [bind]. eauto.
      * unfold cv2_resize.
        destruct (resize_samples cv INTER_LANCZOS4 frame cols rows) eqn:R;
          [|now apply Ar in R].
        cbn [bind]. eauto.
Qed.

Lemma black_cv_accepts : opencv_accepts black_cv.
Proof. intros f w h _ _ _ _. repeat split; intros; discriminate. Qed.

Lemma resize_frame_smart_fits_aspect_witness :
  exists cols rows,
    fitted_size 4 4 8 2 = Some (cols, rows) /\
    cols <= 8 /\ rows <= 2 /\
    (cols = 8 \/ rows = 2) /\
    Z.min (8 * 4 / (2 * 4)) 2 - 1 <= rows <= Z.min (8 * 4 / (2 * 4)) 2 /\
    ((8 * 4) mod (2 * 4) <> 0 -> rows = Z.min (8 * 4 / (2 * 4)) 2) /\
    (8 * 4 / (2 * 4) <= 2 -> cols = 8) /\
    (forall f', resize_frame_smart black_cv black_4x4 8 2 = Some f' ->
                frame_width f' = cols /\ frame_height f' = rows) /\
    (opencv_accepts black_cv -> 1 <= cols -> 1 <= rows ->
     exists f', resize_frame_smart black_cv black_4x4 8 2 = Some f').
Proof.
  apply (resize_frame_smart_fits_aspect black_cv black_4x4 8 2);
    vm_compute; try split; discriminate.
Defined.

(** The frame of 352 by 288 pixels asked for 66 by 27: the exact
    quotient is 27 rows, the floating-point one falls below it and the
    frame comes back with 26; a frame of 7 by 3 asked for 70 by 15 comes
    back with 14 rows. *)
Example fitted_size_one_less :
  fitted_size 352 288 66 27 = Some (66, 26) /\ 66 * 288 / (2 * 352) = 27 /\
  fitted_size 7 3 70 15 = Some (70, 14) /\ 70 * 3 / (2 * 7) = 15.
Proof. repeat split; vm_compute; reflexivity. Qed.

(** C3 as worded fails: asked for 8 columns by 2 rows of a square frame,
    the resizer returns 4 columns by 2 rows. *)
Lemma resize_frame_smart_not_requested_size :
  resize_frame_smart black_cv black_4x4 8 2
  = Some (mkFrame 2 4 true (black 4 2)) /\
  ~ (forall cv frame out_cols out_rows,
        1 <= out_cols -> 1 <= out_rows ->
        exists f', resize_frame_smart cv frame out_cols out_rows = Some f' /\
                   frame_width f' = out_cols /\ frame_height f' = out_rows).
Proof.
  assert (E : resize_frame_smart black_cv black_4x4 8 2
              = Some (mkFrame 2 4 true (black 4 2)))
    by (vm_compute; reflexivity).
  split; [exact E|].
  intros H. destruct (H black_cv black_4x4 8 2) as [f' [E' [W _]]]; try lia.
  rewrite E in E'. injection E' as <-. simpl in W. lia.
Qed.

(** ** The brightness transform *)

(** The element-wise strategies keep the spatial dimensions of the
    frame. *)
Lemma calculate_brightness_shape cv dt alg px g :
  match alg with
  | LUMINANCE | AVERAGE | LIGHTNESS | CUSTOM_WEIGHTED => True
  | _ => False
  end ->
  calculate_brightness cv dt alg px = Some g -> grid_shape g = grid_shape px.
Proof.
  intros Halg E.
  destruct alg; try contradiction; simpl in E; injection E as <-;
    unfold grid_shape; rewrite length_map, map_map; f_equal;
    apply map_ext; intros r; apply length_map.
Qed.

(** C4, the code on a single white pixel: the plain average, whatever
    the element type of the array, and the luminance strategy on the
    [float32] array the pipeline passes return 255, a value on the 0-255
    scale of the samples and not one clamped to [[0, 1]] as the
    docstring of [calculate_brightness] announces; the luminance is
    above 1 in the other element types too. *)
Theorem calculate_brightness_not_normalised (cv : OpenCV) (dt : DType) :
  let white : list (list BGR) := [[(255, 255, 255)%Q]] in
  (exists v, calculate_brightness cv dt AVERAGE white = Some [[v]] /\
             (v == 255)%Q /\ ~ (v <= 1)%Q) /\
  (exists v, calculate_brightness cv (floating float32) LUMINANCE white
             = Some [[v]] /\
             (v == 255)%Q /\ ~ (v <= 1)%Q) /\
  (exists v, calculate_brightness cv dt LUMINANCE white = Some [[v]] /\
             ~ (v <= 1)%Q).
Proof.
  split; [|split].
  - destruct dt as [|[|]]; eexists; (split; [reflexivity|]); split;
      solve [vm_compute; reflexivity
            | intros H; vm_compute in H; now apply H].
  - eexists; (split; [reflexivity|]); split;
      solve [vm_compute; reflexivity
            | intros H; vm_compute in H; now apply H].
  - destruct dt as [|[|]]; eexists; (split; [reflexivity|]);
      intros H; vm_compute in H; now apply H.
Qed.

(** On a [float64] or [uint8] array the luminance of the white pixel is
    the float just below 255: the three rounded products do not add up
    to it. *)
Example luminance_white_float64 (cv : OpenCV) :
  calculate_brightness cv (floating float64) LUMINANCE [[(255, 255, 255)%Q]]
  = Some [[(8972014882652159 # 35184372088832)%Q]] /\
  calculate_brightness cv uint8 LUMINANCE [[(255, 255, 255)%Q]]
  = calculate_brightness cv (floating float64) LUMINANCE
      [[(255, 255, 255)%Q]].
Proof. split; vm_compute; reflexivity. Qed.

(** ** The frame buffer *)

Lemma put_within {A} (q q' : Queue A) (x : A) (capacity : Z) :
  1 <= capacity -> maxsize q = capacity -> qsize q <= capacity ->
  put q x = Some q' ->
  maxsize q' = capacity /\ qsize q' <= capacity.
Proof.
  intros Hc Hm Hs. unfold put, full.
  destruct (Z.ltb_spec 0 (maxsize q)); [|lia].
  destruct (Z.leb_spec (maxsize q) (qsize q)); simpl; [discriminate|].
  intros E; injection E as <-. simpl. split; [exact Hm|].
  unfold qsize in *. simpl. rewrite length_app. simpl. lia.
Qed.

Lemma get_within {A} (q q' : Queue A) (x : A) (capacity : Z) :
  maxsize q = capacity -> qsize q <= capacity ->
  get q = Some (x, q') ->
  maxsize q' = capacity /\ qsize q' <= capacity.
Proof.
  intros Hm Hs. unfold get, qsize in *.
  destruct (items q) as [|y rest]; [discriminate|].
  intros E; injection E as _ <-. simpl in *. split; [exact Hm | lia].
Qed.

Lemma drain_within {A} (q : Queue A) (capacity : Z) :
  0 <= capacity -> maxsize q = capacity ->
  maxsize (drain q) = capacity /\ qsize (drain q) <= capacity.
Proof. intros Hc Hm. unfold drain, qsize. simpl. split; [exact Hm | lia]. Qed.

Lemma buffer_step_within capacity timed_out pc self :
  1 <= capacity -> buffer_within capacity self ->
  buffer_within capacity (snd (buffer_step timed_out (pc, self))).
Proof.
  intros Hc [Hm Hs]. unfold buffer_step.
  destruct pc as [| image | | | frame |]; simpl.
  - destruct (is_image self); [|now split].
    destruct (static_image self); [|now split].
    destruct (_ =? 0); now split.
  - destruct (put (frame_buffer self) (0, image)) as [q|] eqn:E.
    + now apply (put_within _ _ _ capacity) in E.
    + destruct timed_out; now split.
  - destruct (stop_event self); now split.
  - destruct (cap self) as [c|]; [|now split].
    destruct (negb (stop_event self) && isOpened c); [|now split].
    destruct (_ && _); [|now split].
    destruct (read c) as [c' [frame|]]; now split.
  - destruct (put (frame_buffer self) (current_frame self, frame))
      as [q|] eqn:E.
    + now apply (put_within _ _ _ capacity) in E.
    + destruct timed_out; now split.
  - now split.
Qed.

Lemma display_get_within capacity self :
  buffer_within capacity self -> buffer_within capacity (display_get self).
Proof.
  intros [Hm Hs]. unfold display_get.
  destruct (get (frame_buffer self)) as [[x q]|] eqn:E; [|now split].
  now apply (get_within _ _ _ capacity) in E.
Qed.

Lemma process_key_within capacity self key :
  0 <= capacity -> buffer_within capacity self ->
  buffer_within capacity (_process_key self key).
Proof.
  intros Hc [Hm Hs]. unfold _process_key, stop, restart.
  case_ifs; try (now split); try (now apply drain_within).
  destruct (cap self); [now apply drain_within | now split].
Qed.

Lemma seek_within capacity self n :
  0 <= capacity -> buffer_within capacity self ->
  buffer_within capacity (seek self n).
Proof.
  intros Hc [Hm Hs]. unfold seek.
  destruct (cap self); [|now split].
  destruct (_ && _); [now apply drain_within | now split].
Qed.

Lemma step_within capacity st e :
  1 <= capacity -> buffer_within capacity (snd st) ->
  buffer_within capacity (snd (step st e)).
Proof.
  intros Hc H. destruct st as [pc self], e as [t | | key | n]; simpl in *.
  - now apply buffer_step_within.
  - now apply display_get_within.
  - apply process_key_within; [lia | exact H].
  - apply seek_within; [lia | exact H].
Qed.

Lemma run_within capacity trace : forall st,
  1 <= capacity -> buffer_within capacity (snd st) ->
  buffer_within capacity (snd (run st trace)).
Proof.
  induction trace as [|e trace IH]; intros st Hc H; simpl.
  - exact H.
  - apply IH; [exact Hc|]. now apply step_within.
Qed.

(** The constructor leaves an empty buffer of the configured capacity,
    and loading media does not touch it. *)
Lemma new_player_buffer (capacity : Z) :
  0 <= capacity -> buffer_within capacity (new_player capacity).
Proof. intros H. split; [reflexivity | exact H]. Qed.

Lemma load_image_keeps_buffer world self path :
  frame_buffer (snd (_load_image world self path)) = frame_buffer self.
Proof.
  unfold _load_image.
  destruct (cv2_imread world path); [|reflexivity].
  destruct (ascii_size _ _ _ _) as [[w h]|]; reflexivity.
Qed.

Lemma load_video_keeps_buffer world self path :
  frame_buffer (snd (_load_video world self path)) = frame_buffer self.
Proof.
  unfold _load_video. cbv zeta.
  destruct (negb _); [reflexivity|].
  destruct (ascii_size _ _ _ _) as [[w h]|]; reflexivity.
Qed.

Lemma load_media_keeps_buffer world self media_path :
  frame_buffer (snd (load_media world self media_path)) = frame_buffer self.
Proof.
  unfold load_media.
  destruct (negb (path_exists world media_path)); [reflexivity|].
  cbv zeta.
  match goal with
  | |- context [if ?b then _ else _] => destruct b
  end;
    rewrite ?load_image_keeps_buffer, ?load_video_keeps_buffer;
    destruct (cap self); reflexivity.
Qed.

(** A [put] that finds the buffer full and times out drops the frame:
    the player is left as it was and the thread goes back to the top of
    its loop. *)
Lemma put_on_full_drops self frame :
  full (frame_buffer self) = true ->
  buffer_step true (BufPut frame, self) = (BufLoop, self).
Proof. intros F. unfold buffer_step, put. now rewrite F. Qed.

(** C5, as the code has it: for a configured capacity of at least one
    frame, whatever the interleaving of buffering steps, display
    dequeues, keys and seeks, the buffer never holds more frames than
    the capacity; and in the state reached, a [put] that finds the buffer
    full and times out drops its frame without changing anything. *)
Theorem frame_buffer_bounded (capacity : Z) (pc : BufferPC)
    (self : ASCIIVideoPlayer) (trace : list Event) :
  1 <= capacity ->
  maxsize (frame_buffer self) = capacity ->
  qsize (frame_buffer self) <= capacity ->
  let st := run (pc, self) trace in
  qsize (frame_buffer (snd st)) <= capacity /\
  (full (frame_buffer (snd st)) = true ->
   forall frame,
     buffer_step true (BufPut frame, snd st) = (BufLoop, snd st)).
Proof.
  intros Hc Hm Hs st. split.
  - apply (run_within capacity trace (pc, self) Hc). now split.
  - intros F frame. now apply put_on_full_drops.
Qed.

Lemma frame_buffer_bounded_witness :
  let st := run (BufStart, video_player) (repeat (Buffering true) 20) in
  qsize (frame_buffer (snd st)) <= 3 /\
  (full (frame_buffer (snd st)) = true ->
   forall frame,
     buffer_step true (BufPut frame, snd st) = (BufLoop, snd st)).
Proof.
  apply (frame_buffer_bounded 3 BufStart video_player
           (repeat (Buffering true) 20));
    vm_compute; (reflexivity || discriminate).
Defined.

(** With three slots and a video of five frames the buffering thread
    fills the buffer and then holds back. *)
Example video_buffer_fills :
  let st := run (BufStart, video_player) (repeat (Buffering true) 20) in
  qsize (frame_buffer (snd st)) = 3 /\ fst st = BufLoop.
Proof. split; reflexivity. Qed.

(** C5 as worded fails for a configured capacity of zero: [queue.Queue]
    takes [maxsize=0] as unbounded, and the buffering thread of a still
    image puts its one frame without looking at [buffer_size]. *)
Lemma frame_buffer_exceeds_zero_capacity :
  let loaded := load_media still_world (new_player 0) "still.png" in
  let st := run (BufStart, snd loaded) [Buffering false; Buffering false] in
  fst loaded = true /\
  buffer_size (snd st) = 0 /\
  qsize (frame_buffer (snd st)) = 1 /\
  ~ qsize (frame_buffer (snd st)) <= buffer_size (snd st).
Proof.
  repeat split; try reflexivity. vm_compute. intros H. now apply H.
Qed.

(** ** Row-chunked mapping *)

Lemma mapM_app {A B} (f : A -> option B) (l1 l2 : list A) :
  mapM f (l1 ++ l2)
  = (a <- mapM f l1 ;; b <- mapM f l2 ;; Some (a ++ b)).
Proof.
  induction l1 as [|x l1 IH]; simpl.
  - destruct (mapM f l2); reflexivity.
  - destruct (f x); simpl; [|reflexivity].
    rewrite IH. destruct (mapM f l1); simpl; [|reflexivity].
    destruct (mapM f l2); reflexivity.
Qed.

Lemma mapM_concat {A B} (f : A -> option B) (chunks : list (list A)) :
  (r <- mapM (mapM f) chunks ;; Some (concat r)) = mapM f (concat chunks).
Proof.
  induction chunks as [|c chunks IH]; simpl; [reflexivity|].
  rewrite mapM_app, <- IH.
  destruct (mapM f c); simpl; [|reflexivity].
  destruct (mapM (mapM f) chunks); reflexivity.
Qed.

Lemma mapM_map {A B C} (g : B -> option C) (h : A -> B) (l : list A) :
  mapM g (map h l) = mapM (fun x => g (h x)) l.
Proof.
  induction l as [|x l IH]; simpl; [reflexivity|]. now rewrite IH.
Qed.

Lemma firstn_plus {A} (a c : nat) : forall l : list A,
  firstn (a + c) l = firstn a l ++ firstn c (skipn a l).
Proof.
  induction a as [|a IH]; intros l; simpl; [reflexivity|].
  destruct l as [|x l]; simpl.
  - now rewrite firstn_nil.
  - now rewrite IH.
Qed.

(** Consecutive chunks of [c] rows put back together give the first
    [n * c] rows. *)
Lemma chunks_firstn {A} (c n : nat) (l : list A) :
  concat (map (fun k => firstn c (skipn (k * c) l)) (seq 0 n))
  = firstn (n * c) l.
Proof.
  induction n as [|n IH]; [reflexivity|].
  rewrite seq_S, map_app, concat_app, IH. simpl.
  rewrite app_nil_r. symmetry. rewrite Nat.add_comm. apply firstn_plus.
Qed.

(** The slices taken on lines 417-418 partition the grid when the grid
    has no more rows than [height]. *)
Lemma chunks_cover {A} (l : list A) (height chunk_size : Z) :
  1 <= chunk_size -> Z.of_nat (List.length l) <= height ->
  concat (map (fun i => Py.slice l i (i + chunk_size))
              (Py.range_step height chunk_size)) = l.
Proof.
  intros Hc Hl. unfold Py.range_step. rewrite map_map.
  rewrite (map_ext _ (fun k => firstn (Z.to_nat chunk_size)
                                 (skipn (k * Z.to_nat chunk_size) l))).
  - rewrite chunks_firstn. apply firstn_all2.
    unfold Py.range_len.
    assert (H : height <= (height + chunk_size - 1) / chunk_size * chunk_size).
    { assert (M := Z.mod_pos_bound (height + chunk_size - 1) chunk_size
                     ltac:(lia)).
      assert (D := Z.div_mod (height + chunk_size - 1) chunk_size
                     ltac:(lia)).
      nia. }
    assert (0 <= (height + chunk_size - 1) / chunk_size)
      by (apply Z.div_pos; lia).
    nia.
  - intros k. unfold Py.slice. f_equal; [f_equal; lia | f_equal; nia].
Qed.

Lemma chunked_equals_single {glyph} (dt : FloatType)
    (self : ASCIIConverter glyph) (brightness : list (list Q))
    (height : Z) :
  max_workers self <> 0 ->
  Z.of_nat (List.length brightness) <= height ->
  convert_chunks_threaded dt self brightness height
  = convert_frame_chunk dt self brightness 0.
Proof.
  intros Hw Hl. unfold convert_chunks_threaded, Py.floordiv.
  destruct (Z.eqb_spec (max_workers self) 0) as [E|_]; [contradiction|].
  cbn [bind]. unfold convert_frame_chunk.
  rewrite <- (mapM_map (mapM (convert_row dt self))
                (fun i => Py.slice brightness i
                            (i + Py.max 1 (height / max_workers self)))).
  rewrite mapM_concat, chunks_cover; [reflexivity | | exact Hl].
  rewrite max_spec. lia.
Qed.

Lemma convert_lines_single {glyph} (dt : FloatType)
    (self : ASCIIConverter glyph) (brightness : list (list Q))
    (height : Z) :
  (use_threading self = true -> max_workers self <> 0) ->
  Z.of_nat (List.length brightness) <= height ->
  convert_lines dt self brightness height
  = convert_frame_chunk dt self brightness 0.
Proof.
  intros Hw Hl. unfold convert_lines.
  destruct (use_threading self); [|reflexivity].
  destruct (50 <? height); [|reflexivity].
  apply chunked_equals_single; [now apply Hw | exact Hl].
Qed.

(** C6: for a converter as the constructor builds it and a brightness
    grid of at most [height] rows, of either floating-point type,
    mapping the rows in chunks on the worker pool and concatenating the
    results in submission order gives exactly the rows, or the
    exception, of a single pass of [convert_frame_chunk] over the whole
    grid. *)
Theorem chunked_mapping_equals_single_pass {glyph} (dt : FloatType)
    (style : list glyph) (alg : ConversionAlgorithm) (threading : bool)
    (workers : Z) (self : ASCIIConverter glyph)
    (brightness : list (list Q)) (height : Z) :
  new_converter style alg threading workers = Some self ->
  Z.of_nat (List.length brightness) <= height ->
  convert_lines dt self brightness height
  = convert_frame_chunk dt self brightness 0.
Proof.
  unfold new_converter. intros N Hl.
  apply convert_lines_single; [|exact Hl].
  destruct threading; simpl in N.
  - destruct (Z.leb_spec workers 0) as [|Hw]; [discriminate|].
    injection N as <-. simpl. lia.
  - injection N as <-. discriminate.
Qed.

Lemma chunked_mapping_equals_single_pass_witness :
  convert_lines float32 minimal_converter
    (repeat [0; 1 # 2; 1]%Q 60) 60
  = convert_frame_chunk float32 minimal_converter
      (repeat [0; 1 # 2; 1]%Q 60) 0.
Proof.
  apply (chunked_mapping_equals_single_pass float32 MINIMAL LUMINANCE
           true 4).
  - reflexivity.
  - vm_compute. discriminate.
Defined.

(** The grid the pipeline maps never has more rows than the height it
    chunks by, so the pipeline gives the same text with the worker pool
    as without it. *)
Lemma gray_levels_rows {glyph} cv (self : ASCIIConverter glyph) f g :
  gray_levels cv self f = Some g ->
  List.length g = Z.to_nat (frame_height f).
Proof.
  unfold gray_levels, astype_float32, astype_float32_gray.
  destruct (frame_color f).
  - destruct (algorithm self); simpl;
      try (destruct (gray_samples cv f); simpl; [|discriminate]);
      intros E; injection E as <-;
      rewrite ?length_map, length_seq; reflexivity.
  - intros E; injection E as <-. now rewrite length_map, length_seq.
Qed.

Lemma pipeline_threading_irrelevant {glyph} (newline : glyph) cv
    (style : list glyph) alg workers frame width height enhance :
  1 <= workers ->
  convert_frame_to_ascii newline cv (mkConverter style alg true workers)
    frame width height enhance
  = convert_frame_to_ascii newline cv (mkConverter style alg false workers)
      frame width height enhance.
Proof.
  intros Hw. unfold convert_frame_to_ascii.
  destruct frame as [frame|]; [|reflexivity].
  destruct (frame_size frame =? 0); [reflexivity|].
  destruct (match height with Some h => Some h | None => _ end) as [h|];
    [|reflexivity].
  cbn [bind].
  destruct (resize_frame_smart cv frame (Py.max 1 width) (Py.max 1 h))
    as [resized|] eqn:R; [|reflexivity].
  cbn [bind].
  change (gray_levels cv (mkConverter style alg true workers) resized)
    with (gray_levels cv (mkConverter style alg false workers) resized).
  destruct (gray_levels cv (mkConverter style alg false workers) resized)
    as [g|] eqn:G; [|reflexivity].
  cbn [bind].
  rewrite convert_lines_single.
  - reflexivity.
  - simpl. lia.
  - apply gray_levels_rows in G.
    apply resize_frame_smart_shape, fitted_rows_le in R.
    assert (L : List.length (normalise cv enhance g) = List.length g).
    { unfold normalise. destruct enhance; now rewrite ?length_map. }
    rewrite L, G. rewrite max_spec in *. lia.
Qed.

(** The whole pipeline on a black frame of four by four pixels, asked
    for four columns by two rows: two rows of four spaces. *)
Example convert_black_frame :
  convert_frame_to_ascii "010"%char black_cv minimal_converter
    (Some black_4x4) 4 (Some 2) true
  = Some (list_ascii_of_string "    " ++ "010"%char
          :: list_ascii_of_string "    ").
Proof. vm_compute. reflexivity. Qed.

(** ** Runtime controls *)

Lemma change_speed_bounds (self : ASCIIVideoPlayer) (delta : Q) :
  (1 # 10 <= playback_speed (change_speed self delta))%Q /\
  (playback_speed (change_speed self delta) <= 5)%Q.
Proof.
  unfold change_speed; simpl. unfold Py.maxf, Py.minf.
  destruct (Qlt_le_dec (playback_speed self + delta) 5) as [H5 | H5];
    match goal with
    | |- context [Qlt_le_dec ?a ?b] => destruct (Qlt_le_dec a b) as [H1 | H1]
    end; split;
    solve [ discriminate | apply Qle_refl | now apply Qlt_le_weak
          | assumption ].
Qed.

Lemma change_speed_sequence (deltas : list Q) : forall self,
  (1 # 10 <= playback_speed self)%Q /\ (playback_speed self <= 5)%Q ->
  (1 # 10 <= playback_speed (fold_left change_speed deltas self))%Q /\
  (playback_speed (fold_left change_speed deltas self) <= 5)%Q.
Proof.
  induction deltas as [|d deltas IH]; intros self H; simpl; [exact H|].
  apply IH, change_speed_bounds.
Qed.

(** C8: a player starts at speed 1.0, and after any sequence of
    [change_speed] calls, whatever their steps (the runtime controls use
    0.1 and -0.1), its speed lies in [[0.1, 5.0]]. *)
Theorem speed_stays_bounded (buffer_size : Z) (deltas : list Q) :
  let self := fold_left change_speed deltas (new_player buffer_size) in
  (playback_speed (new_player buffer_size) == 1)%Q /\
  (1 # 10 <= playback_speed self)%Q /\ (playback_speed self <= 5)%Q.
Proof.
  split; [reflexivity|].
  apply change_speed_sequence. simpl. split; discriminate.
Qed.

(** The same bound along any sequence of keys handled by
    [_process_key]. *)
Lemma speed_bounded_under_keys (keys : list ascii) : forall self,
  (1 # 10 <= playback_speed self)%Q /\ (playback_speed self <= 5)%Q ->
  (1 # 10 <= playback_speed (fold_left _process_key keys self))%Q /\
  (playback_speed (fold_left _process_key keys self) <= 5)%Q.
Proof.
  induction keys as [|k keys IH]; intros self H; simpl; [exact H|].
  apply IH. unfold _process_key, stop, toggle_pause, restart.
  case_ifs; try apply change_speed_bounds; try exact H.
  destruct (cap self); exact H.
Qed.

(** ** Loading *)

(** C9: loading a path that does not exist fails and leaves the player
    exactly as it was; in particular [is_playing] keeps its value, which
    is [False] for a player that has not started playing. *)
Theorem load_media_missing_path (world : World) (self : ASCIIVideoPlayer)
    (media_path : string) :
  path_exists world media_path = false ->
  load_media world self media_path = (false, self) /\
  is_playing (snd (load_media world self media_path)) = is_playing self.
Proof.
  intros H. unfold load_media. rewrite H. simpl. now split.
Qed.

Lemma load_media_missing_path_witness :
  load_media empty_world (new_player 10) "missing.mp4"
  = (false, new_player 10) /\
  is_playing (snd (load_media empty_world (new_player 10) "missing.mp4"))
  = false.
Proof.
  apply (load_media_missing_path empty_world (new_player 10) "missing.mp4").
  reflexivity.
Defined.

(** ** Empty input *)

(** C10: for a frame that is [None] or has no pixels,
    [convert_frame_to_ascii] returns the empty string, whatever the
    target size and the converter. *)
Theorem convert_empty_frame {glyph} (newline : glyph) (cv : OpenCV)
    (self : ASCIIConverter glyph) (frame : option Frame) (width : Z)
    (height : option Z) (enhance_contrast : bool) :
  frame = None \/ (exists f, frame = Some f /\ frame_size f = 0) ->
  convert_frame_to_ascii newline cv self frame width height enhance_contrast
  = Some [].
Proof.
  intros [-> | [f [-> Hs]]]; simpl; [reflexivity|].
  now rewrite Hs.
Qed.

Lemma convert_empty_frame_witness :
  convert_frame_to_ascii "010"%char black_cv minimal_converter
    (Some (mkFrame 0 4 true [])) 80 (Some 24) true = Some [].
Proof.
  apply (convert_empty_frame "010"%char black_cv minimal_converter
           (Some (mkFrame 0 4 true [])) 80 (Some 24) true).
  right. exists (mkFrame 0 4 true []). split; reflexivity.
Defined.

(** * Further properties *)

(** ** The character mapper on arbitrary values *)

Lemma int_inject_Z (z : Z) : Py.int (inject_Z z) = z.
Proof. unfold Py.int. simpl. apply Z.quot_1_r. Qed.

Lemma char_index_bounds {glyph} (dt : FloatType)
    (self : ASCIIConverter glyph) (v : Q) :
  1 <= char_count self -> 0 <= char_index dt self v <= char_count self - 1.
Proof. intros H. unfold char_index, Py.clip. lia. Qed.

(** X1: as long as the cast to [int32] does not overflow, the palette
    index never decreases when the brightness grows, whatever the
    palette, the floating-point type and the two values, also outside
    [[0, 1]]. *)
Theorem char_index_monotone {glyph} (dt : FloatType)
    (self : ASCIIConverter glyph) (v1 v2 : Q) :
  let steps := fl dt (inject_Z (char_count self - 1)) in
  (v1 <= v2)%Q ->
  (- inject_Z (2 ^ 31) - 1 < fl dt (v1 * steps))%Q ->
  (fl dt (v2 * steps) < inject_Z (2 ^ 31))%Q ->
  char_index dt self v1 <= char_index dt self v2.
Proof.
  intros steps H L U. unfold char_index. cbv zeta. fold steps.
  assert (N : 0 <= char_count self) by (unfold char_count; lia).
  destruct (Z.eq_dec (char_count self) 0) as [E | E];
    [unfold Py.clip; lia|].
  assert (S0 : (0 <= steps)%Q).
  { apply fl_nonneg. change 0%Q with (inject_Z 0). rewrite <- Zle_Qle. lia. }
  assert (M : astype_int32 (fl dt (v1 * steps))
              <= astype_int32 (fl dt (v2 * steps))).
  { apply astype_int32_monotone; [exact L | exact U|].
    apply fl_monotone. now apply Qmult_le_compat_r. }
  unfold Py.clip. lia.
Qed.

Lemma char_index_monotone_witness :
  char_index float32 minimal_converter (- (5 # 2))
  <= char_index float32 minimal_converter (3 # 4).
Proof.
  apply (char_index_monotone float32 minimal_converter (- (5 # 2)) (3 # 4));
    vm_compute; reflexivity || discriminate.
Defined.

(** Past the range of [int32] the order is lost: 2.4e8 times 9 does not
    fit, the cast yields [INT32_MIN] and the value is mapped to the
    first character, below the index of 1.0. *)
Example char_index_overflow :
  char_index float64 minimal_converter 1 = 9 /\
  char_index float64 minimal_converter 240000000 = 0.
Proof. split; vm_compute; reflexivity. Qed.

(** X3: brightness outside [[0, 1]] saturates. With a palette of 1 to
    [2^24] characters, a value of at most 0 is mapped to the first
    character, and a value of at least 1 to the last one as long as its
    product with [len(palette) - 1] fits [int32]. *)
Theorem char_index_saturates {glyph} (dt : FloatType)
    (self : ASCIIConverter glyph) (v : Q) :
  1 <= char_count self <= 2 ^ 24 ->
  ((v <= 0)%Q -> char_index dt self v = 0) /\
  ((1 <= v)%Q ->
   (fl dt (v * inject_Z (char_count self - 1)) < inject_Z (2 ^ 31))%Q ->
   char_index dt self v = char_count self - 1).
Proof.
  intros Hn.
  assert (Hm : (0 <= inject_Z (char_count self - 1))%Q).
  { change 0%Q with (inject_Z 0). rewrite <- Zle_Qle. lia. }
  unfold char_index. cbv zeta. rewrite (steps_exact dt self v Hn).
  split.
  - intros Hv.
    assert (astype_int32 (fl dt (v * inject_Z (char_count self - 1))) <= 0).
    { apply astype_int32_nonpos, fl_nonpos.
      rewrite <- (Qmult_0_l (inject_Z (char_count self - 1))).
      now apply Qmult_le_compat_r. }
    unfold Py.clip. lia.
  - intros Hv Hb.
    assert (L : (inject_Z (char_count self - 1)
                 <= fl dt (v * inject_Z (char_count self - 1)))%Q).
    { rewrite <- (fl_Z dt (char_count self - 1)) at 1 by lia.
      apply fl_monotone.
      apply Qle_trans with (1 * inject_Z (char_count self - 1))%Q;
        [rewrite Qmult_1_l; apply Qle_refl|].
      now apply Qmult_le_compat_r. }
    rewrite astype_int32_nonneg; [|lra | exact Hb].
    assert (char_count self - 1
            <= Qfloor (fl dt (v * inject_Z (char_count self - 1)))).
    { apply Z.le_trans with (Qfloor (inject_Z (char_count self - 1)));
        [rewrite Qfloor_Z; lia | now apply Qfloor_resp_le]. }
    unfold Py.clip. lia.
Qed.

Lemma char_index_saturates_witness :
  char_index float64 minimal_converter (-1) = 0 /\
  char_index float64 minimal_converter 2 = 10 - 1.
Proof.
  split.
  - apply (char_index_saturates float64 minimal_converter (-1));
      vm_compute; try split; discriminate.
  - apply (char_index_saturates float64 minimal_converter 2);
      vm_compute; try split; reflexivity || discriminate.
Defined.

Lemma mapM_total {A B} (f : A -> option B) (P : B -> Prop) (l : list A) :
  (forall x, exists y, f x = Some y /\ P y) ->
  exists ys, mapM f l = Some ys /\
             List.length ys = List.length l /\ Forall P ys.
Proof.
  intros Hf. induction l as [|x l [ys [E [L F]]]]; simpl.
  - exists []. repeat split. constructor.
  - destruct (Hf x) as [y [Ey Py]]. rewrite Ey, E. simpl.
    exists (y :: ys). repeat split; [simpl; now rewrite L|].
    now constructor.
Qed.

Lemma mapM_length {A B} (f : A -> option B) (l : list A) (ys : list B) :
  mapM f l = Some ys -> List.length ys = List.length l.
Proof.
  revert ys. induction l as [|x l IH]; simpl; intros ys E.
  - injection E as <-. reflexivity.
  - destruct (f x); [|discriminate]. simpl in E.
    destruct (mapM f l) as [zs|]; [|discriminate]. simpl in E.
    injection E as <-. simpl. now rewrite (IH zs).
Qed.

Lemma mapM_Forall2 {A B} (f : A -> option B) (R : A -> B -> Prop) :
  (forall x y, f x = Some y -> R x y) ->
  forall l ys, mapM f l = Some ys -> Forall2 R l ys.
Proof.
  intros Hf. induction l as [|x l IH]; simpl; intros ys E.
  - injection E as <-. constructor.
  - destruct (f x) as [y|] eqn:Ey; [|discriminate]. simpl in E.
    destruct (mapM f l) as [zs|]; [|discriminate]. simpl in E.
    injection E as <-. constructor; auto.
Qed.

Lemma convert_row_total {glyph} (dt : FloatType)
    (self : ASCIIConverter glyph) (row : list Q) :
  1 <= char_count self ->
  exists out, convert_row dt self row = Some out /\
              List.length out = List.length row /\
              Forall (fun c => In c (ascii_chars self)) out.
Proof.
  intros Hn. apply mapM_total. intros v.
  destruct (take_in_range (ascii_chars self) (char_index dt self v))
    as [c [Hc Ht]].
  { assert (B := char_index_bounds dt self v Hn). unfold char_count in B.
    lia. }
  exists c. split; [exact Ht|]. now apply nth_error_In in Hc.
Qed.

(** X2: with a palette that is not empty the mapper never raises,
    whatever the values of the grid and its floating-point type: it
    returns one row of text per row of the grid, each as long as the row
    it comes from and made of characters of the palette. *)
Theorem convert_frame_chunk_total {glyph} (dt : FloatType)
    (self : ASCIIConverter glyph) (grid : list (list Q)) (start_row : Z) :
  1 <= char_count self ->
  exists out,
    convert_frame_chunk dt self grid start_row = Some out /\
    map (@List.length glyph) out = map (@List.length Q) grid /\
    Forall (Forall (fun c => In c (ascii_chars self))) out.
Proof.
  intros Hn. unfold convert_frame_chunk.
  induction grid as [|row grid [out [E [L F]]]]; simpl.
  - exists []. repeat split. constructor.
  - destruct (convert_row_total dt self row Hn) as [r [Er [Lr Fr]]].
    rewrite Er, E. simpl. exists (r :: out). repeat split.
    + simpl. now rewrite Lr, L.
    + now constructor.
Qed.

Lemma convert_frame_chunk_total_witness :
  exists out,
    convert_frame_chunk float32 minimal_converter [[-1; 2; 1 # 3]%Q; []] 0
    = Some out /\
    map (@List.length ascii) out = [3%nat; 0%nat] /\
    Forall (Forall (fun c => In c MINIMAL)) out.
Proof.
  apply (convert_frame_chunk_total float32 minimal_converter
           [[-1; 2; 1 # 3]%Q; []] 0).
  vm_compute. discriminate.
Defined.

(** ** The dimension planner at its limits *)

Lemma div_none (a b : Q) : (b == 0)%Q -> Py.div a b = None.
Proof.
  intros Hb. unfold Py.div.
  destruct (Qeq_bool b 0) eqn:E; [reflexivity|].
  apply Qeq_bool_neq in E. contradiction.
Qed.

Lemma planner_result (tw th : Z) (shape : Z * Z) (q : string)
    (out : Z * Z) :
  get_optimal_dimensions tw th shape q = Some out ->
  exists ew eh,
    out = (Z.max 1 (Z.min ew (Z.min (tw * 4) 1000)),
           Z.max 1 (Z.min eh (Z.min (th * 4) 800))).
Proof.
  destruct shape as [fh fw]. unfold get_optimal_dimensions, bind.
  destruct (Py.div (inject_Z fw) (inject_Z fh)); [|discriminate].
  destruct (Py.div (inject_Z tw) (inject_Z th)); [|discriminate].
  destruct (Qlt_le_dec _ _) as [L | L].
  - intros E; injection E as <-. rewrite !max_spec, !min_spec. eauto.
  - destruct (Py.div _ _); [|discriminate].
    intros E; injection E as <-. rewrite !max_spec, !min_spec. eauto.
Qed.

(** X4: whenever the planner returns, each side of the geometry is at
    least 1, at most 1000 columns by 800 rows, and at most four times
    the terminal's side (or 1 where that is less). *)
Theorem planner_output_capped (tw th : Z) (shape : Z * Z) (q : string)
    (w h : Z) :
  get_optimal_dimensions tw th shape q = Some (w, h) ->
  1 <= w <= 1000 /\ 1 <= h <= 800 /\
  w <= Z.max 1 (tw * 4) /\ h <= Z.max 1 (th * 4).
Proof.
  intros E. apply planner_result in E. destruct E as [ew [eh E]].
  injection E as -> ->. lia.
Qed.

Lemma planner_output_capped_witness :
  1 <= 405 <= 1000 /\ 1 <= 114 <= 800 /\
  405 <= Z.max 1 (120 * 4) /\ 114 <= Z.max 1 (40 * 4).
Proof.
  apply (planner_output_capped 120 40 (1080, 1920) "4k" 405 114).
  reflexivity.
Defined.

(** X5: a quality mode that is none of "auto", "8k", "6k" and "4k"
    (matching is exact, so "AUTO" or "4K" included) is planned exactly
    like "standard". *)
Theorem planner_unknown_mode_is_standard (tw th : Z) (shape : Z * Z)
    (q : string) :
  q <> "auto"%string -> q <> "8k"%string -> q <> "6k"%string ->
  q <> "4k"%string ->
  get_optimal_dimensions tw th shape q
  = get_optimal_dimensions tw th shape "standard".
Proof.
  intros Ha H8 H6 H4. destruct shape as [fh fw].
  unfold get_optimal_dimensions.
  assert (E : quality_multiplier q fw fh = quality_multiplier "standard" fw fh).
  { unfold quality_multiplier.
    apply String.eqb_neq in Ha, H8, H6, H4.
    now rewrite Ha, H8, H6, H4. }
  now rewrite E.
Qed.

Lemma planner_unknown_mode_is_standard_witness :
  get_optimal_dimensions 120 40 (1080, 1920) "4K"
  = get_optimal_dimensions 120 40 (1080, 1920) "standard".
Proof.
  apply (planner_unknown_mode_is_standard 120 40 (1080, 1920) "4K");
    discriminate.
Defined.

Lemma zero_div (x : Q) : (inject_Z 0 / x == 0)%Q.
Proof. unfold Qdiv. apply Qmult_0_l. Qed.

(** X6: on sizes that are not negative, the planner raises
    [ZeroDivisionError] exactly when the frame has no rows, the terminal
    has no rows, or both the frame and the terminal have no columns. *)
Theorem planner_raises_iff (tw th fh fw : Z) (q : string) :
  0 <= tw -> 0 <= th -> 0 <= fh -> 0 <= fw ->
  get_optimal_dimensions tw th (fh, fw) q = None
  <-> fh = 0 \/ th = 0 \/ (fw = 0 /\ tw = 0).
Proof.
  intros Htw Hth Hfh Hfw. unfold get_optimal_dimensions.
  destruct (Z.eq_dec fh 0) as [-> | Nfh].
  { split; [tauto | reflexivity]. }
  rewrite (div_some _ (inject_Z fh)) by now apply inject_Z_nonzero.
  cbn [bind].
  destruct (Z.eq_dec th 0) as [-> | Nth].
  { split; [tauto | reflexivity]. }
  rewrite (div_some _ (inject_Z th)) by now apply inject_Z_nonzero.
  cbn [bind].
  destruct (Qlt_le_dec _ _) as [L | L]; cbn [bind].
  - split; [discriminate|]. intros [-> | [-> | [-> ->]]]; try lia.
    exfalso. rewrite !zero_div in L. lra.
  - destruct (Z.eq_dec fw 0) as [-> | Nfw].
    + rewrite div_none by apply zero_div.
      cbn [bind]. split; [|reflexivity]. intros _.
      right. right. split; [reflexivity|].
      destruct (Z.eq_dec tw 0) as [|Ntw]; [assumption|]. exfalso.
      rewrite zero_div in L.
      assert (P : (0 < inject_Z tw / inject_Z th)%Q).
      { apply Qlt_shift_div_l.
        - change 0%Q with (inject_Z 0). rewrite <- Zlt_Qlt. lia.
        - rewrite Qmult_0_l. change 0%Q with (inject_Z 0).
          rewrite <- Zlt_Qlt. lia. }
      lra.
    + rewrite div_some by (apply aspect_nonzero; lia). cbn [bind].
      split; [discriminate | lia].
Qed.

Lemma planner_raises_iff_witness :
  get_optimal_dimensions 80 0 (1080, 1920) "auto" = None
  <-> 1080 = 0 \/ 0 = 0 \/ (1920 = 0 /\ 80 = 0).
Proof. apply (planner_raises_iff 80 0 1080 1920 "auto"); lia. Defined.

(** Comparing two quotients of integers with positive denominators. *)
Lemma Qdiv_le_cross (a b c d : Z) :
  0 < b -> 0 < d ->
  (inject_Z a / inject_Z b <= inject_Z c / inject_Z d)%Q <-> a * d <= c * b.
Proof.
  intros Hb Hd.
  destruct b as [|b|b], d as [|d|d]; try lia.
  unfold Qle, Qdiv, Qmult, Qinv; simpl. lia.
Qed.

Lemma Qdiv_lt_cross (a b c d : Z) :
  0 < b -> 0 < d ->
  (inject_Z a / inject_Z b < inject_Z c / inject_Z d)%Q <-> a * d < c * b.
Proof.
  intros Hb Hd.
  destruct b as [|b|b], d as [|d|d]; try lia.
  unfold Qlt, Qdiv, Qmult, Qinv; simpl. lia.
Qed.

(** X7: in "standard" quality the planned height always fits under the
    terminal's margin, [max(1, terminal_height - 2)]; only the width can
    overflow the terminal. *)
Theorem planner_standard_height_fits (tw th fh fw w h : Z) :
  0 < fw -> 0 < fh -> 0 < th ->
  get_optimal_dimensions tw th (fh, fw) "standard" = Some (w, h) ->
  h <= Z.max 1 (th - 2).
Proof.
  intros Hfw Hfh Hth. unfold get_optimal_dimensions.
  assert (Nw : ~ (inject_Z fw == 0)%Q) by (apply inject_Z_nonzero; lia).
  assert (Nh : ~ (inject_Z fh == 0)%Q) by (apply inject_Z_nonzero; lia).
  rewrite (div_some _ (inject_Z fh)) by exact Nh.
  rewrite (div_some _ (inject_Z th)) by (apply inject_Z_nonzero; lia).
  cbn [bind]. change (quality_multiplier "standard" fw fh) with 1%Q.
  assert (I : forall z, Py.int (inject_Z z * 1) = z).
  { intros z. rewrite <- (int_inject_Z z) at 2.
    unfold Py.int. simpl. now rewrite Z.mul_1_r. }
  destruct (Qlt_le_dec _ _) as [L | L]; cbn [bind].
  - rewrite !I, !max_spec, !min_spec. intros E; injection E as <- <-. lia.
  - rewrite div_some by (apply aspect_nonzero; lia). cbn [bind].
    rewrite !I, !max_spec, !min_spec. intros E; injection E as <- <-.
    assert (C : tw * (2 * fh) <= fw * th).
    { apply (Qdiv_le_cross tw th fw (2 * fh)); [lia | lia |].
      eapply Qle_trans; [exact L|].
      rewrite inject_Z_mult. change (inject_Z 2) with 2%Q.
      apply Qle_lteq. right. field. exact Nh. }
    set (x := (inject_Z (tw - 2) / (inject_Z fw / inject_Z fh) * (1 # 2))%Q).
    assert (B : Py.int x <= Z.max 0 (th / 4)).
    { destruct (Z_lt_le_dec tw 2) as [Ht | Ht].
      - assert (Py.int x <= 0); [|lia].
        apply int_nonpos. unfold x.
        assert (Hn : (inject_Z (tw - 2) <= 0)%Q).
        { change 0%Q with (inject_Z 0). rewrite <- Zle_Qle. lia. }
        assert (Hp : (0 < inject_Z fh / inject_Z fw)%Q).
        { apply Qlt_shift_div_l.
          - change 0%Q with (inject_Z 0). now rewrite <- Zlt_Qlt.
          - rewrite Qmult_0_l. change 0%Q with (inject_Z 0).
            now rewrite <- Zlt_Qlt. }
        assert (Ex : (inject_Z (tw - 2) / (inject_Z fw / inject_Z fh) * (1 # 2)
                      == inject_Z (tw - 2) * (inject_Z fh / inject_Z fw * (1 # 2)))%Q).
        { field. split; assumption. }
        rewrite Ex. rewrite <- (Qmult_0_l (inject_Z fh / inject_Z fw * (1 # 2))).
        apply Qmult_le_compat_r; [exact Hn|]. lra.
      - assert (Ex : Py.int x = (tw - 2) * fh / (2 * fw)).
        { apply int_quotient; [nia | lia |]. unfold x.
          rewrite !inject_Z_mult. change (inject_Z 2) with 2%Q.
          field. split; assumption. }
        rewrite Ex.
        assert ((tw - 2) * fh / (2 * fw) <= th / 4); [|lia].
        apply Z.div_le_lower_bound; [lia|].
        assert (D := Z.mul_div_le ((tw - 2) * fh) (2 * fw) ltac:(lia)).
        set (k := (tw - 2) * fh / (2 * fw)) in *.
        assert (S : 4 * k * fw < th * fw) by nia.
        apply Z.mul_lt_mono_pos_r in S; lia. }
    assert (th / 4 <= Z.max 1 (th - 2)).
    { assert (D := Z.div_mod th 4 ltac:(lia)).
      assert (M := Z.mod_pos_bound th 4 ltac:(lia)). lia. }
    lia.
Qed.

Lemma planner_standard_height_fits_witness : 38 <= Z.max 1 (40 - 2).
Proof.
  apply (planner_standard_height_fits 120 40 1080 1920 135 38);
    try lia. reflexivity.
Defined.

(** ** The geometry resizer: strategies and edges *)

Lemma maxf_lt (k a b : Q) :
  (k < Py.maxf a b)%Q <-> (k < a)%Q \/ (k < b)%Q.
Proof.
  unfold Py.maxf. destruct (Qlt_le_dec a b) as [H | H]; split.
  - now right.
  - intros [K | K]; [now apply Qlt_trans with a | exact K].
  - now left.
  - intros [K | K]; [exact K | now apply Qlt_le_trans with b].
Qed.

Lemma ratio_above (n : Z) (d : positive) (c f : Z) :
  0 < f ->
  (n # d < inject_Z c / inject_Z f)%Q <-> n * f < c * Z.pos d.
Proof.
  intros Hf. destruct f as [|f|f]; try lia.
  unfold Qlt, Qdiv, Qmult, Qinv; simpl. lia.
Qed.

(** The scale factors of lines 230-231 are floats, yet they compare with
    2.0 and 1.5 as the exact ratios do. *)
Lemma float_ratio_above (n : Z) (d : positive) (c f : Z) :
  1 <= f <= 2 ^ 24 ->
  (n = 2 /\ d = 1%positive) \/ (n = 3 /\ d = 2%positive) ->
  (n # d < Py.float (inject_Z c / inject_Z f))%Q <-> n * f < c * Z.pos d.
Proof.
  intros Hf Hnd. split.
  - intros H. apply Z.nle_gt. intros N.
    assert (L : (inject_Z c / inject_Z f <= n # d)%Q).
    { apply Qnot_lt_le. rewrite ratio_above by lia. lia. }
    apply float_monotone in L.
    rewrite (float_exact (n # d) n (- Z.pos d + 1)) in L.
    + apply (Qlt_irrefl (n # d)). now apply Qlt_le_trans with
        (Py.float (inject_Z c / inject_Z f)).
    + destruct Hnd as [[-> ->] | [-> ->]]; simpl; lia.
    + destruct Hnd as [[-> ->] | [-> ->]]; reflexivity.
  - intros H.
    assert (G : ((n # d) + (1 # 33554432) <= inject_Z c / inject_Z f)%Q).
    { destruct f as [|f|f]; try lia.
      destruct Hnd as [[-> ->] | [-> ->]];
        unfold Qle, Qplus, Qdiv, Qmult, Qinv; simpl; lia. }
    apply float_monotone in G.
    assert (E : (Py.float ((n # d) + (1 # 33554432))
                 == (n # d) + (1 # 33554432))%Q).
    { destruct Hnd as [[-> ->] | [-> ->]].
      - apply (float_exact _ 67108865 (-25)); [lia | reflexivity].
      - apply (float_exact _ 50331649 (-25)); [lia | reflexivity]. }
    rewrite E in G. lra.
Qed.

(** X8: the three strategies of the resizer by integer thresholds. For
    a frame of at most [2^24] pixels each way and [(cols, rows)] the
    size fitted on lines 217-227, the multi-step upscaling is used when
    [cols > 2 * fw] or [rows > 2 * fh], the edge-preserving resize when
    that fails but [2 * cols > 3 * fw] or [2 * rows > 3 * fh], and a
    single Lanczos pass otherwise: the floating-point scale factors
    decide as the integers do. *)
Theorem resize_frame_smart_strategy (cv : OpenCV) (frame : Frame)
    (tw th cols rows : Z) :
  1 <= frame_width frame <= 2 ^ 24 -> 1 <= frame_height frame <= 2 ^ 24 ->
  let fw := frame_width frame in
  let fh := frame_height frame in
  fitted_size fw fh tw th = Some (cols, rows) ->
  resize_frame_smart cv frame tw th
  = if (2 * fw <? cols) || (2 * fh <? rows) then
      _super_resolution_resize cv frame cols rows
    else if (3 * fw <? 2 * cols) || (3 * fh <? 2 * rows) then
      _edge_preserving_resize cv frame cols rows
    else cv2_resize cv INTER_LANCZOS4 frame (cols, rows).
Proof.
  intros Hfw Hfh fw fh S.
  unfold resize_frame_smart. fold fw fh. rewrite S. cbn [bind].
  rewrite !truediv_some by (apply inject_Z_nonzero; lia). cbn [bind].
  assert (T2 : (2 < Py.maxf (Py.float (inject_Z cols / inject_Z fw))
                            (Py.float (inject_Z rows / inject_Z fh)))%Q
               <-> 2 * fw < cols \/ 2 * fh < rows).
  { rewrite maxf_lt.
    rewrite (float_ratio_above 2 1 cols fw), (float_ratio_above 2 1 rows fh)
      by (auto; lia).
    lia. }
  assert (T3 : (3 # 2 < Py.maxf (Py.float (inject_Z cols / inject_Z fw))
                                (Py.float (inject_Z rows / inject_Z fh)))%Q
               <-> 3 * fw < 2 * cols \/ 3 * fh < 2 * rows).
  { rewrite maxf_lt.
    rewrite (float_ratio_above 3 2 cols fw), (float_ratio_above 3 2 rows fh)
      by (auto; lia).
    lia. }
  destruct (Qlt_le_dec 2 _) as [H2 | H2].
  - apply T2 in H2.
    destruct ((2 * fw <? cols) || (2 * fh <? rows)) eqn:B; [reflexivity|].
    apply orb_false_iff in B. rewrite !Z.ltb_ge in B. lia.
  - apply Qle_not_lt in H2. rewrite T2 in H2.
    destruct ((2 * fw <? cols) || (2 * fh <? rows)) eqn:B.
    { apply orb_true_iff in B. rewrite !Z.ltb_lt in B. tauto. }
    destruct (Qlt_le_dec (3 # 2) _) as [H3 | H3].
    + apply T3 in H3.
      destruct ((3 * fw <? 2 * cols) || (3 * fh <? 2 * rows)) eqn:B3;
        [reflexivity|].
      apply orb_false_iff in B3. rewrite !Z.ltb_ge in B3. lia.
    + apply Qle_not_lt in H3. rewrite T3 in H3.
      destruct ((3 * fw <? 2 * cols) || (3 * fh <? 2 * rows)) eqn:B3;
        [|reflexivity].
      apply orb_true_iff in B3. rewrite !Z.ltb_lt in B3. tauto.
Qed.

Lemma resize_frame_smart_strategy_witness :
  resize_frame_smart black_cv black_4x4 40 20
  = _super_resolution_resize black_cv black_4x4 40 20.
Proof.
  apply (resize_frame_smart_strategy black_cv black_4x4 40 20 40 20);
    vm_compute; try split; reflexivity || discriminate.
Defined.

(** X9: on a frame without rows or without columns the resizer raises
    [ZeroDivisionError]; [convert_frame_to_ascii] never gets there
    because it returns early on such a frame. *)
Theorem resize_frame_smart_empty_frame (cv : OpenCV) (frame : Frame)
    (tw th : Z) :
  frame_height frame = 0 \/ frame_width frame = 0 ->
  resize_frame_smart cv frame tw th = None.
Proof.
  intros H. unfold resize_frame_smart, fitted_size.
  destruct (Z.eq_dec (frame_height frame) 0) as [E | N].
  - rewrite E. reflexivity.
  - destruct H as [H | H]; [contradiction|]. rewrite H.
    rewrite (truediv_some _ (inject_Z (frame_height frame)))
      by now apply inject_Z_nonzero.
    cbn [bind].
    rewrite truediv_none by (apply round_zero, zero_div). reflexivity.
Qed.

Lemma resize_frame_smart_empty_frame_witness :
  resize_frame_smart black_cv (mkFrame 0 4 true []) 80 24 = None.
Proof.
  apply (resize_frame_smart_empty_frame black_cv (mkFrame 0 4 true []) 80 24).
  left. reflexivity.
Defined.

Lemma last_default {A} (l : list A) (d1 d2 : A) :
  l <> [] -> last l d1 = last l d2.
Proof.
  induction l as [|x [|y l] IH]; intros N; [congruence | reflexivity |].
  change (last (y :: l) d1 = last (y :: l) d2). apply IH. discriminate.
Qed.

Lemma upscale_steps_nil (fuel : nat) (cw ch tw th : Z) :
  upscale_steps fuel cw ch tw th = Some [] -> tw <= cw /\ th <= ch.
Proof.
  destruct fuel; cbn [upscale_steps];
    destruct ((cw <? tw) || (ch <? th)) eqn:C; try discriminate;
    try (apply orb_false_iff in C; rewrite !Z.ltb_ge in C; intros _; lia).
  destruct (upscale_steps fuel _ _ tw th); discriminate.
Qed.

(** The steps the doubling loop plans stay within the target, and the
    last one is the target. *)
Lemma upscale_steps_reach (fuel : nat) : forall cw ch tw th steps,
  upscale_steps fuel cw ch tw th = Some steps ->
  Forall (fun s => fst s <= tw /\ snd s <= th) steps /\
  (steps <> [] -> last steps (cw, ch) = (tw, th)).
Proof.
  induction fuel as [|fuel IH]; intros cw ch tw th steps;
    cbn [upscale_steps].
  - destruct (_ || _); [discriminate|].
    intros E; injection E as <-. split; [constructor | congruence].
  - destruct ((cw <? tw) || (ch <? th)) eqn:C.
    + rewrite !min_spec.
      destruct (upscale_steps fuel _ _ tw th) as [rest|] eqn:R;
        [|discriminate].
      cbn [bind]. intros E; injection E as <-.
      destruct (IH (Z.min (cw * 2) tw) (Z.min (ch * 2) th) tw th rest R)
        as [F L]. split.
      * constructor; [simpl; lia | exact F].
      * intros _. destruct rest as [|s rest].
        -- simpl. apply upscale_steps_nil in R. f_equal; lia.
        -- rewrite <- L by discriminate.
           change (last ((Z.min (cw * 2) tw, Z.min (ch * 2) th) :: s :: rest)
                     (cw, ch))
             with (last (s :: rest) (cw, ch)).
           apply last_default. discriminate.
    + intros E; injection E as <-. split; [constructor | congruence].
Qed.

(** X10: the multi-step upscaling ends on exactly the target size. For
    a frame and a target of at least one pixel each way, and an OpenCV
    that accepts such resizes, [_super_resolution_resize] returns a
    frame of the target width and height. *)
Theorem super_resolution_exact (cv : OpenCV) (frame : Frame) (w h : Z) :
  opencv_accepts cv ->
  1 <= frame_width frame -> 1 <= frame_height frame -> 1 <= w -> 1 <= h ->
  exists f',
    _super_resolution_resize cv frame w h = Some f' /\
    frame_width f' = w /\ frame_height f' = h.
Proof.
  intros A Hfw Hfh Hw Hh.
  destruct (super_resolution_total cv A frame w h Hfw Hfh Hw Hh) as [f' E].
  exists f'. split; [exact E|]. now apply super_resolution_shape in E.
Qed.

Lemma super_resolution_exact_witness :
  exists f',
    _super_resolution_resize black_cv black_4x4 40 20 = Some f' /\
    frame_width f' = 40 /\ frame_height f' = 20.
Proof.
  apply (super_resolution_exact black_cv black_4x4 40 20);
    [exact black_cv_accepts | | | |]; vm_compute; discriminate.
Defined.

(** ** The geometry of the rendered text *)

Lemma gray_levels_columns {glyph} cv (self : ASCIIConverter glyph) f g :
  gray_levels cv self f = Some g ->
  Forall (fun row => List.length row = Z.to_nat (frame_width f)) g.
Proof.
  unfold gray_levels, astype_float32, astype_float32_gray.
  assert (S : forall A (h : nat -> list A) n k,
             (forall i, List.length (h i) = k) ->
             Forall (fun row => List.length row = k) (map h (seq 0 n))).
  { intros A h n k Hh. apply Forall_forall. intros row Hin.
    apply in_map_iff in Hin. destruct Hin as [i [<- _]]. apply Hh. }
  destruct (frame_color f).
  - destruct (algorithm self); simpl;
      try (destruct (gray_samples cv f); simpl; [|discriminate]);
      intros E; injection E as <-;
      rewrite ?map_map; apply S; intros i;
      rewrite ?length_map, length_seq; reflexivity.
  - intros E; injection E as <-. apply S. intros i.
    now rewrite length_map, length_seq.
Qed.

Lemma normalise_shape cv enhance (g : list (list Q)) :
  map (@List.length Q) (normalise cv enhance g) = map (@List.length Q) g.
Proof.
  unfold normalise. destruct enhance; rewrite !map_map;
    apply map_ext; intros row; now rewrite ?length_map.
Qed.

Lemma convert_lines_rows {glyph} (dt : FloatType)
    (self : ASCIIConverter glyph) (brightness : list (list Q))
    (height : Z) (lines : list (list glyph)) :
  Z.of_nat (List.length brightness) <= height ->
  convert_lines dt self brightness height = Some lines ->
  map (@List.length glyph) lines = map (@List.length Q) brightness.
Proof.
  intros Hl E.
  assert (S : convert_frame_chunk dt self brightness 0 = Some lines).
  { unfold convert_lines in E.
    destruct (use_threading self && (50 <? height)); [|exact E].
    rewrite <- E. symmetry. apply chunked_equals_single; [|exact Hl].
    intros Z0. unfold convert_chunks_threaded, Py.floordiv in E.
    rewrite Z0 in E. discriminate. }
  unfold convert_frame_chunk in S.
  apply (mapM_Forall2 _ (fun row out => List.length out = List.length row))
    in S.
  - clear E Hl. induction S as [|row out rows outs H _ IH]; simpl;
      [reflexivity | now rewrite H, IH].
  - intros row out. apply mapM_length.
Qed.

Lemma fitted_size_le (fw fh tw th cols rows : Z) :
  1 <= fw <= 2 ^ 24 -> 1 <= fh <= 2 ^ 24 -> 1 <= tw <= 2 ^ 24 -> 1 <= th ->
  fitted_size fw fh tw th = Some (cols, rows) ->
  cols <= tw /\ rows <= th.
Proof.
  intros Hfw Hfh Htw Hth E.
  destruct (fitted_size_cases fw fh tw th Hfw Hfh Htw Hth)
    as [c [r [S D]]].
  rewrite S in E. injection E as -> ->.
  destruct D as [D | D]; lia.
Qed.

(** X11: the text the pipeline renders has the fitted geometry. When
    [convert_frame_to_ascii] returns for a frame of 1 to [2^24] pixels
    each way and a width of at most [2^24], the text is made of as many
    lines as the size fitted on lines 217-227 has rows, joined by
    newlines, every line has as many characters as that size has
    columns, and that size is within the width and height asked for
    (each raised to 1). *)
Theorem rendered_text_geometry {glyph} (newline : glyph) (cv : OpenCV)
    (self : ASCIIConverter glyph) (frame : Frame) (width height : Z)
    (enhance : bool) (text : list glyph) :
  1 <= frame_width frame <= 2 ^ 24 -> 1 <= frame_height frame <= 2 ^ 24 ->
  width <= 2 ^ 24 ->
  convert_frame_to_ascii newline cv self (Some frame) width (Some height)
    enhance = Some text ->
  exists cols rows lines,
    fitted_size (frame_width frame) (frame_height frame)
      (Z.max 1 width) (Z.max 1 height) = Some (cols, rows) /\
    cols <= Z.max 1 width /\ rows <= Z.max 1 height /\
    text = join newline lines /\
    List.length lines = Z.to_nat rows /\
    Forall (fun l => List.length l = Z.to_nat cols) lines.
Proof.
  intros Hfw Hfh Hwd. unfold convert_frame_to_ascii.
  assert (Hs : (frame_size frame =? 0) = false).
  { apply Z.eqb_neq. unfold frame_size.
    assert (1 <= frame_height frame * frame_width frame) by nia.
    destruct (frame_color frame); lia. }
  rewrite Hs. cbn [bind]. rewrite !max_spec.
  destruct (resize_frame_smart cv frame (Z.max 1 width) (Z.max 1 height))
    as [resized|] eqn:R; [|discriminate]. cbn [bind].
  destruct (gray_levels cv self resized) as [g|] eqn:G; [|discriminate].
  cbn [bind].
  destruct (convert_lines float32 self (normalise cv enhance g)
              (Z.max 1 height))
    as [lines|] eqn:C; [|discriminate]. cbn [bind].
  intros E; injection E as <-.
  apply resize_frame_smart_shape in R.
  assert (H1w : 1 <= Z.max 1 width <= 2 ^ 24) by lia.
  assert (H1h : 1 <= Z.max 1 height) by lia.
  destruct (fitted_size_le _ _ _ _ _ _ Hfw Hfh H1w H1h R) as [W1 W2].
  assert (Gr := gray_levels_rows cv self resized g G).
  assert (Gc := gray_levels_columns cv self resized g G).
  apply convert_lines_rows in C.
  2:{ assert (L : List.length (normalise cv enhance g) = List.length g).
      { rewrite <- (length_map (@List.length Q)), normalise_shape.
        apply length_map. }
      rewrite L, Gr. lia. }
  rewrite normalise_shape in C.
  exists (frame_width resized), (frame_height resized), lines.
  repeat split; try assumption.
  - rewrite <- Gr, <- (length_map (@List.length glyph)), C.
    apply length_map.
  - apply Forall_forall. intros l Hin.
    apply (in_map (@List.length glyph)) in Hin. rewrite C in Hin.
    apply in_map_iff in Hin. destruct Hin as [row [<- Hrow]].
    rewrite Forall_forall in Gc. now apply Gc.
Qed.

Lemma rendered_text_geometry_witness :
  exists cols rows lines,
    fitted_size 4 4 (Z.max 1 4) (Z.max 1 2) = Some (cols, rows) /\
    cols <= Z.max 1 4 /\ rows <= Z.max 1 2 /\
    list_ascii_of_string "    " ++ "010"%char :: list_ascii_of_string "    "
    = join "010"%char lines /\
    List.length lines = Z.to_nat rows /\
    Forall (fun l => List.length l = Z.to_nat cols) lines.
Proof.
  apply (rendered_text_geometry "010"%char black_cv minimal_converter
           black_4x4 4 2 true);
    vm_compute; try split; reflexivity || discriminate.
Defined.

(** ** The element-wise brightness strategies *)

Lemma maxf_cases (a b : Q) : Py.maxf a b = a \/ Py.maxf a b = b.
Proof. unfold Py.maxf. destruct (Qlt_le_dec a b); auto. Qed.

Lemma minf_cases (a b : Q) : Py.minf a b = a \/ Py.minf a b = b.
Proof. unfold Py.minf. destruct (Qlt_le_dec b a); auto. Qed.

Lemma max3_within (lo hi b g r : Q) :
  (lo <= b /\ b <= hi)%Q -> (lo <= g /\ g <= hi)%Q ->
  (lo <= r /\ r <= hi)%Q ->
  (lo <= max3 b g r /\ max3 b g r <= hi)%Q /\
  (lo <= min3 b g r /\ min3 b g r <= hi)%Q.
Proof.
  intros B G R. unfold max3, min3.
  destruct (maxf_cases b g) as [-> | ->];
    destruct (maxf_cases b r) as [E1 | E1];
    destruct (maxf_cases g r) as [E2 | E2];
    destruct (minf_cases b g) as [-> | ->];
    destruct (minf_cases b r) as [E3 | E3];
    destruct (minf_cases g r) as [E4 | E4];
    rewrite ?E1, ?E2, ?E3, ?E4; tauto.
Qed.

(** On a floating-point array the lightness of a pixel lies between its
    channels' bounds when these are values of the type: the sum of two
    channels is rounded between the doubled bounds and halving is
    exact. *)
Lemma lightness_float_within (t : FloatType) (lo hi : Q) (p : BGR) :
  (fl t lo == lo)%Q -> (fl t hi == hi)%Q ->
  channels_within lo hi p ->
  (lo <= lightness (floating t) p /\ lightness (floating t) p <= hi)%Q.
Proof.
  destruct p as [[b g] r]. intros Elo Ehi [B [G R]].
  destruct (max3_within lo hi b g r B G R) as [[M1 M2] [N1 N2]].
  unfold lightness.
  set (mx := max3 b g r) in *. set (mn := min3 b g r) in *.
  rewrite fl_half.
  assert (L : (fl t (lo * 2) <= fl t (mx + mn))%Q) by (apply fl_monotone; lra).
  assert (U : (fl t (mx + mn) <= fl t (hi * 2))%Q) by (apply fl_monotone; lra).
  rewrite fl_double, Elo in L. rewrite fl_double, Ehi in U.
  unfold Qdiv. change (/ 2)%Q with (1 # 2)%Q. split; lra.
Qed.

(** On a [uint8] array the sum of the largest and the smallest channel
    wraps, so the lightness never exceeds 127.5. *)
Lemma lightness_uint8_within (p : BGR) :
  (0 <= lightness uint8 p /\ lightness uint8 p <= 255 # 2)%Q.
Proof.
  destruct p as [[b g] r]. unfold lightness.
  set (k := (Qfloor (max3 b g r) + Qfloor (min3 b g r)) mod 256).
  assert (K : 0 <= k < 256) by (apply Z.mod_pos_bound; lia).
  assert (K0 : (0 <= inject_Z k)%Q).
  { change 0%Q with (inject_Z 0). rewrite <- Zle_Qle. lia. }
  assert (K1 : (inject_Z k <= 255)%Q).
  { change 255%Q with (inject_Z 255). rewrite <- Zle_Qle. lia. }
  rewrite (fl_exact float64 (inject_Z k / 2) k (-1)); [|lia | reflexivity].
  unfold Qdiv. change (/ 2)%Q with (1 # 2)%Q. split; lra.
Qed.

(** X12: the range of the lightness strategy. On a floating-point array
    whose channels all lie in [[lo, hi]], two values of the type, every
    lightness lies in [[lo, hi]]; on a [uint8] array the sum
    [max + min] wraps modulo 256, so every lightness lies in
    [[0, 127.5]] however bright the pixel. In both cases the grid has
    the rows and columns of the frame. *)
Theorem lightness_range (cv : OpenCV) (dt : DType)
    (pixel_values : list (list BGR)) (lo hi : Q) :
  Forall (Forall (channels_within lo hi)) pixel_values ->
  match dt with
  | uint8 => True
  | floating t => (fl t lo == lo)%Q /\ (fl t hi == hi)%Q
  end ->
  exists grid,
    calculate_brightness cv dt LIGHTNESS pixel_values = Some grid /\
    grid_shape grid = grid_shape pixel_values /\
    Forall (Forall (fun v =>
                      match dt with
                      | uint8 => (0 <= v /\ v <= 255 # 2)%Q
                      | floating _ => (lo <= v /\ v <= hi)%Q
                      end)) grid.
Proof.
  intros Hpx Hdt. eexists. split; [reflexivity|]. split.
  - unfold grid_shape. rewrite length_map, map_map. f_equal.
    apply map_ext. intros row. apply length_map.
  - apply Forall_map. eapply Forall_impl; [|exact Hpx].
    intros row Hrow. apply Forall_map.
    eapply Forall_impl; [|exact Hrow]. intros p Hp.
    destruct dt as [|t].
    + apply lightness_uint8_within.
    + destruct Hdt as [Elo Ehi]. now apply lightness_float_within.
Qed.

Lemma lightness_range_witness :
  exists grid,
    calculate_brightness black_cv (floating float32) LIGHTNESS
      [[(10, 200, 30)%Q]] = Some grid /\
    grid_shape grid = grid_shape [[(10, 200, 30)%Q]] /\
    Forall (Forall (fun v => (0 <= v /\ v <= 255)%Q)) grid.
Proof.
  apply (lightness_range black_cv (floating float32)
           [[(10, 200, 30)%Q]] 0 255).
  - repeat constructor; vm_compute; discriminate.
  - split; vm_compute; reflexivity.
Defined.

(** A white pixel of a [uint8] frame has lightness 127, less than the
    grey pixel of value 100. *)
Example lightness_white_uint8 (cv : OpenCV) :
  calculate_brightness cv uint8 LIGHTNESS
    [[(255, 255, 255)%Q; (100, 100, 100)%Q]]
  = Some [[127; 100]%Q].
Proof. vm_compute. reflexivity. Qed.

(** ** Loading and the output geometry *)

Lemma planner_min_one (tw th : Z) (shape : Z * Z) (q : string) (w h : Z) :
  get_optimal_dimensions tw th shape q = Some (w, h) -> 1 <= w /\ 1 <= h.
Proof.
  intros E. apply planner_result in E. destruct E as [ew [eh E]].
  injection E as -> ->. lia.
Qed.

Lemma ratio_nonzero (w h : Z) :
  w <> 0 -> h <> 0 -> ~ (inject_Z w / inject_Z h == 0)%Q.
Proof.
  intros Hw Hh. unfold Qeq, Qdiv, Qmult, Qinv.
  destruct h as [|h|h]; simpl; lia.
Qed.

Lemma compute_1440p_bounds world self shape cols rows :
  _compute_1440p_ascii_size world self shape = Some (cols, rows) ->
  1 <= cols <= Z.max 1 (fst (get_terminal_size world) - 2) /\
  1 <= rows <= Z.max 1 (snd (get_terminal_size world) - 2).
Proof.
  unfold _compute_1440p_ascii_size.
  destruct (get_terminal_size world) as [term_w term_h].
  destruct shape as [frame_h frame_w]. unfold bind.
  repeat match goal with
         | |- context [match Py.div ?a ?b with _ => _ end] =>
             destruct (Py.div a b); [|discriminate]
         end.
  destruct (_ <=? _).
  - intros E; injection E as <- <-. rewrite !max_spec, !min_spec.
    simpl. lia.
  - destruct (Py.div _ _); [|discriminate].
    intros E; injection E as <- <-. rewrite !max_spec, !min_spec.
    simpl. lia.
Qed.

(** X17: the 1440p-locked geometry fits the terminal. For a frame with
    columns and a character cell of non-zero size,
    [_compute_1440p_ascii_size] returns a geometry of at least one cell
    each way and at most the terminal less its margin of two (or 1 where
    that is less). *)
Theorem compute_1440p_fits_terminal (world : World)
    (self : ASCIIVideoPlayer) (frame_h frame_w : Z) :
  char_px_w self <> 0 -> char_px_h self <> 0 -> frame_w <> 0 ->
  exists cols rows,
    _compute_1440p_ascii_size world self (frame_h, frame_w)
    = Some (cols, rows) /\
    1 <= cols <= Z.max 1 (fst (get_terminal_size world) - 2) /\
    1 <= rows <= Z.max 1 (snd (get_terminal_size world) - 2).
Proof.
  intros Hw Hh Hf.
  destruct (_compute_1440p_ascii_size world self (frame_h, frame_w))
    as [[cols rows]|] eqn:E.
  - exists cols, rows. split; [reflexivity|].
    now apply compute_1440p_bounds in E.
  - exfalso. revert E. unfold _compute_1440p_ascii_size.
    destruct (get_terminal_size world) as [term_w term_h].
    assert (M : forall z, Py.max 1 z <> 0) by (intros z; rewrite max_spec; lia).
    rewrite (div_some (inject_Z frame_w)) by (apply inject_Z_nonzero, M).
    cbn [bind].
    rewrite (div_some (inject_Z (char_px_w self)) (inject_Z (Py.max 1 _)))
      by (apply inject_Z_nonzero, M).
    cbn [bind].
    rewrite (div_some 2560) by now apply inject_Z_nonzero.
    cbn [bind].
    rewrite (div_some 1440) by now apply inject_Z_nonzero.
    cbn [bind].
    rewrite (div_some _ (inject_Z frame_w / _)) by (apply ratio_nonzero; auto).
    cbn [bind].
    rewrite (div_some (inject_Z (char_px_h self))) by now apply inject_Z_nonzero.
    cbn [bind].
    destruct (_ <=? _); cbn [bind]; [discriminate|].
    rewrite (div_some (inject_Z (char_px_w self))) by now apply inject_Z_nonzero.
    cbn [bind]. discriminate.
Qed.

Lemma compute_1440p_fits_terminal_witness :
  exists cols rows,
    _compute_1440p_ascii_size still_world (new_player 10) (1080, 1920)
    = Some (cols, rows) /\
    1 <= cols <= Z.max 1 (80 - 2) /\ 1 <= rows <= Z.max 1 (24 - 2).
Proof.
  apply (compute_1440p_fits_terminal still_world (new_player 10) 1080 1920);
    discriminate.
Defined.

Lemma ascii_size_min world self shape q w h :
  ascii_size world self shape q = Some (w, h) -> 1 <= w /\ 1 <= h.
Proof.
  unfold ascii_size. destruct (lock_dimensions self).
  - intros E. apply compute_1440p_bounds in E. lia.
  - destruct (get_terminal_size world). apply planner_min_one.
Qed.

Lemma load_image_success world s s' path :
  _load_image world s path = (true, s') ->
  is_image s' = is_image s /\ media_path s' = media_path s /\
  (exists image, static_image s' = Some image) /\ geometry_ok s'.
Proof.
  unfold _load_image.
  destruct (cv2_imread world path) as [image|]; [|discriminate].
  destruct (ascii_size _ _ _ _) as [[w h]|] eqn:A; [|discriminate].
  intros E; injection E as <-. apply ascii_size_min in A.
  unfold geometry_ok. simpl. repeat split; try tauto. now exists image.
Qed.

Lemma load_video_success world s s' path :
  _load_video world s path = (true, s') ->
  is_image s' = is_image s /\ media_path s' = media_path s /\
  (exists c, cap s' = Some c /\ isOpened c = true) /\ geometry_ok s'.
Proof.
  unfold _load_video. cbv zeta.
  destruct (isOpened (cv2_VideoCapture world path)) eqn:O; [|discriminate].
  simpl negb. cbv iota.
  destruct (ascii_size _ _ _ _) as [[w h]|] eqn:A; [|discriminate].
  intros E; injection E as <-. apply ascii_size_min in A.
  unfold geometry_ok. simpl. repeat split; try tauto.
  eexists. split; [reflexivity | exact O].
Qed.

(** X14: a load that succeeds leaves a playable player. When
    [load_media] returns [True] the path exists, [str(Path(path))] is
    recorded as the media path, the media check of [play] passes, and
    the geometry is at least one cell each way. *)
Theorem load_media_success (world : World) (self self' : ASCIIVideoPlayer)
    (path : string) :
  load_media world self path = (true, self') ->
  path_exists world path = true /\
  media_path self' = Some (path_str world path) /\
  media_loaded self' = true /\
  geometry_ok self'.
Proof.
  unfold load_media.
  destruct (path_exists world path); [|discriminate]. simpl negb.
  cbv zeta iota.
  set (s0 := set_is_image _ _).
  assert (P0 : media_path s0 = Some (path_str world path))
    by (unfold s0; destruct (cap self); reflexivity).
  clearbody s0.
  destruct (is_image s0) eqn:I; intros E.
  - apply load_image_success in E.
    destruct E as [Ei [Ep [[image Es] G]]].
    unfold media_loaded. rewrite Ei, I, Es, Ep. auto.
  - apply load_video_success in E.
    destruct E as [Ei [Ep [[c [Ec Eo]] G]]].
    unfold media_loaded. rewrite Ei, I, Ec, Ep. auto.
Qed.

Lemma load_media_success_witness :
  path_exists clip_world "./clip.mp4" = true /\
  media_path (snd (load_media clip_world (new_player 10) "./clip.mp4"))
  = Some (path_str clip_world "./clip.mp4") /\
  media_loaded (snd (load_media clip_world (new_player 10) "./clip.mp4"))
  = true /\
  geometry_ok (snd (load_media clip_world (new_player 10) "./clip.mp4")).
Proof.
  apply (load_media_success clip_world (new_player 10)
           (snd (load_media clip_world (new_player 10) "./clip.mp4"))
           "./clip.mp4").
  vm_compute. reflexivity.
Defined.

(** On a POSIX system the path [./clip.mp4] is recorded as
    [clip.mp4]. *)
Example load_media_normalises_path :
  media_path (snd (load_media clip_world (new_player 10) "./clip.mp4"))
  = Some "clip.mp4"%string.
Proof. vm_compute. reflexivity. Qed.

Lemma same_controls_refl self : same_controls self self.
Proof. unfold same_controls. tauto. Qed.

Lemma load_image_controls world s path :
  same_controls (snd (_load_image world s path)) s /\
  (ascii_width (snd (_load_image world s path)) = ascii_width s /\
   ascii_height (snd (_load_image world s path)) = ascii_height s
   \/ geometry_ok (snd (_load_image world s path))).
Proof.
  unfold _load_image.
  destruct (cv2_imread world path) as [image|].
  - destruct (ascii_size _ _ _ _) as [[w h]|] eqn:A; simpl.
    + apply ascii_size_min in A. unfold same_controls, geometry_ok; simpl.
      tauto.
    + unfold same_controls; simpl. tauto.
  - simpl. split; [apply same_controls_refl | tauto].
Qed.

Lemma load_video_controls world s path :
  same_controls (snd (_load_video world s path)) s /\
  (ascii_width (snd (_load_video world s path)) = ascii_width s /\
   ascii_height (snd (_load_video world s path)) = ascii_height s
   \/ geometry_ok (snd (_load_video world s path))).
Proof.
  unfold _load_video. cbv zeta.
  destruct (negb _).
  - unfold same_controls; simpl. tauto.
  - destruct (ascii_size _ _ _ _) as [[w h]|] eqn:A; simpl.
    + apply ascii_size_min in A. unfold same_controls, geometry_ok; simpl.
      tauto.
    + unfold same_controls; simpl. tauto.
Qed.

Lemma load_media_effect world self path :
  same_controls (snd (load_media world self path)) self /\
  (ascii_width (snd (load_media world self path)) = ascii_width self /\
   ascii_height (snd (load_media world self path)) = ascii_height self
   \/ geometry_ok (snd (load_media world self path))).
Proof.
  unfold load_media.
  destruct (negb (path_exists world path)).
  - simpl. split; [apply same_controls_refl | tauto].
  - cbv zeta.
    set (s0 := set_is_image _ _).
    assert (C0 : same_controls s0 self /\ ascii_width s0 = ascii_width self
                 /\ ascii_height s0 = ascii_height self).
    { unfold s0, same_controls. destruct (cap self); simpl; tauto. }
    clearbody s0. destruct C0 as [C0 [W0 H0]].
    assert (T : forall s, same_controls s s0 -> same_controls s self).
    { unfold same_controls in *. intros s Hs.
      repeat match goal with H : _ /\ _ |- _ => destruct H end.
      repeat split; congruence. }
    destruct (is_image s0).
    + destruct (load_image_controls world s0 (path_str world path)) as [C G].
      split; [now apply T|]. rewrite <- W0, <- H0. exact G.
    + destruct (load_video_controls world s0 (path_str world path)) as [C G].
      split; [now apply T|]. rewrite <- W0, <- H0. exact G.
Qed.

(** X15: loading never touches the playback controls. Whatever the path
    and whether the load succeeds or not, [is_playing], [is_paused], the
    speed, the frame buffer and its size, the stop event, the interface
    switches, the quality mode, the lock and the character size are
    what they were. *)
Theorem load_media_keeps_controls (world : World) (self : ASCIIVideoPlayer)
    (path : string) :
  same_controls (snd (load_media world self path)) self.
Proof. apply load_media_effect. Qed.

Lemma play_without_media self show_ui show_performance fullscreen trace
    failed :
  media_loaded self = false ->
  play self show_ui show_performance fullscreen trace failed = (false, self).
Proof. intros H. unfold play. now rewrite H. Qed.

(** X16: a player whose load failed refuses to play. After [load_media]
    on a path that does not exist, [play] on a new player returns
    [False] without starting anything: the player is still the new
    player. *)
Theorem play_after_failed_load (world : World) (buffer_size : Z)
    (path : string) (show_ui show_performance fullscreen : bool)
    (trace : list Event) (failed : bool) :
  path_exists world path = false ->
  play (snd (load_media world (new_player buffer_size) path))
    show_ui show_performance fullscreen trace failed
  = (false, new_player buffer_size).
Proof.
  intros H. unfold load_media. rewrite H. simpl snd.
  now apply play_without_media.
Qed.

Lemma play_after_failed_load_witness :
  play (snd (load_media empty_world (new_player 10) "missing.mp4"))
    true true false [Buffering true; Displaying] false
  = (false, new_player 10).
Proof.
  apply (play_after_failed_load empty_world 10 "missing.mp4").
  reflexivity.
Defined.

(** ** The geometry across every call that sets it *)

Lemma handle_resize_geometry self old_size new_size :
  geometry_ok self -> geometry_ok (_handle_resize self old_size new_size).
Proof.
  intros G. unfold _handle_resize.
  destruct (lock_dimensions self); [exact G|].
  destruct (loaded_shape self); [|exact G].
  destruct (get_optimal_dimensions _ _ _ _) as [[w h]|] eqn:E; [|exact G].
  apply planner_min_one in E. unfold geometry_ok. simpl. exact E.
Qed.

Lemma set_quality_mode_geometry world self q :
  geometry_ok self -> geometry_ok (snd (set_quality_mode world self q)).
Proof.
  intros G. unfold set_quality_mode. cbv zeta.
  destruct (loaded_shape _); [|exact G].
  destruct (get_terminal_size world) as [tw th].
  destruct (get_optimal_dimensions _ _ _ _) as [[w h]|] eqn:E; [|exact G].
  apply planner_min_one in E. unfold geometry_ok. simpl. exact E.
Qed.

Lemma set_lock_1440p_geometry world self enabled w h :
  geometry_ok self -> geometry_ok (set_lock_1440p world self enabled w h).
Proof.
  intros G. unfold set_lock_1440p. cbv zeta.
  set (s := match h with Some _ => _ | None => _ end).
  assert (Gs : geometry_ok s).
  { unfold s. destruct w as [w|], h as [h|];
      repeat match goal with
             | |- context [if ?b then _ else _] => destruct b
             end; exact G. }
  clearbody s. destruct enabled; [|exact Gs].
  destruct (loaded_shape s); [|exact Gs].
  destruct (_compute_1440p_ascii_size world s p) as [[c r]|] eqn:E;
    [|exact Gs].
  apply compute_1440p_bounds in E. unfold geometry_ok. simpl. lia.
Qed.

Lemma geometry_call_ok self c :
  geometry_ok self -> geometry_ok (geometry_call self c).
Proof.
  intros G. destruct c as [world path | o n | world q | world e w h | w h];
    simpl.
  - destruct (load_media_effect world self path) as [_ [[Ew Eh] | G']];
      [|exact G']. unfold geometry_ok. now rewrite Ew, Eh.
  - now apply handle_resize_geometry.
  - now apply set_quality_mode_geometry.
  - now apply set_lock_1440p_geometry.
  - unfold geometry_ok in *.
    destruct (Z.ltb_spec 0 w), (Z.ltb_spec 0 h); simpl; lia.
Qed.

(** X18: the output geometry is at least one cell each way at all times.
    It is so in a new player, and every sequence of loads, terminal
    resizes, quality changes, 1440p locks and command-line overrides, in
    whatever worlds, keeps it so. *)
Theorem geometry_always_positive (buffer_size : Z)
    (calls : list GeometryCall) :
  geometry_ok (fold_left geometry_call calls (new_player buffer_size)).
Proof.
  assert (G : forall self, geometry_ok self ->
                           geometry_ok (fold_left geometry_call calls self)).
  { induction calls as [|c calls IH]; intros self H; simpl; [exact H|].
    now apply IH, geometry_call_ok. }
  apply G. unfold geometry_ok. simpl. lia.
Qed.

Lemma set_lock_1440p_locks world self w h :
  lock_dimensions (set_lock_1440p world self true w h) = true.
Proof.
  unfold set_lock_1440p. cbv zeta.
  set (s := match h with Some _ => _ | None => _ end).
  assert (L : lock_dimensions s = true).
  { unfold s. destruct w as [w|], h as [h|];
      repeat match goal with
             | |- context [if ?b then _ else _] => destruct b
             end; reflexivity. }
  clearbody s. destruct (loaded_shape s); [|exact L].
  destruct (_compute_1440p_ascii_size world s p) as [[c r]|]; exact L.
Qed.

(** X19: once the geometry is locked with [set_lock_1440p], no terminal
    resize changes the player, however many follow. *)
Theorem locked_geometry_ignores_resizes (world : World)
    (self : ASCIIVideoPlayer) (char_px_w char_px_h : option Z)
    (resizes : list ((Z * Z) * (Z * Z))) :
  let locked := set_lock_1440p world self true char_px_w char_px_h in
  fold_left (fun p r => _handle_resize p (fst r) (snd r)) resizes locked
  = locked.
Proof.
  intros locked.
  assert (L : lock_dimensions locked = true) by apply set_lock_1440p_locks.
  clearbody locked.
  induction resizes as [|r resizes IH]; simpl; [reflexivity|].
  unfold _handle_resize at 2. rewrite L. exact IH.
Qed.

(** ** Backpressure and the order of frames *)

Lemma process_key_buffer self key :
  buffer_size (_process_key self key) = buffer_size self /\
  maxsize (frame_buffer (_process_key self key))
  = maxsize (frame_buffer self) /\
  qsize (frame_buffer (_process_key self key))
  <= qsize (frame_buffer self).
Proof.
  unfold _process_key, stop, restart, toggle_pause, change_speed.
  assert (0 <= qsize (frame_buffer self)) by (unfold qsize; lia).
  case_ifs; simpl; try (unfold qsize; simpl; lia); try lia.
  destruct (cap self); simpl; unfold qsize; simpl; lia.
Qed.

Lemma seek_buffer self n :
  buffer_size (seek self n) = buffer_size self /\
  maxsize (frame_buffer (seek self n)) = maxsize (frame_buffer self) /\
  qsize (frame_buffer (seek self n)) <= qsize (frame_buffer self).
Proof.
  unfold seek.
  assert (0 <= qsize (frame_buffer self)) by (unfold qsize; lia).
  destruct (cap self); [|lia].
  destruct (_ && _); simpl; unfold qsize; simpl; lia.
Qed.

Lemma display_get_buffer self :
  buffer_size (display_get self) = buffer_size self /\
  maxsize (frame_buffer (display_get self)) = maxsize (frame_buffer self) /\
  qsize (frame_buffer (display_get self)) <= qsize (frame_buffer self).
Proof.
  unfold display_get, get, qsize.
  destruct (items (frame_buffer self)) as [|[n f] rest] eqn:E; simpl;
    rewrite ?E; simpl; lia.
Qed.

Lemma put_ready_step st e : put_ready st -> put_ready (step st e).
Proof.
  destruct st as [pc self]. unfold put_ready. simpl fst. simpl snd.
  intros [M R].
  destruct e as [t | | key | n]; simpl.
  - unfold buffer_step.
    destruct pc as [| image | | | frame |].
    + destruct (is_image self); [|now split].
      destruct (static_image self); [|now split].
      destruct (Z.eqb_spec (qsize (frame_buffer self)) 0); now split.
    + unfold put, full.
      destruct ((0 <? maxsize (frame_buffer self))
                && (maxsize (frame_buffer self) <=? qsize (frame_buffer self)));
        [destruct t|]; simpl; auto.
    + destruct (stop_event self); now split.
    + destruct (cap self) as [c|]; [|now split].
      destruct (negb (stop_event self) && isOpened c); [|now split].
      destruct (Z.ltb_spec (qsize (frame_buffer self)) (buffer_size self));
        simpl; [|now split].
      destruct (negb (is_paused self)); [|now split].
      destruct (read c) as [c' [frame|]]; simpl; now split.
    + unfold put, full.
      destruct ((0 <? maxsize (frame_buffer self))
                && (maxsize (frame_buffer self) <=? qsize (frame_buffer self)));
        [destruct t|]; simpl; auto.
    + now split.
  - destruct (display_get_buffer self) as [B [M' Q]].
    rewrite B, M'. split; [exact M|].
    assert (0 <= qsize (frame_buffer (display_get self)))
      by (unfold qsize; lia).
    destruct pc; auto; lia.
  - destruct (process_key_buffer self key) as [B [M' Q]].
    rewrite B, M'. split; [exact M|].
    assert (0 <= qsize (frame_buffer (_process_key self key)))
      by (unfold qsize; lia).
    destruct pc; auto; lia.
  - destruct (seek_buffer self n) as [B [M' Q]].
    rewrite B, M'. split; [exact M|].
    assert (0 <= qsize (frame_buffer (seek self n))) by (unfold qsize; lia).
    destruct pc; auto; lia.
Qed.

Lemma put_ready_run trace : forall st, put_ready st -> put_ready (run st trace).
Proof.
  induction trace as [|e trace IH]; intros st H; simpl; [exact H|].
  now apply IH, put_ready_step.
Qed.

Lemma put_ready_not_full st :
  put_ready st ->
  match fst st with
  | BufPut _ | BufImagePut _ => full (frame_buffer (snd st)) = false
  | _ => True
  end.
Proof.
  destruct st as [pc self]. unfold put_ready, full. simpl.
  intros [M R]. destruct pc; auto.
  - rewrite R. destruct (0 <? _) eqn:P; [|reflexivity]. simpl.
    apply Z.leb_gt. apply Z.ltb_lt in P. exact P.
  - rewrite M. destruct (0 <? _); [|reflexivity]. simpl.
    now apply Z.leb_gt.
Qed.

(** X21: the buffering thread never drops a frame. From the start of
    [_buffer_frames] on a player whose queue was built with
    [buffer_size], whatever the interleaving with the display thread,
    the keys and the seeks, a [put] never finds the buffer full: the
    thread reads a frame only when there is room and nothing else adds
    to the buffer, so [queue.Full] is never raised. *)
Theorem put_never_finds_buffer_full (self : ASCIIVideoPlayer)
    (trace : list Event) :
  maxsize (frame_buffer self) = buffer_size self ->
  let st := run (BufStart, self) trace in
  match fst st with
  | BufPut _ | BufImagePut _ =>
      full (frame_buffer (snd st)) = false /\
      forall timed_out, fst (buffer_step timed_out st) <> fst st
  | _ => True
  end.
Proof.
  intros M st.
  assert (R : put_ready st).
  { apply put_ready_run. split; [exact M | exact I]. }
  assert (F := put_ready_not_full st R).
  destruct st as [pc s]. simpl in *. destruct pc; auto; split; auto;
    intros t; unfold buffer_step, put; rewrite F; simpl; discriminate.
Qed.

Lemma put_never_finds_buffer_full_witness :
  let st := run (BufStart, video_player)
              [Buffering true; Buffering true] in
  match fst st with
  | BufPut _ | BufImagePut _ =>
      full (frame_buffer (snd st)) = false /\
      forall timed_out, fst (buffer_step timed_out st) <> fst st
  | _ => True
  end.
Proof.
  apply (put_never_finds_buffer_full video_player
           [Buffering true; Buffering true]).
  reflexivity.
Defined.

Lemma firstn_snoc {A} (l : list A) (n : nat) (x : A) :
  nth_error l n = Some x -> firstn (S n) l = firstn n l ++ [x].
Proof.
  revert n. induction l as [|y l IH]; intros [|n]; simpl; try discriminate.
  - intros E; injection E as ->. reflexivity.
  - intros E. f_equal. now apply IH.
Qed.

Lemma numbered_nth (frames : list Frame) (n : nat) (f : Frame) :
  nth_error frames n = Some f ->
  nth_error (numbered frames) n = Some (Z.of_nat n, f).
Proof.
  unfold numbered.
  assert (G : forall s k,
             nth_error frames k = Some f ->
             nth_error (combine (map Z.of_nat (seq s (List.length frames)))
                          frames) k = Some (Z.of_nat (s + k), f)).
  { induction frames as [|g frames IH]; intros s [|k]; simpl;
      try discriminate.
    - intros E; injection E as ->. now rewrite Nat.add_0_r.
    - intros E. rewrite (IH (S s) k E). do 3 f_equal. lia. }
  apply (G 0%nat).
Qed.

Lemma prefix_of_firstn {A} (l1 l2 l : list A) (n : nat) :
  l1 ++ l2 = firstn n l -> l1 = firstn (List.length l1) l.
Proof.
  intros E.
  assert (H : firstn (List.length l1) (l1 ++ l2) = l1).
  { rewrite firstn_app, Nat.sub_diag, firstn_0, app_nil_r.
    apply firstn_all. }
  rewrite E, firstn_firstn in H. rewrite <- H at 1.
  f_equal.
  assert (L : (List.length l1 <= n)%nat).
  { assert (K := f_equal (@List.length A) E).
    rewrite length_app, length_firstn in K. lia. }
  lia.
Qed.

(** One undisturbed event keeps the session in order, the log growing
    by what the display thread takes. *)
Lemma in_order_step frames log st e :
  in_order frames log st -> put_ready st -> undisturbed e = true ->
  in_order frames
    (log ++ match e, get (frame_buffer (snd st)) with
            | Displaying, Some (item, _) => [item]
            | _, _ => []
            end)
    (step st e).
Proof.
  destruct st as [pc self]. unfold in_order. simpl fst. simpl snd.
  intros [Hi [Hc [Hl [c [Ec [Ef Hp]]]]]] Hr Hu.
  destruct e as [t | | key | n]; simpl in Hu; try discriminate.
  - rewrite app_nil_r. simpl step. unfold buffer_step.
    destruct pc as [| image | | | frame |]; try contradiction.
    + rewrite Hi. simpl. eauto 10.
    + destruct (stop_event self); simpl; eauto 10.
    + rewrite Ec.
      destruct (negb (stop_event self) && isOpened c); [|simpl; eauto 10].
      destruct (_ && _); [|simpl; eauto 10].
      unfold read. rewrite Hp, Ef.
      destruct (nth_error frames (Z.to_nat (current_frame self)))
        as [f|] eqn:N; simpl.
      * repeat split; try assumption.
        eexists. split; [reflexivity|]. simpl. repeat split; auto.
      * repeat split; try assumption. exists c. auto.
    + assert (F := put_ready_not_full _ Hr). simpl in F.
      unfold put. rewrite F. simpl. destruct Hp as [N P].
      repeat split; try assumption; try lia.
      * rewrite app_assoc, Hl.
        replace (Z.to_nat (current_frame self + 1))
          with (S (Z.to_nat (current_frame self))) by lia.
        rewrite (firstn_snoc _ _ _ (numbered_nth _ _ _ N)).
        now rewrite Z2Nat.id.
      * exists c. repeat split; auto. rewrite P. lia.
    + simpl. eauto 10.
  - simpl step. unfold display_get, get.
    destruct (items (frame_buffer self)) as [|item rest] eqn:E.
    + rewrite app_nil_r. simpl. rewrite E. eauto 10.
    + simpl. repeat split; try assumption.
      * now rewrite <- app_assoc.
      * exists c. auto.
  - rewrite app_nil_r. simpl step.
    apply negb_true_iff, orb_false_iff in Hu. destruct Hu as [Kr Kq].
    unfold _process_key. rewrite Kr, Kq.
    unfold toggle_pause, change_speed.
    case_ifs; simpl; eauto 10.
Qed.

Lemma in_order_run frames trace : forall log st,
  in_order frames log st -> put_ready st ->
  forallb undisturbed trace = true ->
  exists k, log ++ displayed st trace = firstn k (numbered frames).
Proof.
  induction trace as [|e trace IH]; intros log st Ho Hr Hu.
  - simpl. rewrite app_nil_r. exists (List.length log).
    destruct Ho as [_ [_ [Hl _]]]. now apply prefix_of_firstn in Hl.
  - simpl in Hu. apply andb_true_iff in Hu. destruct Hu as [Hu1 Hu2].
    assert (S := in_order_step frames log st e Ho Hr Hu1).
    assert (R := put_ready_step st e Hr).
    destruct (IH _ _ S R Hu2) as [k Ek]. exists k. rewrite <- Ek.
    simpl displayed.
    destruct e; try (now rewrite app_nil_r).
    destruct (get (frame_buffer (snd st))) as [[item q]|];
      [now rewrite <- app_assoc | now rewrite app_nil_r].
Qed.

(** X20: frames are displayed in order, without gaps or repeats. From
    the start of a video at position 0 with an empty buffer, along any
    interleaving of buffering steps, display dequeues and keys other
    than [r] and [q] (and no seek), what the display thread takes out of
    the buffer is the beginning of the file: frame 0 labelled 0, frame 1
    labelled 1, and so on. *)
Theorem frames_displayed_in_order (self : ASCIIVideoPlayer)
    (c : VideoCapture) (trace : list Event) :
  is_image self = false ->
  cap self = Some c -> CAP_PROP_POS_FRAMES c = 0%nat ->
  current_frame self = 0 ->
  items (frame_buffer self) = [] ->
  maxsize (frame_buffer self) = buffer_size self ->
  forallb undisturbed trace = true ->
  exists k,
    displayed (BufStart, self) trace = firstn k (numbered (cap_frames c)).
Proof.
  intros Hi Hc Hp Hf Hb Hm Hu.
  apply (in_order_run (cap_frames c) trace [] (BufStart, self)); auto.
  - unfold in_order. simpl. rewrite Hf, Hb. simpl.
    repeat split; try assumption; try lia.
    exists c. auto.
  - split; [exact Hm | exact I].
Qed.

Lemma frames_displayed_in_order_witness :
  exists k,
    displayed (BufStart, video_player)
      [Buffering true; Buffering true; Buffering true; Displaying;
       Buffering true; Buffering true; KeyPressed " "; Displaying;
       Displaying]
    = firstn k (numbered (repeat black_4x4 5)).
Proof.
  apply (frames_displayed_in_order video_player
           (mkCapture true 5 30 4 4 (repeat black_4x4 5) 0));
    reflexivity.
Defined.

(** What the display thread takes in that session: frames 0 and 1. *)
Example two_frames_displayed :
  displayed (BufStart, video_player)
    [Buffering true; Buffering true; Buffering true; Displaying;
     Buffering true; Buffering true; KeyPressed " "; Displaying;
     Displaying]
  = [(0, black_4x4); (1, black_4x4)].
Proof. reflexivity. Qed.

(** ** The end of the video, seeking and pacing *)

Lemma step_size_done self e :
  fst (step (BufDone, self) e) = BufDone /\
  qsize (frame_buffer (snd (step (BufDone, self) e)))
  <= qsize (frame_buffer self).
Proof.
  destruct e as [t | | key | n]; simpl.
  - split; [reflexivity | lia].
  - split; [reflexivity | apply display_get_buffer].
  - split; [reflexivity | apply process_key_buffer].
  - split; [reflexivity | apply seek_buffer].
Qed.

(** X22: once the buffering thread has finished (the video ended, the
    capture was closed or a stop was seen), nothing feeds the buffer any
    more. Whatever follows, restart and seek included, the thread stays
    finished and the buffer never grows. *)
Theorem finished_thread_never_refills (self : ASCIIVideoPlayer)
    (trace : list Event) :
  fst (run (BufDone, self) trace) = BufDone /\
  qsize (frame_buffer (snd (run (BufDone, self) trace)))
  <= qsize (frame_buffer self).
Proof.
  revert self. induction trace as [|e trace IH]; intros self; simpl.
  - split; [reflexivity | lia].
  - destruct (step_size_done self e) as [P Q].
    destruct (step (BufDone, self) e) as [pc s] eqn:E. simpl in P, Q.
    subst pc. destruct (IH s) as [P' Q']. split; [exact P' | lia].
Qed.

(** The thread finishes when it reads past the last frame. *)
Lemma end_of_video_finishes self c timed_out :
  cap self = Some c -> isOpened c = true -> stop_event self = false ->
  is_paused self = false ->
  qsize (frame_buffer self) < buffer_size self ->
  (List.length (cap_frames c) <= CAP_PROP_POS_FRAMES c)%nat ->
  fst (buffer_step timed_out (BufLoop, self)) = BufDone.
Proof.
  intros Hc Ho Hs Hp Hq He. unfold buffer_step.
  rewrite Hc, Hs, Ho, Hp. simpl.
  destruct (Z.ltb_spec (qsize (frame_buffer self)) (buffer_size self));
    [|lia].
  unfold read. apply nth_error_None in He. now rewrite He.
Qed.



(** X25: the pacing of the display thread. The sleep it computes is
    never negative, covers what is left of the target delay after the
    processing of the frame, and brings the time since the previous
    frame was displayed up to the target delay at least. *)
Theorem sleep_time_paces (target frame_start_time current_time
    last_display_time : Q) :
  let s := sleep_time target frame_start_time current_time
             last_display_time in
  (0 <= s)%Q /\
  (target <= (current_time - frame_start_time) + s)%Q /\
  (target <= (current_time - last_display_time) + s)%Q.
Proof.
  unfold sleep_time, Py.maxf.
  destruct (Qlt_le_dec 0 (target - (current_time - frame_start_time)));
  repeat match goal with
         | |- context [Qlt_le_dec ?a ?b] => destruct (Qlt_le_dec a b)
         end; repeat split; lra.
Qed.

(** X26: the delay aimed at is positive and between [1 / (5 fps)] and
    [10 / fps] for a positive frame rate and a speed within bounds. *)
Lemma target_frame_delay_bounds (video_fps speed : Q) :
  (0 < video_fps)%Q -> (1 # 10 <= speed)%Q -> (speed <= 5)%Q ->
  exists d,
    target_frame_delay video_fps speed = Some d /\
    (1 / (5 * video_fps) <= d)%Q /\ (d <= 10 / video_fps)%Q.
Proof.
  intros Hf H1 H5. unfold target_frame_delay.
  assert (P : (0 < video_fps * speed)%Q) by nra.
  rewrite div_some by (intros E; rewrite E in P; lra).
  eexists. split; [reflexivity|]. split.
  - apply Qle_shift_div_l; [exact P|].
    assert (E : (1 / (5 * video_fps) * (video_fps * speed)
                 == speed / 5)%Q) by (field; lra).
    rewrite E. apply Qle_shift_div_r; lra.
  - apply Qle_shift_div_r; [exact P|].
    assert (E : (10 / video_fps * (video_fps * speed) == 10 * speed)%Q)
      by (field; lra).
    rewrite E. lra.
Qed.

Lemma target_frame_delay_bounds_witness :
  exists d,
    target_frame_delay 30 1 = Some d /\
    (1 / (5 * 30) <= d)%Q /\ (d <= 10 / 30)%Q.
Proof.
  apply (target_frame_delay_bounds 30 1); vm_compute;
    reflexivity || discriminate.
Defined.

(** X23: the keys never take the speed out of bounds. Whatever keys
    [_process_key] handles on a new player, the speed stays within
    [[0.1, 5.0]]. *)
Theorem keys_keep_speed_bounded (buffer_size : Z) (keys : list ascii) :
  let self := fold_left _process_key keys (new_player buffer_size) in
  (1 # 10 <= playback_speed self)%Q /\ (playback_speed self <= 5)%Q.
Proof.
  apply speed_bounded_under_keys. simpl. split; discriminate.
Qed.

(** ** The performance monitor *)

Lemma tl_skipn {A} (k : nat) (l : list A) : tl (skipn k l) = skipn (S k) l.
Proof.
  revert l. induction k as [|k IH]; intros [|x l]; try reflexivity.
  simpl skipn at 1. rewrite IH. reflexivity.
Qed.

Lemma record_all_snoc m calls c :
  record_all m (calls ++ [c]) = record_frame (record_all m calls) (fst c) (snd c).
Proof. unfold record_all. now rewrite fold_left_app. Qed.

(** X27: the monitor keeps the last sixty frame times. After any number
    of [record_frame] calls on a new monitor, [frame_times] holds the
    times of the most recent calls in order, sixty at most, every call
    is counted in [frames_processed], and [max_frame_history] is still
    sixty. *)
Theorem record_frame_window (interval now : Q) (calls : list (Q * Q)) :
  let m := record_all (new_monitor interval now) calls in
  let times := map (fun c => (fst c - snd c)%Q) calls in
  frame_times m = skipn (List.length calls - 60) times /\
  (List.length (frame_times m) <= 60)%nat /\
  frames_processed (stats m) = Z.of_nat (List.length calls) /\
  max_frame_history m = 60.
Proof.
  induction calls as [|c calls IH] using rev_ind.
  - simpl. split; [|split; [|split]]; (reflexivity || lia).
  - cbv zeta in *. destruct IH as [Ht [Hl [Hp Hm]]].
    rewrite record_all_snoc, map_app, length_app.
    change (List.length [c]) with 1%nat.
    set (m := record_all (new_monitor interval now) calls) in *.
    set (times := map (fun c => (fst c - snd c)%Q) calls) in *.
    assert (Ln : List.length times = List.length calls)
      by apply length_map.
    assert (Lw : List.length (frame_times m)
                 = Nat.min (List.length calls) 60).
    { rewrite Ht, length_skipn. lia. }
    assert (Ft : frame_times (record_frame m (fst c) (snd c))
                 = skipn (List.length calls + 1 - 60)
                     (times ++ map (fun c => (fst c - snd c)%Q) [c])).
    { unfold record_frame. simpl frame_times. rewrite Hm.
      rewrite length_app. simpl List.length.
      destruct (Z.ltb_spec 60
                  (Z.of_nat (List.length (frame_times m) + 1))) as [G | G].
      - unfold pop0. rewrite Ht.
        assert (K : (60 <= List.length calls)%nat) by lia.
        destruct (skipn (List.length calls - 60) times) as [|x rest] eqn:Sk.
        { apply (f_equal (@List.length Q)) in Sk.
          rewrite length_skipn in Sk. simpl in Sk. lia. }
        simpl tl.
        replace (List.length calls + 1 - 60)%nat
          with (S (List.length calls - 60)) by lia.
        rewrite skipn_app, <- tl_skipn, Sk. simpl tl.
        replace (S (List.length calls - 60) - List.length times)%nat
          with 0%nat by lia.
        reflexivity.
      - replace (List.length calls + 1 - 60)%nat with 0%nat by lia.
        rewrite Ht.
        replace (List.length calls - 60)%nat with 0%nat by lia.
        reflexivity. }
    split; [|split; [|split]].
    + exact Ft.
    + rewrite Ft, length_skipn, length_app. simpl. lia.
    + unfold record_frame. simpl. rewrite Hp. lia.
    + unfold record_frame. simpl. exact Hm.
Qed.

(** X28: what the monitor recommends can always be applied. Whatever
    the measured frame rate and CPU load, the recommended number of
    workers is between 1 and 4, threading is switched off exactly when
    the frame rate is below 15, contrast enhancement is kept exactly
    when the frame rate is at least 15 and the CPU load at most 80, and
    a converter can be built with the recommended threading and
    workers. *)
Theorem adaptive_settings_sound {glyph} (self : PerformanceMonitor)
    (style : list glyph) (alg : ConversionAlgorithm) :
  let s := get_adaptive_quality_settings self in
  1 <= settings_max_workers s <= 4 /\
  (settings_use_threading s = false <-> (fps (stats self) < 15)%Q) /\
  (settings_enhance_contrast s = true
   <-> (15 <= fps (stats self))%Q /\ (cpu_usage (stats self) <= 80)%Q) /\
  new_converter style alg (settings_use_threading s)
    (settings_max_workers s) <> None.
Proof.
  unfold get_adaptive_quality_settings, new_converter.
  destruct (Qlt_le_dec (fps (stats self)) 15) as [F15 | F15];
    [|destruct (Qlt_le_dec (fps (stats self)) 25) as [F25 | F25]];
    destruct (Qlt_le_dec 80 (cpu_usage (stats self))) as [C | C];
    simpl; repeat split; try lia; try discriminate; try assumption;
    try (intros; lra); try (intros [? ?]; lra); try (intros; split; lra).
Qed.

(** ** The progress bar *)

Lemma times_length (c n : Z) : List.length (times c n) = Z.to_nat n.
Proof. unfold times. apply repeat_length. Qed.

(** X29: the progress bar is exactly as wide as asked. For a progress in
    [[0, 1]] and a width of at most [2^53], the bar is [filled] full
    blocks followed by light shades up to [width] cells, where [filled]
    is the floating-point product [progress * width] truncated; with
    colours it is wrapped in a five-character colour code and the
    four-character reset, without them (on Windows) it is the bare
    bar. *)
Theorem progress_bar_width (windows : bool) (progress : Q) (width : Z) :
  (0 <= progress)%Q -> (progress <= 1)%Q -> 0 <= width <= 2 ^ 53 ->
  let filled := Qfloor (Py.float (progress * inject_Z width)) in
  0 <= filled <= width /\
  progress_bar true progress width
  = times FULL_BLOCK filled ++ times LIGHT_SHADE (width - filled) /\
  List.length (progress_bar windows progress width)
  = (Z.to_nat width + if windows then 0 else 9)%nat.
Proof.
  intros H0 H1 Hw filled.
  assert (Hq : (0 <= inject_Z width)%Q).
  { change 0%Q with (inject_Z 0). rewrite <- Zle_Qle. lia. }
  assert (Hp : (0 <= progress * inject_Z width)%Q)
    by now apply Qmult_le_0_compat.
  assert (Hf := float_nonneg _ Hp).
  assert (Ew : Py.fmul progress (Py.float (inject_Z width))
               = Py.float (progress * inject_Z width)).
  { apply float_comp. rewrite float_Z by lia. reflexivity. }
  assert (E : Py.int (Py.fmul progress (Py.float (inject_Z width))) = filled).
  { rewrite Ew. now apply int_nonneg. }
  assert (Lo : 0 <= filled).
  { unfold filled. change 0 with (Qfloor 0). now apply Qfloor_resp_le. }
  assert (Hi : filled <= width).
  { unfold filled.
    apply Z.le_trans with (Qfloor (inject_Z width));
      [|rewrite Qfloor_Z; lia].
    apply Qfloor_resp_le.
    rewrite <- (float_Z width) at 2 by lia.
    apply float_monotone.
    apply Qle_trans with (1 * inject_Z width)%Q;
      [now apply Qmult_le_compat_r|].
    rewrite Qmult_1_l. apply Qle_refl. }
  split; [lia|]. unfold progress_bar. rewrite E. cbv zeta. split.
  - reflexivity.
  - unfold colorize.
    assert (L : List.length (times FULL_BLOCK filled
                             ++ times LIGHT_SHADE (width - filled))
                = Z.to_nat width).
    { rewrite length_app, !times_length. lia. }
    destruct windows; [rewrite L; lia|].
    rewrite !length_app, !times_length.
    destruct (Qlt_le_dec progress _);
      [|destruct (Qlt_le_dec progress _)]; simpl; lia.
Qed.

Lemma progress_bar_width_witness :
  0 <= 24 <= 40 /\
  progress_bar true (5404319552844595 # 9007199254740992) 40
  = times FULL_BLOCK 24 ++ times LIGHT_SHADE (40 - 24) /\
  List.length (progress_bar false (5404319552844595 # 9007199254740992) 40)
  = (Z.to_nat 40 + 9)%nat.
Proof.
  apply (progress_bar_width false (5404319552844595 # 9007199254740992) 40);
    vm_compute; try split; discriminate.
Defined.

(** The float 0.6 on a bar of 40 cells: the rounded product is 24.0 and
    24 cells are full, while the exact product is below 24. *)
Example progress_bar_rounds :
  Py.float (6 # 10) = (5404319552844595 # 9007199254740992)%Q /\
  Qfloor (Py.float (Py.float (6 # 10) * 40)) = 24 /\
  Qfloor (Py.float (6 # 10) * 40) = 23.
Proof. repeat split; vm_compute; reflexivity. Qed.

(** ** Automatic height and still images *)

(** Line 381: the automatic height is the integer quotient
    [fh * width / (2 * fw)]; its single rounding cannot cross an
    integer. *)
Lemma auto_height_exact (fw fh width : Z) :
  1 <= fw <= 2 ^ 24 -> 1 <= fh <= 2 ^ 24 -> 1 <= width <= 2 ^ 24 ->
  Py.int (Py.fmul (Py.float (inject_Z (fh * width) / inject_Z fw)) (1 # 2))
  = fh * width / (2 * fw).
Proof.
  intros Hfw Hfh Hw.
  assert (Pw : (0 < inject_Z fw)%Q).
  { change 0%Q with (inject_Z 0). rewrite <- Zlt_Qlt. lia. }
  assert (Pn : (0 <= inject_Z (fh * width))%Q).
  { change 0%Q with (inject_Z 0). rewrite <- Zle_Qle. nia. }
  assert (Bn : fh * width < 2 ^ 50).
  { apply Z.le_lt_trans with (2 ^ 24 * 2 ^ 24); [nia | reflexivity]. }
  set (x := (inject_Z (fh * width) / inject_Z fw)%Q).
  assert (Px : (0 <= x)%Q) by (apply Qle_shift_div_l; lra).
  assert (Ex : (x * inject_Z fw == inject_Z (fh * width))%Q)
    by (unfold x; field; lra).
  destruct (float_error x Px) as [E1 E2].
  assert (Q0 := float_nonneg x Px).
  assert (Y := float_half x).
  assert (Y0 : (0 <= Py.fmul (Py.float x) (1 # 2))%Q) by (rewrite Y; lra).
  rewrite (int_nonneg _ Y0).
  assert (G1 : (x * (1 - (1 # 9007199254740992)) * inject_Z fw
                <= Py.float x * inject_Z fw)%Q)
    by (apply Qmult_le_compat_r; lra).
  assert (G2 : (Py.float x * inject_Z fw
                <= x * (1 + (1 # 9007199254740992)) * inject_Z fw)%Q)
    by (apply Qmult_le_compat_r; lra).
  destruct (floor_near (fh * width) (2 * fw) (Py.fmul (Py.float x) (1 # 2)))
    as [[F1 F2] F3].
  - split; [nia | exact Bn].
  - lia.
  - rewrite Y, (inject_Z_mult 2 fw). change (inject_Z 2) with 2%Q. lra.
  - rewrite Y, (inject_Z_mult 2 fw). change (inject_Z 2) with 2%Q. lra.
  - destruct (Z.eq_dec ((fh * width) mod (2 * fw)) 0) as [D | D];
      [|now apply F3].
    assert (M := Z.div_mod (fh * width) (2 * fw) ltac:(lia)).
    rewrite D in M. set (k := fh * width / (2 * fw)) in *.
    assert (K : 0 <= k) by (apply Z.div_pos; nia).
    assert (Xk : (x == inject_Z (2 * k))%Q).
    { unfold x. rewrite M at 1. rewrite Z.add_0_r.
      rewrite !inject_Z_mult. field. lra. }
    assert (Fk : (Py.float x == inject_Z (2 * k))%Q).
    { rewrite (float_comp x (inject_Z (2 * k)) Xk). apply float_Z. nia. }
    rewrite (Qfloor_comp _ (inject_Z k)); [apply Qfloor_Z|].
    rewrite Y, Fk, inject_Z_mult. change (inject_Z 2) with 2%Q. field.
Qed.

(** X13: with [height=None] the requested width is kept. For a frame of
    1 to [2^24] pixels each way and a width in the same range, the
    height is taken as [frame_height * width / (2 * frame_width)], and
    the resizer, asked for that size, settles on exactly the width asked
    for and on that height, or on one row less when the division is
    exact and the floating-point quotient of line 223 falls below it. *)
Theorem auto_height_keeps_width {glyph} (newline : glyph) (cv : OpenCV)
    (self : ASCIIConverter glyph) (frame : Frame) (width : Z)
    (enhance : bool) :
  1 <= frame_width frame <= 2 ^ 24 -> 1 <= frame_height frame <= 2 ^ 24 ->
  1 <= width <= 2 ^ 24 ->
  let height := frame_height frame * width / (2 * frame_width frame) in
  convert_frame_to_ascii newline cv self (Some frame) width None enhance
  = convert_frame_to_ascii newline cv self (Some frame) width (Some height)
      enhance /\
  exists rows,
    fitted_size (frame_width frame) (frame_height frame)
      (Py.max 1 width) (Py.max 1 height) = Some (width, rows) /\
    height - 1 <= rows <= height /\
    ((frame_height frame * width) mod (2 * frame_width frame) <> 0 ->
     rows = height).
Proof.
  intros Hfw Hfh Hw height.
  assert (Nw : ~ (inject_Z (frame_width frame) == 0)%Q)
    by (apply inject_Z_nonzero; lia).
  assert (E := auto_height_exact _ _ _ Hfw Hfh Hw). fold height in E.
  split.
  - unfold convert_frame_to_ascii.
    destruct (frame_size frame =? 0); [reflexivity|].
    rewrite truediv_some by exact Nw. cbn [bind]. now rewrite E.
  - assert (H0 : 0 <= height) by (apply Z.div_pos; nia).
    rewrite !max_spec. replace (Z.max 1 width) with width by lia.
    destruct (fitted_size_cases (frame_width frame) (frame_height frame)
                width (Z.max 1 height) Hfw Hfh Hw ltac:(lia))
      as [cols [rows [S D]]].
    cbv zeta in D.
    replace (width * frame_height frame) with (frame_height frame * width)
      in D by lia.
    fold height in D.
    destruct D as [[-> [D1 [D2 D3]]] | [_ [D1 _]]]; [|lia].
    exists rows. split; [exact S|]. split; [lia | exact D3].
Qed.

Lemma auto_height_keeps_width_witness :
  convert_frame_to_ascii "010"%char black_cv minimal_converter
    (Some black_4x4) 4 None true
  = convert_frame_to_ascii "010"%char black_cv minimal_converter
      (Some black_4x4) 4 (Some (4 * 4 / (2 * 4))) true /\
  exists rows,
    fitted_size 4 4 (Py.max 1 4) (Py.max 1 (4 * 4 / (2 * 4)))
    = Some (4, rows) /\
    4 * 4 / (2 * 4) - 1 <= rows <= 4 * 4 / (2 * 4) /\
    ((4 * 4) mod (2 * 4) <> 0 -> rows = 4 * 4 / (2 * 4)).
Proof.
  apply (auto_height_keeps_width "010"%char black_cv minimal_converter
           black_4x4 4 true); vm_compute; try split; discriminate.
Defined.

Lemma process_key_image self key :
  is_image (_process_key self key) = is_image self /\
  (List.length (items (frame_buffer (_process_key self key)))
   <= List.length (items (frame_buffer self)))%nat.
Proof.
  unfold _process_key, stop, restart, toggle_pause, change_speed.
  case_ifs; try (destruct (cap self)); simpl;
    (split; [reflexivity | lia]).
Qed.

Lemma seek_image self n :
  is_image (seek self n) = is_image self /\
  (List.length (items (frame_buffer (seek self n)))
   <= List.length (items (frame_buffer self)))%nat.
Proof.
  unfold seek. destruct (cap self); [|split; [reflexivity | lia]].
  destruct (_ && _); simpl; (split; [reflexivity | lia]).
Qed.

Lemma shown_once_step log st e :
  shown_once log st ->
  shown_once
    (log ++ match e, get (frame_buffer (snd st)) with
            | Displaying, Some (item, _) => [item]
            | _, _ => []
            end)
    (step st e).
Proof.
  destruct st as [pc self]. unfold shown_once. simpl fst. simpl snd.
  intros [Hi Hs].
  destruct e as [t | | key | n].
  - rewrite app_nil_r. simpl step. unfold buffer_step.
    destruct pc as [| image | | | frame |]; try contradiction.
    + rewrite Hi. destruct Hs as [-> Hb].
      destruct (static_image self); [destruct (_ =? 0)|]; simpl;
        split; auto; rewrite Hb; simpl; lia.
    + destruct Hs as [-> Hb]. unfold put.
      destruct (full (frame_buffer self)); [destruct t|]; simpl;
        split; auto; rewrite ?Hb; simpl; lia.
    + destruct (stop_event self); simpl; auto.
    + simpl. auto.
  - simpl step. unfold display_get, get.
    destruct (items (frame_buffer self)) as [|item rest] eqn:E.
    + rewrite app_nil_r. simpl. rewrite E. auto.
    + simpl. split; [exact Hi|].
      destruct pc; try contradiction; try (destruct Hs; discriminate);
        rewrite length_app; simpl in *; lia.
  - rewrite app_nil_r.
    change (step (pc, self) (KeyPressed key))
      with (pc, _process_key self key). cbn [fst snd].
    destruct (process_key_image self key) as [Ki Kl].
    rewrite Ki. split; [exact Hi|].
    destruct pc; try contradiction; try lia.
    + destruct Hs as [-> Hb]. rewrite Hb in Kl. simpl in Kl.
      split; [reflexivity|].
      destruct (items (frame_buffer (_process_key self key)));
        [reflexivity | simpl in Kl; lia].
    + destruct Hs as [-> Hb]. rewrite Hb in Kl. simpl in Kl.
      split; [reflexivity|].
      destruct (items (frame_buffer (_process_key self key)));
        [reflexivity | simpl in Kl; lia].
  - rewrite app_nil_r.
    change (step (pc, self) (Seek n)) with (pc, seek self n).
    cbn [fst snd].
    destruct (seek_image self n) as [Ki Kl].
    rewrite Ki. split; [exact Hi|].
    destruct pc; try contradiction; try lia.
    + destruct Hs as [-> Hb]. rewrite Hb in Kl. simpl in Kl.
      split; [reflexivity|].
      destruct (items (frame_buffer (seek self n)));
        [reflexivity | simpl in Kl; lia].
    + destruct Hs as [-> Hb]. rewrite Hb in Kl. simpl in Kl.
      split; [reflexivity|].
      destruct (items (frame_buffer (seek self n)));
        [reflexivity | simpl in Kl; lia].
Qed.

Lemma shown_once_run trace : forall log st,
  shown_once log st ->
  (List.length (log ++ displayed st trace) <= 1)%nat.
Proof.
  induction trace as [|e trace IH]; intros log st H.
  - simpl. rewrite app_nil_r. destruct H as [_ H].
    destruct (fst st); try contradiction;
      try (destruct H as [-> _]; simpl; lia); lia.
  - assert (S1 := shown_once_step log st e H).
    apply IH in S1. simpl displayed.
    destruct e; try (now rewrite app_nil_r in S1).
    destruct (get (frame_buffer (snd st))) as [[item q]|];
      [now rewrite <- app_assoc in S1 | now rewrite app_nil_r in S1].
Qed.

(** X30: a still image is displayed at most once. From the start of
    [_buffer_frames] on a player holding an image, with an empty buffer,
    the display thread takes at most one frame out of the buffer along
    any interleaving, keys and seeks included: the image is put once and
    never again. *)
Theorem still_image_displayed_once (self : ASCIIVideoPlayer)
    (trace : list Event) :
  is_image self = true -> items (frame_buffer self) = [] ->
  (List.length (displayed (BufStart, self) trace) <= 1)%nat.
Proof.
  intros Hi Hb.
  apply (shown_once_run trace [] (BufStart, self)).
  split; [exact Hi | now split].
Qed.

Lemma still_image_displayed_once_witness :
  (List.length
     (displayed
        (BufStart, snd (load_media still_world (new_player 3) "still.png"))
        [Buffering true; Buffering true; Displaying; KeyPressed "r";
         Buffering true; Displaying]) <= 1)%nat.
Proof.
  apply (still_image_displayed_once
           (snd (load_media still_world (new_player 3) "still.png")));
    vm_compute; reflexivity.
Defined.
